(** * Lead-generation pipeline: rate-limited transport and workflow orchestrator

    Shallow embedding of
    - [utils/api-client.js]   (class [APIClient]: [_rateLimit], [request],
      [get], [post], [put]),
    - [utils/logger.js]       (class [Logger]: [error]),
    - [modules/enrichment.js] (class [EnrichmentModule]: [enrichPeopleBulk],
      [enrichOrganizationsBulk]),
    - [modules/search.js], [modules/contacts.js], [modules/outreach.js]
      ([searchPeople], [createContact], [addContactsToSequence]),
    - [workflows/lead-workflow.js] (class [LeadWorkflow]: [generateLeads],
      [findDecisionMakers]).

    Asynchronous code is written in state-passing style: an [await] is the
    point where the callee's effect on the outside world is applied.  Remote
    collaborators are functions on an abstract world, so that they may answer
    differently on every call.  What the logger prints is left out; what is
    kept of it is that [logger.error], called in the [catch] block of
    [generateLeads], throws on a value it cannot print.

    Conventions: objects are records whose fields keep their JavaScript
    names; a field that may be [undefined] is an [option]; counters and
    indices are naturals, times are integers (milliseconds),
    [60000 / rateLimit] is an exact rational.  The transport and the modules
    built on it throw [Error] objects, given by their [message]; the
    collaborators of the workflow, taken as black boxes, may throw any
    value, and return result objects of the shape the modules give them.
    Synchronous code takes no time; time passes only at an [await]. *)

From Stdlib Require Import String ZArith QArith Qround Lqa Lia Bool Arith List.
Import ListNotations.

Local Open Scope nat_scope.

(* ===================================================================== *)
(** * Part I: the program                                                  *)
(* ===================================================================== *)

(** ** JavaScript values used by the code *)
Module Js.

(** A field holding a string, or [undefined]. *)
Definition jsstr := option string.

(** Truthiness of such a field: [undefined] and the empty string are falsy. *)
Definition truthy (v : jsstr) : bool :=
  match v with
  | None => false
  | Some s => negb (String.eqb s "")
  end.

(** [a || b] on string fields. *)
Definition or_else (a b : jsstr) : jsstr := if truthy a then a else b.

(** Interpolation [`${v}`] of a string field. *)
Definition show (v : jsstr) : string :=
  match v with
  | None => "undefined"
  | Some s => s
  end.

(** [Array.prototype.slice(start, end)] for indices [0 <= start <= end]. *)
Definition slice {A : Type} (l : list A) (start stop : nat) : list A :=
  firstn (stop - start) (skipn start l).

(** A thrown value, as far as a [catch] block that logs it and reads
    [error.message] can tell: [undefined] and [null], on which the read
    itself throws a TypeError; any other value, with what [.message] reads on
    it: a string, or [undefined] for a value without one (a thrown string, a
    plain object); and among the latter, set apart, a value that cannot be
    printed: one of which [JSON.stringify] refuses the [message], the [stack]
    or the [response.data] with the TypeError [type_error] (a circular
    structure, a BigInt). *)
Inductive thrown : Type :=
| Undefined
| Null
| Value (message : jsstr)
| Unprintable (message : jsstr) (type_error : string).

(** [new Error(message)] *)
Definition Error (message : string) : thrown := Value (Some message).

(** The result of an awaited call: a value, or what was thrown, given as
    an [E]. *)
Inductive outcome_of (E A : Type) : Type :=
| Ret (a : A)
| Throw (error : E).
Arguments Ret {E A} a.
Arguments Throw {E A} error.

(** A call that throws, when it does, an [Error] object, given by its
    [message]. *)
Abbreviation outcome := (outcome_of string).

(** A call that may throw any value. *)
Abbreviation awaited := (outcome_of thrown).

(** An [Error] thrown by the transport or by a module, as a thrown
    value. *)
Definition as_awaited {A} (r : outcome A) : awaited A :=
  match r with
  | Ret a => Ret a
  | Throw message => Throw (Error message)
  end.

(** [error.message]: what the read gives, or the message of the TypeError
    it throws. *)
Definition message_of (error : thrown) : outcome jsstr :=
  match error with
  | Undefined =>
      Throw "Cannot read properties of undefined (reading 'message')"%string
  | Null => Throw "Cannot read properties of null (reading 'message')"%string
  | Value message | Unprintable message _ => Ret message
  end.

End Js.
Import Js.

(** ** [utils/logger.js]

    What the methods print is left out.  [info], [success], [warn] and
    [debug] are given numbers, strings and objects made of them, as the
    types below have it, which [JSON.stringify] always accepts; they are
    left out altogether. *)
Module Logger.

(** [error(message, error)]: a falsy [error] is not looked into; of any
    other the [message], the [stack] and the [response.data] are collected
    and passed to [JSON.stringify], which throws on a value it cannot
    print.  The [catch] blocks of the modules pass it the [Error] objects of
    the transport and of their own [try] blocks, which it prints. *)
Definition error (thrown_value : thrown) : outcome unit :=
  match thrown_value with
  | Unprintable _ type_error => Throw type_error
  | Undefined | Null | Value _ => Ret tt
  end.

End Logger.

(** ** The batching loop of [generateLeads] (step 2)

    [for (let i = 0; i < leadsToProcess.length; i += 10)
       batch = leadsToProcess.slice(i, i + 10)]                              *)
Module Batch.

Definition size : nat := 10.

(** The batches the loop header produces from index [i] on.  [fuel] bounds
    the number of iterations; the index grows by [size] each time, so
    [length l] iterations are always enough. *)
Fixpoint batches_from {A : Type} (fuel : nat) (l : list A) (i : nat)
  : list (list A) :=
  match fuel with
  | 0 => []
  | S fuel' =>
      if i <? length l
      then slice l i (i + size) :: batches_from fuel' l (i + size)
      else []
  end.

Definition batches {A : Type} (l : list A) : list (list A) :=
  batches_from (length l) l 0.

(** [ceil(a / b)] on naturals. *)
Definition ceil_div (a b : nat) : nat := (a + (b - 1)) / b.

End Batch.

(** ** [utils/api-client.js]: the rate limiter ([_rateLimit])

    Times are integer milliseconds, as [Date.now()] returns them; the minimum
    interval and the delays computed from it are rationals, since
    [(60 * 1000) / this.rateLimit] need not be an integer.  JavaScript
    computes them in double precision: the two agree whenever [rateLimit]
    divides 60000, as the default of 10 does, all the numbers being then
    integers below [2 ^ 53]; for another [rateLimit] the rational stands for
    the double next to it. *)
Module RateLimiter.

(** [const minInterval = (60 * 1000) / this.rateLimit] *)
Definition minInterval (rateLimit : Z) : Q :=
  (inject_Z (60 * 1000) / inject_Z rateLimit)%Q.

(** The synchronous prefix of [_rateLimit], from its first line to the
    [await]: [Some delay] when the caller has to be suspended for [delay]
    milliseconds, [None] when the test [timeSinceLastRequest < minInterval]
    fails and the function runs on to its last line at once. *)
Definition check (now lastRequestTime rateLimit : Z) : option Q :=
  let timeSinceLastRequest := inject_Z (now - lastRequestTime) in
  let minInterval := minInterval rateLimit in
  if negb (Qle_bool minInterval timeSinceLastRequest)
  then Some (minInterval - timeSinceLastRequest)%Q
  else None.

(** One limiter instance shared by any number of callers.  [waiting] holds,
    for every caller suspended at the [await], the time for which its timer
    was set, [Date.now() + delay]; [dispatched] logs the values written to
    [lastRequestTime], most recent first. *)
Record state : Type := mkState {
  clock : Z;
  lastRequestTime : Z;
  waiting : list Q;
  dispatched : list Z
}.

(** [this.lastRequestTime = 0] in the constructor. *)
Definition init (clock0 : Z) : state :=
  {| clock := clock0; lastRequestTime := 0; waiting := []; dispatched := [] |}.

(** What the event loop can do next. *)
Inductive action : Type :=
| Tick (dt : Z)      (* time passes *)
| Enter              (* a caller invokes [_rateLimit()] *)
| Resume (k : nat).  (* the [k]-th suspended caller is resumed, at whatever
                        time the event loop runs its timer *)

Fixpoint remove_nth {A : Type} (k : nat) (l : list A) : list A :=
  match l, k with
  | [], _ => []
  | _ :: l', 0 => l'
  | x :: l', S k' => x :: remove_nth k' l'
  end.

(** [this.lastRequestTime = Date.now()], the last line of [_rateLimit]. *)
Definition record_dispatch (s : state) (waiting' : list Q) : state :=
  {| clock := clock s;
     lastRequestTime := clock s;
     waiting := waiting';
     dispatched := clock s :: dispatched s |}.

Definition step (rateLimit : Z) (a : action) (s : state) : option state :=
  match a with
  | Tick dt =>
      if (0 <=? dt)%Z
      then Some {| clock := clock s + dt;
                   lastRequestTime := lastRequestTime s;
                   waiting := waiting s;
                   dispatched := dispatched s |}
      else None
  | Enter =>
      match check (clock s) (lastRequestTime s) rateLimit with
      | Some delay =>
          Some {| clock := clock s;
                  lastRequestTime := lastRequestTime s;
                  waiting := waiting s ++ [(inject_Z (clock s) + delay)%Q];
                  dispatched := dispatched s |}
      | None => Some (record_dispatch s (waiting s))
      end
  | Resume k =>
      match nth_error (waiting s) k with
      | Some wake => Some (record_dispatch s (remove_nth k (waiting s)))
      | None => None
      end
  end.

Fixpoint run (rateLimit : Z) (acts : list action) (s : state) : option state :=
  match acts with
  | [] => Some s
  | a :: acts' =>
      match step rateLimit a s with
      | Some s' => run rateLimit acts' s'
      | None => None
      end
  end.

(** No caller enters [_rateLimit] while another one is suspended in it:
    every call is awaited before the next one is made. *)
Fixpoint non_overlapping (rateLimit : Z) (acts : list action) (s : state) : bool :=
  match acts with
  | [] => true
  | a :: acts' =>
      match a with
      | Enter => match waiting s with [] => true | _ => false end
      | _ => true
      end
      && match step rateLimit a s with
         | Some s' => non_overlapping rateLimit acts' s'
         | None => true
         end
  end.

(** An assumption on the timers: no suspended caller is resumed before the
    time its timer was set for. *)
Fixpoint timers_on_time (rateLimit : Z) (acts : list action) (s : state) : bool :=
  match acts with
  | [] => true
  | a :: acts' =>
      match a with
      | Resume k =>
          match nth_error (waiting s) k with
          | Some wake => Qle_bool wake (inject_Z (clock s))
          | None => true
          end
      | _ => true
      end
      && match step rateLimit a s with
         | Some s' => timers_on_time rateLimit acts' s'
         | None => true
         end
  end.

(** Consecutive entries of the dispatch log are at least [gap] apart. *)
Fixpoint spaced (gap : Q) (log : list Z) : Prop :=
  match log with
  | t2 :: ((t1 :: _) as log') => (gap <= inject_Z (t2 - t1))%Q /\ spaced gap log'
  | _ => True
  end.

(** What holds of a limiter whose callers never overlap and whose timers
    are on time: the log is spaced, its head is the stored timestamp, and
    the timer of the only caller that may be suspended is set for one
    interval after it, or later. *)
Record inv (R : Z) (s : state) : Prop := mkInv {
  inv_spaced : spaced (minInterval R) (dispatched s);
  inv_last : match dispatched s with
             | t :: _ => lastRequestTime s = t
             | [] => lastRequestTime s = 0%Z
             end;
  inv_waiting : match waiting s with
                | [] => True
                | [wake] => (inject_Z (lastRequestTime s) + minInterval R <= wake)%Q
                | _ => False
                end
}.

End RateLimiter.

(** *** Three callers on one limiter *)
Module RateLimiterScenario.
Import RateLimiter.

Definition t0 : Z := 1700000000000.

(** Three requests are started in the same turn of the event loop (none is
    awaited before the next one is made) with [rateLimit = 10]: the first
    passes at once, the other two are suspended for 6000 ms each, and both
    timers fire 6000 ms later. *)
Definition burst : list action :=
  [Enter; Enter; Enter; Tick 6000; Resume 0; Resume 0].

(** The same three requests, each awaited before the next one is made. *)
Definition one_by_one : list action :=
  [Enter; Enter; Tick 6000; Resume 0; Enter; Tick 6000; Resume 0].

End RateLimiterScenario.

(** ** [utils/api-client.js]: [request] and its retry loop *)
Module Transport.

(** The error [axios] rejects with: [error.response.status] when the server
    answered, and [error.message]. *)
Record AxiosError : Type := mkAxiosError {
  status : option Z;
  message : string
}.

(** [error.response && error.response.status >= 400
     && error.response.status < 500] *)
Definition is_client_error (error : AxiosError) : bool :=
  match status error with
  | Some s => ((400 <=? s) && (s <? 500))%Z
  | None => false
  end.

(** The [config] object handed to [axios]. *)
Record ReqConfig (Payload : Type) : Type := mkReqConfig {
  method : string;
  url : string;
  x_api_key : string;
  params : option Payload;
  data : option Payload
}.
Arguments mkReqConfig {Payload}.

(** What the client runs on: the clock behind [Date.now()], the timer
    behind [await new Promise(resolve => setTimeout(resolve, delay))], the
    HTTP library, and JavaScript's truthiness of a payload ([if (data)]):
    an object is truthy, the empty string and 0 are not. *)
Record Env (Payload Data World : Type) : Type := mkEnv {
  now : World -> Z;
  setTimeout : Q -> World -> World;
  axios : ReqConfig Payload -> World -> World * (Data + AxiosError);
  truthy_payload : Payload -> bool
}.
Arguments now {Payload Data World}.
Arguments setTimeout {Payload Data World}.
Arguments axios {Payload Data World}.
Arguments truthy_payload {Payload Data World}.

Record APIClient : Type := mkAPIClient {
  baseURL : string;
  apiKey : string;
  rateLimit : Z;
  lastRequestTime : Z
}.

(** What one logical operation does, in order. *)
Inductive Event (Data : Type) : Type :=
| EvAcquire                                        (* [_rateLimit()] ran *)
| EvCall (attempt : nat) (r : Data + AxiosError)   (* one [axios(config)] *)
| EvBackoff (delay : Z).                           (* one backoff sleep *)
Arguments EvAcquire {Data}.
Arguments EvCall {Data}.
Arguments EvBackoff {Data}.

(** How [request] ends: [return response.data], [throw error] /
    [throw lastError] ([lastError] is [undefined] when the loop body never
    ran), or the model's loop bound was hit. *)
Inductive result (Data : Type) : Type :=
| Returned (d : Data)
| Thrown (e : option AxiosError)
| OutOfFuel.
Arguments Returned {Data}.
Arguments Thrown {Data}.
Arguments OutOfFuel {Data}.

(** [Math.pow(2, attempt) * 1000] *)
Definition backoff_delay (attempt : nat) : Z := (2 ^ Z.of_nat attempt * 1000)%Z.

Section Client.
Context {Payload Data World : Type}.
Variable env : Env Payload Data World.

Definition St : Type := (World * APIClient)%type.

Definition _rateLimit (st : St) : St :=
  let '(w, c) := st in
  let w' :=
    match RateLimiter.check (now env w) (lastRequestTime c) (rateLimit c) with
    | Some delay => setTimeout env delay w
    | None => w
    end in
  (w', {| baseURL := baseURL c; apiKey := apiKey c; rateLimit := rateLimit c;
          lastRequestTime := now env w' |}).

(** The loop [for (let attempt = 0; attempt < retries; attempt++)], from
    the iteration [attempt] on. *)
Fixpoint attempts (fuel : nat) (retries : nat) (config : ReqConfig Payload)
         (attempt : nat) (lastError : option AxiosError) (st : St)
  : St * list (Event Data) * result Data :=
  match fuel with
  | 0 => (st, [], OutOfFuel)
  | S fuel' =>
      if attempt <? retries then
        let '(w, c) := st in
        let '(w1, r) := axios env config w in
        match r with
        | inl d => ((w1, c), [EvCall attempt r], Returned d)
        | inr error =>
            if is_client_error error
            then ((w1, c), [EvCall attempt r], Thrown (Some error))
            else if attempt <? retries - 1 then
              let delay := backoff_delay attempt in
              let w2 := setTimeout env (inject_Z delay) w1 in
              let '(st', evs, res) :=
                attempts fuel' retries config (attempt + 1) (Some error) (w2, c) in
              (st', EvCall attempt r :: EvBackoff delay :: evs, res)
            else
              let '(st', evs, res) :=
                attempts fuel' retries config (attempt + 1) (Some error) (w1, c) in
              (st', EvCall attempt r :: evs, res)
        end
      else (st, [], Thrown lastError)
  end.

(** [if (data)]: the payload that goes out, if any; [None] is [null], the
    default of the parameter. *)
Definition payload_sent (data : option Payload) : option Payload :=
  match data with
  | Some d => if truthy_payload env d then Some d else None
  | None => None
  end.

Definition request (method endpoint : string) (data : option Payload)
           (retries : nat) (st : St)
  : St * list (Event Data) * result Data :=
  let st0 := _rateLimit st in
  let c := snd st0 in
  let config :=
    {| method := method;
       url := baseURL c ++ endpoint;
       x_api_key := apiKey c;
       params := if String.eqb method "GET" then payload_sent data else None;
       data := if String.eqb method "GET" then None else payload_sent data |} in
  let '(st', evs, res) := attempts (S retries) retries config 0 None st0 in
  (st', EvAcquire :: evs, res).

(** [get], [post], [put]: [request] with the default [retries = 3]. *)
Definition get (endpoint : string) (params : option Payload) :=
  request "GET" endpoint params 3.
Definition post (endpoint : string) (data : option Payload) :=
  request "POST" endpoint data 3.
Definition put (endpoint : string) (data : option Payload) :=
  request "PUT" endpoint data 3.

End Client.

(** *** Observations on the events of one operation *)

Definition events_of {S Data} (x : S * list (Event Data) * result Data) :=
  snd (fst x).
Definition result_of {S Data} (x : S * list (Event Data) * result Data) :=
  snd x.

Definition is_call {Data} (e : Event Data) : bool :=
  match e with EvCall _ _ => true | _ => false end.

Definition is_acquire {Data} (e : Event Data) : bool :=
  match e with EvAcquire => true | _ => false end.

(** The number of physical calls. *)
Definition n_calls {Data} (evs : list (Event Data)) : nat :=
  length (filter is_call evs).

Definition n_acquires {Data} (evs : list (Event Data)) : nat :=
  length (filter is_acquire evs).

(** Some physical call came back with a status in [400, 500). *)
Definition is_client_error_call {Data} (e : Event Data) : bool :=
  match e with
  | EvCall _ (inr error) => is_client_error error
  | _ => false
  end.

(** Every physical call is immediately preceded by an acquire. *)
Fixpoint acquire_right_before_each_call {Data} (evs : list (Event Data)) : bool :=
  match evs with
  | [] => true
  | EvCall _ _ :: _ => false
  | EvAcquire :: EvCall _ _ :: evs' => acquire_right_before_each_call evs'
  | _ :: evs' => acquire_right_before_each_call evs'
  end.

(** There is an acquire between any two physical calls, and before the
    first one; [acquired] tells whether one was seen since the last call. *)
Fixpoint acquire_since_previous_call {Data} (acquired : bool)
         (evs : list (Event Data)) : bool :=
  match evs with
  | [] => true
  | EvAcquire :: evs' => acquire_since_previous_call true evs'
  | EvCall _ _ :: evs' => acquired && acquire_since_previous_call false evs'
  | EvBackoff _ :: evs' => acquire_since_previous_call acquired evs'
  end.

(** The course of the retry loop from iteration [attempt] on, as a
    relation between the events and the way the operation ends. *)
Inductive run_shape {Data} (retries : nat)
  : nat -> option AxiosError -> list (Event Data) -> result Data -> Prop :=
| shape_exit attempt lastError :
    retries <= attempt ->
    run_shape retries attempt lastError [] (Thrown lastError)
| shape_success attempt lastError d :
    attempt < retries ->
    run_shape retries attempt lastError [EvCall attempt (inl d)] (Returned d)
| shape_client_failure attempt lastError error :
    attempt < retries ->
    is_client_error error = true ->
    run_shape retries attempt lastError
              [EvCall attempt (inr error)] (Thrown (Some error))
| shape_retrying attempt lastError error evs res :
    attempt + 1 < retries ->
    is_client_error error = false ->
    run_shape retries (attempt + 1) (Some error) evs res ->
    run_shape retries attempt lastError
              (EvCall attempt (inr error)
               :: EvBackoff (backoff_delay attempt) :: evs) res
| shape_server_failure attempt lastError error :
    attempt + 1 = retries ->
    is_client_error error = false ->
    run_shape retries attempt lastError
              [EvCall attempt (inr error)] (Thrown (Some error)).

End Transport.

(** *** A scripted server, to run [request] on *)
Module TransportScenario.
Import Transport.

(** The world: how many physical calls were answered so far, and the clock. *)
Definition World : Type := (nat * Z)%type.

(** The server answers the [n]-th physical call with the [n]-th entry of
    [script]; a call takes 50 ms and a timer fires on time. *)
Definition scripted (script : list (string + AxiosError))
  : Env unit string World :=
  {| now := fun w => snd w;
     setTimeout := fun delay w => (fst w, snd w + Qceiling delay)%Z;
     axios := fun _ w =>
                ((S (fst w), snd w + 50)%Z, nth (fst w) script (inl "{}"%string));
     truthy_payload := fun _ => true |}.

(** The same server, for payloads that are strings: the empty string is
    falsy. *)
Definition scripted_text (script : list (string + AxiosError))
  : Env string string World :=
  {| now := fun w => snd w;
     setTimeout := fun delay w => (fst w, snd w + Qceiling delay)%Z;
     axios := fun _ w =>
                ((S (fst w), snd w + 50)%Z, nth (fst w) script (inl "{}"%string));
     truthy_payload := fun s => negb (String.eqb s "") |}.

Definition server_error : AxiosError :=
  {| status := Some 500%Z; message := "Request failed with status code 500" |}.
Definition not_found : AxiosError :=
  {| status := Some 404%Z; message := "Request failed with status code 404" |}.

Definition client0 : APIClient :=
  {| baseURL := "https://api.apollo.io/v1"; apiKey := "key";
     rateLimit := 10; lastRequestTime := 0 |}.

Definition w0 : World := (0, 1700000000000%Z).

(** [apiClient.get('/people/match')] against a server that answers 500 and
    then 404. *)
Definition flaky_run :=
  request (scripted [inr server_error; inr not_found])
          "GET" "/people/match" None 3 (w0, client0).

(** The same against a server that answers 404 at once. *)
Definition rejected_run :=
  request (scripted [inr not_found]) "GET" "/people/match" None 3 (w0, client0).

End TransportScenario.

(** ** Calls that return or throw, over a threaded state *)
Module Async.

(** Code that throws values given as an [E]. *)
Definition M_of (E St A : Type) : Type := St -> St * outcome_of E A.

(** Code that throws [Error] objects only, given by their [message]. *)
Abbreviation M := (M_of string).

Definition ret {E St A} (a : A) : M_of E St A := fun st => (st, Ret a).

(** [const x = await m; k x]: a thrown value skips the rest. *)
Definition bind {E St A B} (m : M_of E St A) (k : A -> M_of E St B)
  : M_of E St B :=
  fun st =>
    match m st with
    | (st', Ret a) => k a st'
    | (st', Throw error) => (st', Throw error)
    end.

(** [try { m } catch (error) { handler error }] *)
Definition try_catch {E St A} (m : M_of E St A) (handler : E -> M_of E St A)
  : M_of E St A :=
  fun st =>
    match m st with
    | (st', Ret a) => (st', Ret a)
    | (st', Throw error) => handler error st'
    end.

Definition throw {E St A} (error : E) : M_of E St A :=
  fun st => (st, Throw error).

(** A computation without any effect on the state. *)
Definition lift {E St A} (r : outcome_of E A) : M_of E St A :=
  fun st => (st, r).

Definition gets {E St A} (f : St -> A) : M_of E St A :=
  fun st => (st, Ret (f st)).

Definition modify {E St} (f : St -> St) : M_of E St unit :=
  fun st => (f st, Ret tt).

End Async.

Declare Scope async_scope.
Delimit Scope async_scope with async.
Notation "x <- m ;; k" := (Async.bind m (fun x => k))
  (at level 61, m at next level, right associativity) : async_scope.
Notation "m ;; k" := (Async.bind m (fun _ => k))
  (at level 61, right associativity) : async_scope.

(** The [{success, data, error}] objects every module hands back. *)
Record ApiResult (D : Type) : Type := mkApiResult {
  success : bool;
  error : jsstr;
  data : D
}.
Arguments mkApiResult {D}.
Arguments success {D}.
Arguments error {D}.
Arguments data {D}.

Module Organization.
Record t : Type := mk { name : jsstr; website_url : jsstr }.
End Organization.

(** A person as the search and enrichment endpoints return it. *)
Module Lead.
Record t : Type := mk {
  first_name : jsstr;
  last_name : jsstr;
  email : jsstr;
  title : jsstr;
  organization : option Organization.t;
  organization_name : jsstr;
  linkedin_url : jsstr
}.
End Lead.

(** One entry of [batchData] / [peopleData]. *)
Module PersonQuery.
Record t : Type := mk {
  first_name : jsstr;
  last_name : jsstr;
  email : jsstr;
  organization_name : jsstr;
  linkedin_url : jsstr
}.
End PersonQuery.

(** One entry of [response.matches]; [person] is missing for a record the
    API could not match. *)
Module Match.
Record t : Type := mk { person : option Lead.t }.
End Match.

(** ** [modules/enrichment.js]: [enrichPeopleBulk] *)
Module Enrichment.
Import Async.
Local Open Scope async_scope.

(** The body of [POST /people/bulk_match]. *)
Record BulkParams : Type := mkBulkParams {
  details : list PersonQuery.t;
  reveal_personal_emails : bool;
  reveal_phone_number : bool
}.

(** [response.matches]: missing ([undefined] or [null]); an array, whose
    entries are [null] ([None]) or anything else, read as a match; or a
    value that is not an array. *)
Inductive Matches : Type :=
| NoMatches
| MatchesArray (entries : list (option Match.t))
| NotAnArray.

(** The response body: [null], or any other value, given by what
    [.matches] reads on it. *)
Inductive BulkResponse : Type :=
| NullBody
| Body (matches : Matches).

(** [response.matches]: the read throws a TypeError on [null]. *)
Definition matches (response : BulkResponse) : outcome Matches :=
  match response with
  | NullBody => Throw "Cannot read properties of null (reading 'matches')"%string
  | Body matches => Ret matches
  end.

Definition is_object {A} (entry : option A) : bool :=
  match entry with Some _ => true | None => false end.

(** The entries of an array that holds no [null]. *)
Definition objects {A} (entries : list (option A)) : list A :=
  flat_map (fun entry => match entry with Some m => [m] | None => [] end)
           entries.

(** [response.matches?.filter(m => m.person).length || 0]: the call of
    [filter] on what is not an array throws a TypeError, and so does the
    read of [person] on a [null] entry. *)
Definition successCount (ms : Matches) : outcome nat :=
  match ms with
  | NoMatches => Ret 0
  | MatchesArray entries =>
      if forallb is_object entries
      then Ret (length (filter (fun m => is_object (Match.person m))
                               (objects entries)))
      else Throw "Cannot read properties of null (reading 'person')"%string
  | NotAnArray => Throw "response.matches?.filter is not a function"%string
  end.

(** The state the module works on: the world behind [apiClient], and the
    list of the [apiClient.post] calls made so far. *)
Definition St (World : Type) : Type := (World * list (string * BulkParams))%type.

Section Module.
Context {World : Type}.

(** [apiClient.post(endpoint, data)]: resolves with the response body or
    rejects with an error. *)
Variable post : string -> BulkParams -> World -> World * outcome BulkResponse.

Definition apiClient_post (endpoint : string) (params : BulkParams)
  : M (St World) BulkResponse :=
  fun st =>
    let '(w, log) := st in
    let '(w', r) := post endpoint params w in
    ((w', log ++ [(endpoint, params)]), r).

Definition enrichPeopleBulk (peopleData : list PersonQuery.t)
           (revealPersonalEmails revealPhoneNumber : bool)
  : M (St World) (ApiResult (list Match.t)) :=
  try_catch
    ((if 10 <? length peopleData
      then throw "Bulk enrichment supports maximum 10 people per request"%string
      else ret tt) ;;
     let params :=
       {| details := peopleData;
          reveal_personal_emails := revealPersonalEmails;
          reveal_phone_number := revealPhoneNumber |} in
     response <- apiClient_post "/people/bulk_match" params ;;
     matches <- lift (matches response) ;;
     _ <- lift (successCount matches) ;;
     ret {| success := true;
            error := None;
            data := match matches with
                    | MatchesArray entries => objects entries
                    | _ => []
                    end |})
    (fun message =>
       ret {| success := false; error := Some message; data := [] |}).

End Module.

End Enrichment.

(** ** [workflows/lead-workflow.js]: [generateLeads] *)
Module Workflow.
Import Async.
Local Open Scope async_scope.

(** The argument of [contacts.createContact]. *)
Module ContactData.
Record t : Type := mk {
  first_name : jsstr;
  last_name : jsstr;
  email : jsstr;
  title : jsstr;
  organization_name : jsstr;
  website_url : jsstr;
  label_names : option (list string)
}.
End ContactData.

(** [response.contact] of [POST /contacts]. *)
Record Contact : Type := mkContact { id : jsstr }.

Record Config (Filters : Type) : Type := mkConfig {
  searchFilters : Filters;
  enrichData : bool;
  addToLists : option (list string);
  sequenceId : jsstr;
  emailAccountId : jsstr;
  maxResults : option nat
}.
Arguments mkConfig {Filters}.
Arguments searchFilters {Filters}.
Arguments enrichData {Filters}.
Arguments addToLists {Filters}.
Arguments sequenceId {Filters}.
Arguments emailAccountId {Filters}.
Arguments maxResults {Filters}.

(** The modules [search], [enrichment], [contacts] and [outreach], each a
    function of the world it talks to.  A call either returns a
    [{success, data, error}] object or throws. *)
Record Collaborators (Filters World : Type) : Type := mkCollaborators {
  searchPeople :
    Filters * nat -> World -> World * awaited (ApiResult (list Lead.t));
  enrichPeopleBulk :
    list PersonQuery.t -> World -> World * awaited (ApiResult (list Match.t));
  createContact :
    ContactData.t -> World -> World * awaited (ApiResult (option Contact));
  addContactsToSequence :
    jsstr -> list jsstr -> jsstr -> World -> World * awaited (ApiResult unit)
}.
Arguments searchPeople {Filters World}.
Arguments enrichPeopleBulk {Filters World}.
Arguments createContact {Filters World}.
Arguments addContactsToSequence {Filters World}.

(** An entry of [results.errors]: [{lead, error}] or [{step, error}]. *)
Inductive ErrorEntry : Type :=
| LeadError (lead : string) (error : jsstr)
| StepError (step : string) (error : jsstr).

(** The [results] object. *)
Record Results : Type := mkResults {
  searched : nat;
  enriched : nat;
  created : nat;
  addedToSequence : nat;
  errors : list ErrorEntry
}.

(** What [generateLeads] resolves with: [results], or
    [{...results, error: error.message}]; [top_error] is [None] for an
    object without the key [error], and [Some message] for one that has it,
    where [message] may itself be [undefined]. *)
Record WorkflowResult : Type := mkWorkflowResult {
  counters : Results;
  top_error : option jsstr
}.

(** The calls made to the collaborators, with what came back. *)
Inductive Call (Filters : Type) : Type :=
| CallSearch (params : Filters * nat) (r : awaited (ApiResult (list Lead.t)))
| CallEnrich (batchData : list PersonQuery.t)
             (r : awaited (ApiResult (list Match.t)))
| CallCreate (contactData : ContactData.t)
             (r : awaited (ApiResult (option Contact)))
| CallSequence (sequenceId : jsstr) (contactIds : list jsstr)
               (emailAccountId : jsstr) (r : awaited (ApiResult unit)).
Arguments CallSearch {Filters}.
Arguments CallEnrich {Filters}.
Arguments CallCreate {Filters}.
Arguments CallSequence {Filters}.

Record St (Filters World : Type) : Type := mkSt {
  world : World;
  results : Results;
  calls : list (Call Filters)
}.
Arguments mkSt {Filters World}.
Arguments world {Filters World}.
Arguments results {Filters World}.
Arguments calls {Filters World}.

(** [batch.map(lead => ({first_name: ..., organization_name:
    lead.organization?.name, ...}))] *)
Definition batchData_of (lead : Lead.t) : PersonQuery.t :=
  {| PersonQuery.first_name := Lead.first_name lead;
     PersonQuery.last_name := Lead.last_name lead;
     PersonQuery.email := Lead.email lead;
     PersonQuery.organization_name :=
       match Lead.organization lead with
       | Some o => Organization.name o
       | None => None
       end;
     PersonQuery.linkedin_url := Lead.linkedin_url lead |}.

(** [enrichResult.data.map(m => m.person).filter(Boolean)] *)
Definition persons (ms : list Match.t) : list Lead.t :=
  flat_map (fun m => match Match.person m with
                     | Some p => [p]
                     | None => []
                     end) ms.

(** [`${lead.first_name} ${lead.last_name}`] *)
Definition display_name (first_name last_name : jsstr) : string :=
  (show first_name ++ " " ++ show last_name)%string.

(** [createResult.success && createResult.data] *)
Definition acknowledged (createResult : ApiResult (option Contact))
  : option Contact :=
  if success createResult then data createResult else None.

Section Run.
Context {Filters World : Type}.
Variable C : Collaborators Filters World.

Definition State : Type := St Filters World.

(** An awaited call to a collaborator. *)
Definition call {A} (f : World -> World * awaited A)
           (entry : awaited A -> Call Filters) : M_of thrown State A :=
  fun st =>
    let '(w, r) := f (world st) in
    ({| world := w; results := results st; calls := calls st ++ [entry r] |}, r).

Definition update (f : Results -> Results) : M_of thrown State unit :=
  modify (fun st =>
            {| world := world st; results := f (results st); calls := calls st |}).

Definition contactData_of (config : Config Filters) (lead : Lead.t)
  : ContactData.t :=
  {| ContactData.first_name := Lead.first_name lead;
     ContactData.last_name := Lead.last_name lead;
     ContactData.email := Lead.email lead;
     ContactData.title := Lead.title lead;
     ContactData.organization_name :=
       or_else (match Lead.organization lead with
                | Some o => Organization.name o
                | None => None
                end)
               (Lead.organization_name lead);
     ContactData.website_url :=
       match Lead.organization lead with
       | Some o => Organization.website_url o
       | None => None
       end;
     ContactData.label_names := addToLists config |}.

(** Step 2, the loop [for (let i = 0; i < leadsToProcess.length; i += 10)]
    from index [i] on; [fuel] bounds the number of iterations. *)
Fixpoint enrichLoop (fuel : nat) (leadsToProcess : list Lead.t) (i : nat)
         (enrichedLeads : list Lead.t) : M_of thrown State (list Lead.t) :=
  match fuel with
  | 0 => ret enrichedLeads
  | S fuel' =>
      if i <? length leadsToProcess then
        let batch := slice leadsToProcess i (i + 10) in
        let batchData := map batchData_of batch in
        enrichResult <- call (enrichPeopleBulk C batchData) (CallEnrich batchData) ;;
        let enrichedLeads' :=
          if success enrichResult
          then enrichedLeads ++ persons (data enrichResult)
          else enrichedLeads in
        enrichLoop fuel' leadsToProcess (i + 10) enrichedLeads'
      else ret enrichedLeads
  end.

(** Step 3, the loop [for (const lead of leadsToProcess)]. *)
Fixpoint createLoop (config : Config Filters) (leadsToProcess : list Lead.t)
         (createdContacts : list Contact) : M_of thrown State (list Contact) :=
  match leadsToProcess with
  | [] => ret createdContacts
  | lead :: rest =>
      let contactData := contactData_of config lead in
      createResult <- call (createContact C contactData) (CallCreate contactData) ;;
      match acknowledged createResult with
      | Some contact =>
          update (fun r =>
                    {| searched := searched r; enriched := enriched r;
                       created := created r + 1;
                       addedToSequence := addedToSequence r;
                       errors := errors r |}) ;;
          createLoop config rest (createdContacts ++ [contact])
      | None =>
          update (fun r =>
                    {| searched := searched r; enriched := enriched r;
                       created := created r;
                       addedToSequence := addedToSequence r;
                       errors := errors r ++
                         [LeadError (display_name (Lead.first_name lead)
                                                  (Lead.last_name lead))
                                    (error createResult)] |}) ;;
          createLoop config rest createdContacts
      end
  end.

(** [Math.min(config.maxResults || 25, 100)] *)
Definition per_page (config : Config Filters) : nat :=
  Nat.min (match maxResults config with
           | None | Some 0 => 25
           | Some n => n
           end) 100.

(** The same expression on any number, [config.maxResults] being used as
    it comes: [None] is a missing key, and 0 is falsy. *)
Definition page_size (maxResults : option Q) : Q :=
  let wanted := match maxResults with
                | Some q => if Qeq_bool q 0 then 25%Q else q
                | None => 25%Q
                end in
  if Qle_bool wanted 100 then wanted else 100%Q.

(** The [try] block. *)
Definition body (config : Config Filters) : M_of thrown State WorkflowResult :=
  let params := (searchFilters config, per_page config) in
  searchResult <- call (searchPeople C params) (CallSearch params) ;;
  if negb (success searchResult) || (length (data searchResult) =? 0) then
    r <- gets results ;;
    ret {| counters := r; top_error := None |}
  else
    update (fun r =>
              {| searched := length (data searchResult); enriched := enriched r;
                 created := created r; addedToSequence := addedToSequence r;
                 errors := errors r |}) ;;
    leadsToProcess <-
      (if enrichData config then
         enrichedLeads <-
           enrichLoop (length (data searchResult)) (data searchResult) 0 [] ;;
         update (fun r =>
                   {| searched := searched r; enriched := length enrichedLeads;
                      created := created r;
                      addedToSequence := addedToSequence r;
                      errors := errors r |}) ;;
         ret enrichedLeads
       else ret (data searchResult)) ;;
    createdContacts <- createLoop config leadsToProcess [] ;;
    (if truthy (sequenceId config) && truthy (emailAccountId config)
        && (0 <? length createdContacts) then
       let contactIds := map id createdContacts in
       sequenceResult <-
         call (addContactsToSequence C (sequenceId config) contactIds
                                     (emailAccountId config))
              (CallSequence (sequenceId config) contactIds
                            (emailAccountId config)) ;;
       if success sequenceResult then
         update (fun r =>
                   {| searched := searched r; enriched := enriched r;
                      created := created r;
                      addedToSequence := length contactIds;
                      errors := errors r |})
       else
         update (fun r =>
                   {| searched := searched r; enriched := enriched r;
                      created := created r;
                      addedToSequence := addedToSequence r;
                      errors := errors r ++
                        [StepError "sequence" (error sequenceResult)] |})
     else ret tt) ;;
    r <- gets results ;;
    ret {| counters := r; top_error := None |}.

Definition initial (w : World) : State :=
  {| world := w;
     results := {| searched := 0; enriched := 0; created := 0;
                   addedToSequence := 0; errors := [] |};
     calls := [] |}.

(** The [catch] block, as far as the thrown value goes:
    [logger.error('Lead generation workflow failed', error)], then the read
    of [error.message]. *)
Definition caught (error : thrown) : outcome jsstr :=
  match Logger.error error with
  | Ret _ => message_of error
  | Throw type_error => Throw type_error
  end.

(** The [catch] block:
    [logger.error(..., error); return {...results, error: error.message}]. *)
Definition handler (error : thrown) : M_of thrown State WorkflowResult :=
  match caught error with
  | Ret message =>
      r <- gets results ;;
      ret {| counters := r; top_error := Some message |}
  | Throw type_error => throw (Error type_error)
  end.

(** [async generateLeads(config)] on a [config] object: the [try] block and
    its [catch].  The statement before the [try] reads [config.maxResults]
    and logs it. *)
Definition generateLeads (config : Config Filters) (w : World)
  : State * awaited WorkflowResult :=
  try_catch (body config) handler (initial w).


End Run.

(** *** Observations on the calls of one run *)

Section Observations.
Context {Filters : Type}.
Implicit Types (log : list (Call Filters)).

Definition enrich_calls log
  : list (list PersonQuery.t * awaited (ApiResult (list Match.t))) :=
  flat_map (fun c => match c with
                     | CallEnrich b r => [(b, r)]
                     | _ => []
                     end) log.

Definition create_calls log
  : list (ContactData.t * awaited (ApiResult (option Contact))) :=
  flat_map (fun c => match c with
                     | CallCreate d r => [(d, r)]
                     | _ => []
                     end) log.

Definition sequence_calls log : list (awaited (ApiResult unit)) :=
  flat_map (fun c => match c with
                     | CallSequence _ _ _ r => [r]
                     | _ => []
                     end) log.

(** [searchResult.data] of the search that opens the log, when it
    returned a success. *)
Definition found_leads log : list Lead.t :=
  match log with
  | CallSearch _ (Ret searchResult) :: _ =>
      if success searchResult then data searchResult else []
  | _ => []
  end.

(** The persons one enrichment call adds to [enrichedLeads]: those of a
    response with [success: true], none otherwise. *)
Definition contribution (r : awaited (ApiResult (list Match.t))) : list Lead.t :=
  match r with
  | Ret res => if success res then persons (data res) else []
  | Throw _ => []
  end.

(** A creation call that was acknowledged with a contact. *)
Definition is_created (r : awaited (ApiResult (option Contact))) : bool :=
  match r with
  | Ret res => match acknowledged res with Some _ => true | None => false end
  | Throw _ => false
  end.

(** A creation call that returned without a contact. *)
Definition is_creation_failure (r : awaited (ApiResult (option Contact))) : bool :=
  match r with
  | Ret res => match acknowledged res with Some _ => false | None => true end
  | Throw _ => false
  end.

Definition is_failure {A} (r : awaited (ApiResult A)) : bool :=
  match r with
  | Ret res => negb (success res)
  | Throw _ => false
  end.

Definition is_lead_error (e : ErrorEntry) : bool :=
  match e with LeadError _ _ => true | StepError _ _ => false end.

Definition is_sequence_error (e : ErrorEntry) : bool :=
  match e with
  | StepError step _ => String.eqb step "sequence"
  | LeadError _ _ => false
  end.

(** The error entry a creation call gives rise to. *)
Definition creation_error (d : ContactData.t)
           (r : awaited (ApiResult (option Contact))) : list ErrorEntry :=
  match r with
  | Ret res =>
      match acknowledged res with
      | Some _ => []
      | None => [LeadError (display_name (ContactData.first_name d)
                                         (ContactData.last_name d))
                           (error res)]
      end
  | Throw _ => []
  end.

(** The error entries a call gives rise to. *)
Definition errors_of_call (c : Call Filters) : list ErrorEntry :=
  match c with
  | CallCreate d r => creation_error d r
  | CallSequence _ _ _ (Ret res) =>
      if success res then [] else [StepError "sequence" (error res)]
  | _ => []
  end.

Definition errors_of_calls log : list ErrorEntry := flat_map errors_of_call log.

Definition is_returned {E A} (r : outcome_of E A) : bool :=
  match r with Ret _ => true | Throw _ => false end.

(** What a call threw, if it did. *)
Definition thrown_by (c : Call Filters) : option thrown :=
  match c with
  | CallSearch _ (Throw error) => Some error
  | CallEnrich _ (Throw error) => Some error
  | CallCreate _ (Throw error) => Some error
  | CallSequence _ _ _ (Throw error) => Some error
  | _ => None
  end.


(** Counting the entries of a list that pass a test. *)
Definition count {A} (p : A -> bool) (l : list A) : nat := length (filter p l).

End Observations.

(** *** The paths of one run

    A run is described by what came back from the collaborators: [evsE]
    pairs every enrichment call with its outcome, [evsC] every creation
    call with its outcome. *)
Abbreviation EnrichEvent :=
  (list PersonQuery.t * awaited (ApiResult (list Match.t)))%type.
Abbreviation CreateEvent :=
  (ContactData.t * awaited (ApiResult (option Contact)))%type.

(** The enrichment responses that came back with [success: true]. *)
Definition successful_responses (evsE : list EnrichEvent)
  : list (ApiResult (list Match.t)) :=
  flat_map (fun e => match snd e with
                     | Ret res => if success res then [res] else []
                     | Throw _ => []
                     end) evsE.

(** No enrichment answers with more persons than it was asked about. *)
Definition answers_within_batch (evsE : list EnrichEvent) : Prop :=
  Forall (fun e => length (contribution (snd e)) <= length (fst e)) evsE.

Section Paths.
Context {Filters : Type}.
Variable config : Config Filters.


Definition enrich_entry (e : EnrichEvent) : Call Filters :=
  CallEnrich (fst e) (snd e).
Definition create_entry (e : CreateEvent) : Call Filters :=
  CallCreate (fst e) (snd e).

Definition all_returned {E A B} (evs : list (A * outcome_of E B)) : bool :=
  forallb (fun e => is_returned (snd e)) evs.

(** [enrichedLeads] after the enrichment calls [evsE]. *)
Definition enriched_leads (evsE : list EnrichEvent) : list Lead.t :=
  flat_map (fun e => contribution (snd e)) evsE.

(** [createdContacts] after the creation calls [evsC]. *)
Definition created_contacts (evsC : list CreateEvent) : list Contact :=
  flat_map (fun e => match snd e with
                     | Ret res => match acknowledged res with
                                  | Some c => [c]
                                  | None => []
                                  end
                     | Throw _ => []
                     end) evsC.

Definition n_created (evsC : list CreateEvent) : nat :=
  count (fun e => is_created (snd e)) evsC.

Definition creation_errors (evsC : list CreateEvent) : list ErrorEntry :=
  flat_map (fun e => creation_error (fst e) (snd e)) evsC.

(** The [results] object after the creation calls [evsC]. *)
Definition after_creates (r : Results) (evsC : list CreateEvent) : Results :=
  {| searched := searched r; enriched := enriched r;
     created := created r + n_created evsC;
     addedToSequence := addedToSequence r;
     errors := errors r ++ creation_errors evsC |}.

(** Step 2: skipped, or one call per batch, all of which returned. *)
Inductive Enriched (leads : list Lead.t)
  : list EnrichEvent -> list Lead.t -> nat -> Prop :=
| enrichment_skipped :
    enrichData config = false ->
    Enriched leads [] leads 0
| enrichment_done evsE :
    enrichData config = true ->
    map fst evsE = map (map batchData_of) (Batch.batches leads) ->
    all_returned evsE = true ->
    Enriched leads evsE (enriched_leads evsE) (length (enriched_leads evsE)).

Definition wants_sequence (createdContacts : list Contact) : bool :=
  truthy (sequenceId config) && truthy (emailAccountId config)
  && (0 <? length createdContacts).

(** Step 4: the calls it makes, the value it leaves in
    [addedToSequence], the error entries it appends, and the message of
    the error it throws, if any. *)
Inductive Enrolled (createdContacts : list Contact)
  : list (Call Filters) -> nat -> list ErrorEntry -> option jsstr -> Prop :=
| enrollment_skipped :
    wants_sequence createdContacts = false ->
    Enrolled createdContacts [] 0 [] None
| enrollment_threw message :
    wants_sequence createdContacts = true ->
    Enrolled createdContacts
             [CallSequence (sequenceId config) (map id createdContacts)
                           (emailAccountId config) (Throw (Value message))]
             0 [] (Some message)
| enrollment_succeeded res :
    wants_sequence createdContacts = true ->
    success res = true ->
    Enrolled createdContacts
             [CallSequence (sequenceId config) (map id createdContacts)
                           (emailAccountId config) (Ret res)]
             (length (map id createdContacts)) [] None
| enrollment_failed res :
    wants_sequence createdContacts = true ->
    success res = false ->
    Enrolled createdContacts
             [CallSequence (sequenceId config) (map id createdContacts)
                           (emailAccountId config) (Ret res)]
             0 [StepError "sequence" (error res)] None.

Definition zero : Results :=
  {| searched := 0; enriched := 0; created := 0; addedToSequence := 0;
     errors := [] |}.

Definition search_params (per_page : nat) : Filters * nat :=
  (searchFilters config, per_page).

(** The calls of a run of [generateLeads] that rejects: the last one threw
    a value that the [catch] block does not get through, and the run
    rejects with the TypeError that the block throws on it. *)
Definition Rejected (log : list (Call Filters)) (type_error : string) : Prop :=
  exists log' c error,
    log = log' ++ [c]
    /\ thrown_by c = Some error
    /\ caught error = Throw type_error.

(** The calls of a run of [generateLeads] that resolves, and the object it
    resolves with. *)
Inductive Run (per_page : nat) : list (Call Filters) -> WorkflowResult -> Prop :=
| run_search_threw message :
    Run per_page
        [CallSearch (search_params per_page) (Throw (Value message))]
        {| counters := zero; top_error := Some message |}
| run_no_leads sr :
    negb (success sr) || (length (data sr) =? 0) = true ->
    Run per_page
        [CallSearch (search_params per_page) (Ret sr)]
        {| counters := zero; top_error := None |}
| run_enrich_threw sr evsE batchData message :
    negb (success sr) || (length (data sr) =? 0) = false ->
    enrichData config = true ->
    all_returned evsE = true ->
    Run per_page
        (CallSearch (search_params per_page) (Ret sr)
         :: map enrich_entry (evsE ++ [(batchData, Throw (Value message))]))
        {| counters := {| searched := length (data sr); enriched := 0;
                          created := 0; addedToSequence := 0; errors := [] |};
           top_error := Some message |}
| run_create_threw sr evsE leadsToProcess n evsC contactData message :
    negb (success sr) || (length (data sr) =? 0) = false ->
    Enriched (data sr) evsE leadsToProcess n ->
    all_returned evsC = true ->
    map fst (evsC ++ [(contactData, Throw (Value message))])
    = map (contactData_of config) (firstn (S (length evsC)) leadsToProcess) ->
    length evsC < length leadsToProcess ->
    Run per_page
        (CallSearch (search_params per_page) (Ret sr)
         :: map enrich_entry evsE
         ++ map create_entry (evsC ++ [(contactData, Throw (Value message))]))
        {| counters := {| searched := length (data sr); enriched := n;
                          created := n_created evsC; addedToSequence := 0;
                          errors := creation_errors evsC |};
           top_error := Some message |}
| run_created sr evsE leadsToProcess n evsC seqs added seq_errors top :
    negb (success sr) || (length (data sr) =? 0) = false ->
    Enriched (data sr) evsE leadsToProcess n ->
    all_returned evsC = true ->
    map fst evsC = map (contactData_of config) leadsToProcess ->
    Enrolled (created_contacts evsC) seqs added seq_errors top ->
    Run per_page
        (CallSearch (search_params per_page) (Ret sr)
         :: map enrich_entry evsE ++ map create_entry evsC ++ seqs)
        {| counters := {| searched := length (data sr); enriched := n;
                          created := n_created evsC; addedToSequence := added;
                          errors := creation_errors evsC ++ seq_errors |};
           top_error := top |}.

End Paths.

End Workflow.

(** *** Collaborators to run [generateLeads] and [enrichPeopleBulk] on *)
Module WorkflowScenario.
Import Workflow.

Definition person (first_name last_name : string) : Lead.t :=
  {| Lead.first_name := Some first_name;
     Lead.last_name := Some last_name;
     Lead.email := None;
     Lead.title := Some "CTO"%string;
     Lead.organization := None;
     Lead.organization_name := Some "Acme"%string;
     Lead.linkedin_url := None |}.

Definition ada : Lead.t := person "Ada" "Lovelace".
Definition alan : Lead.t := person "Alan" "Turing".
Definition grace : Lead.t := person "Grace" "Hopper".

Definition matched (p : Lead.t) : Match.t := {| Match.person := Some p |}.

(** The world counts the [createContact] calls made so far.  The search
    finds two people; the bulk enrichment answers every request with three
    matched persons; the first creation is acknowledged and the next one
    throws; the enrollment is refused. *)
Definition generous : Collaborators unit nat :=
  {| searchPeople := fun _ w =>
       (w, Ret {| success := true; error := None; data := [ada; alan] |});
     enrichPeopleBulk := fun _ w =>
       (w, Ret {| success := true; error := None;
                  data := [matched ada; matched alan; matched grace] |});
     createContact := fun _ w =>
       (S w, if w =? 0
             then Ret {| success := true; error := None;
                         data := Some {| id := Some "c1"%string |} |}
             else Throw (Error "socket hang up"));
     addContactsToSequence := fun _ _ _ w =>
       (w, Ret {| success := false; error := Some "Sequence not found"%string;
                  data := tt |}) |}.

(** The search finds two people; the bulk enrichment fails with a
    structured result; hence nobody is left to create. *)
Definition enrichment_down : Collaborators unit nat :=
  {| searchPeople := searchPeople generous;
     enrichPeopleBulk := fun _ w =>
       (w, Ret {| success := false; error := Some "Request failed with status code 500"%string;
                  data := [] |});
     createContact := createContact generous;
     addContactsToSequence := addContactsToSequence generous |}.

(** Every creation is acknowledged; the enrollment is refused. *)
Definition sequence_refused : Collaborators unit nat :=
  {| searchPeople := searchPeople generous;
     enrichPeopleBulk := enrichPeopleBulk generous;
     createContact := fun _ w =>
       (S w, Ret {| success := true; error := None;
                    data := Some {| id := Some "c"%string |} |});
     addContactsToSequence := addContactsToSequence generous |}.

Definition with_enrichment : Config unit :=
  {| searchFilters := tt; enrichData := true; addToLists := Some ["Tech Leads"%string];
     sequenceId := None; emailAccountId := None; maxResults := Some 25 |}.

Definition with_sequence : Config unit :=
  {| searchFilters := tt; enrichData := false; addToLists := None;
     sequenceId := Some "seq-1"%string; emailAccountId := Some "mailbox-1"%string;
     maxResults := None |}.

Definition generous_run := generateLeads generous with_enrichment 0.
Definition over_enriched_run := generateLeads sequence_refused with_enrichment 0.

(** What these runs resolve with. *)
Definition generous_result : WorkflowResult :=
  {| counters := {| searched := 2; enriched := 3; created := 1;
                    addedToSequence := 0; errors := [] |};
     top_error := Some (Some "socket hang up"%string) |}.

Definition over_enriched_result : WorkflowResult :=
  {| counters := {| searched := 2; enriched := 3; created := 3;
                    addedToSequence := 0; errors := [] |};
     top_error := None |}.

Definition enrichment_down_result : WorkflowResult :=
  {| counters := {| searched := 2; enriched := 0; created := 0;
                    addedToSequence := 0; errors := [] |};
     top_error := None |}.

Definition sequence_refused_result : WorkflowResult :=
  {| counters := {| searched := 2; enriched := 0; created := 2;
                    addedToSequence := 0;
                    errors := [StepError "sequence"
                                         (Some "Sequence not found"%string)] |};
     top_error := None |}.
(** The search is refused with a structured failure. *)
Definition search_down : Collaborators unit nat :=
  {| searchPeople := fun _ w =>
       (w, Ret {| success := false;
                  error := Some "Request failed with status code 401"%string;
                  data := [] |});
     enrichPeopleBulk := enrichPeopleBulk generous;
     createContact := createContact generous;
     addContactsToSequence := addContactsToSequence generous |}.

Definition search_down_run := generateLeads search_down with_sequence 0.



(** The search finds two people; the first creation is acknowledged and
    every other one is refused with a structured failure. *)
Definition second_creation_refused : Collaborators unit nat :=
  {| searchPeople := searchPeople generous;
     enrichPeopleBulk := enrichPeopleBulk generous;
     createContact := fun _ w =>
       (S w, if w =? 0
             then Ret {| success := true; error := None;
                         data := Some {| id := Some "c1"%string |} |}
             else Ret {| success := false;
                         error := Some "Request failed with status code 422"%string;
                         data := None |});
     addContactsToSequence := addContactsToSequence generous |}.

Definition without_enrichment : Config unit :=
  {| searchFilters := tt; enrichData := false; addToLists := None;
     sequenceId := None; emailAccountId := None; maxResults := None |}.

Definition second_creation_refused_run :=
  generateLeads second_creation_refused without_enrichment 0.

Definition second_creation_refused_result : WorkflowResult :=
  {| counters := {| searched := 2; enriched := 0; created := 1;
                    addedToSequence := 0;
                    errors := [LeadError "Alan Turing"
                                 (Some "Request failed with status code 422"%string)] |};
     top_error := None |}.

Definition enrichment_down_run := generateLeads enrichment_down with_enrichment 0.
Definition sequence_refused_run := generateLeads sequence_refused with_sequence 0.

(** Eleven records for one bulk request, and a transport that counts the
    requests it gets. *)
Definition query (n : nat) : PersonQuery.t :=
  {| PersonQuery.first_name := Some "Ada"%string;
     PersonQuery.last_name := Some "Lovelace"%string;
     PersonQuery.email := None;
     PersonQuery.organization_name := None;
     PersonQuery.linkedin_url := None |}.

Definition eleven : list PersonQuery.t := map query (seq 0 11).

Definition counting_post (endpoint : string) (params : Enrichment.BulkParams)
           (w : nat) : nat * outcome Enrichment.BulkResponse :=
  (S w, Ret (Enrichment.Body (Enrichment.MatchesArray []))).

(** A transport that answers one match and one [null]. *)
Definition null_entry_post (endpoint : string) (params : Enrichment.BulkParams)
           (w : nat) : nat * outcome Enrichment.BulkResponse :=
  (S w, Ret (Enrichment.Body
               (Enrichment.MatchesArray [Some (matched ada); None]))).

End WorkflowScenario.

(** ** More observations on the events of one operation *)
Module TransportTrace.
Import Transport.

(** The time slept in backoff, in milliseconds. *)
Fixpoint total_backoff {Data} (evs : list (Event Data)) : Z :=
  match evs with
  | [] => 0
  | EvBackoff delay :: evs' => delay + total_backoff evs'
  | _ :: evs' => total_backoff evs'
  end.

(** A physical call that failed with something else than a status in
    [400, 500): a 5xx, another status, or no response at all. *)
Definition is_retryable_failure {Data} (e : Event Data) : bool :=
  match e with
  | EvCall _ (inr error) => negb (is_client_error error)
  | _ => false
  end.

(** The same outside world, which in addition keeps the [config] objects
    handed to [axios], in order. *)
Definition recording {Payload Data World} (env : Env Payload Data World)
  : Env Payload Data (World * list (ReqConfig Payload)) :=
  {| now := fun w => now env (fst w);
     setTimeout := fun delay w => (setTimeout env delay (fst w), snd w);
     axios := fun config w =>
                let '(w', r) := axios env config (fst w) in
                ((w', snd w ++ [config]), r);
     truthy_payload := truthy_payload env |}.

(** The [config] object [request] builds for a payload [sent]: a truthy
    value, or none. *)
Definition config_of {Payload} (c : APIClient) (method endpoint : string)
           (sent : option Payload) : ReqConfig Payload :=
  {| method := method;
     url := baseURL c ++ endpoint;
     x_api_key := apiKey c;
     params := if String.eqb method "GET" then sent else None;
     Transport.data := if String.eqb method "GET" then None else sent |}.

End TransportTrace.

(** ** The modules behind the workflow *)

(** What travels over [apiClient.post]. *)
Module Api.

(** The argument of [search.searchPeople] and the body it posts: the keys
    [page] and [per_page], either of which may be missing, and the search
    criteria, which are passed on as they are. *)
Record SearchFilters (Criteria : Type) : Type := mkSearchFilters {
  page : option nat;
  per_page : option nat;
  criteria : Criteria
}.
Arguments mkSearchFilters {Criteria}.
Arguments page {Criteria}.
Arguments per_page {Criteria}.
Arguments criteria {Criteria}.

(** The body of [POST /emailer_campaigns/:id/add_contact_ids]. *)
Record SequenceParams : Type := mkSequenceParams {
  emailer_campaign_id : jsstr;
  contact_ids : list jsstr;
  send_email_from_email_account_id : jsstr;
  sequence_no_email : bool;
  sequence_unverified_email : bool;
  sequence_job_change : bool;
  sequence_active_in_other_campaigns : bool;
  sequence_finished_in_other_campaigns : bool;
  user_id : jsstr
}.

(** The bodies posted by the modules. *)
Inductive Body (Criteria : Type) : Type :=
| SearchBody (params : SearchFilters Criteria)
| BulkBody (params : Enrichment.BulkParams)
| DomainsBody (domains : list string)
| ContactBody (contactData : Workflow.ContactData.t)
| SequenceBody (params : SequenceParams).
Arguments SearchBody {Criteria}.
Arguments BulkBody {Criteria}.
Arguments DomainsBody {Criteria}.
Arguments ContactBody {Criteria}.
Arguments SequenceBody {Criteria}.

(** The response body, a JSON object that follows the schema of the API;
    the keys the modules read: [people] and [matches] are missing or arrays
    of objects, [organizations] is missing or an array of objects and
    [null]s, [contact] is missing or an object. *)
Record Response : Type := mkResponse {
  people : option (list Lead.t);
  matches : option (list Match.t);
  organizations : option (list (option Organization.t));
  contact : option Workflow.Contact
}.

(** [apiClient.post(endpoint, data)]. *)
Definition Post (Criteria World : Type) : Type :=
  string -> Body Criteria -> World -> World * outcome Response.

(** The same transport, which in addition keeps the requests it is handed,
    in order. *)
Definition logged {Criteria World} (post : Post Criteria World)
  : Post Criteria (World * list (string * Body Criteria)) :=
  fun endpoint body w =>
    let '(w', r) := post endpoint body (fst w) in
    ((w', snd w ++ [(endpoint, body)]), r).

(** [v || d] on a number that may be missing. *)
Definition num_or (v : option nat) (d : nat) : nat :=
  match v with
  | None | Some 0 => d
  | Some n => n
  end.

(** [v || false] on a flag that may be missing. *)
Definition flag (v : option bool) : bool :=
  match v with
  | Some b => b
  | None => false
  end.

End Api.

(** ** [modules/search.js]: [searchPeople] *)
Module Search.
Import Async Api.
Local Open Scope async_scope.

Section Module.
Context {Criteria World : Type}.
Variable post : Post Criteria World.

(** [{page: filters.page || 1, per_page: filters.per_page || 10,
      ...filters}]: the spread comes last and overwrites the keys that
    [filters] has. *)
Definition search_params (filters : SearchFilters Criteria)
  : SearchFilters Criteria :=
  let page0 := num_or (page filters) 1 in
  let per_page0 := num_or (per_page filters) 10 in
  {| page := Some (match page filters with
                   | Some n => n
                   | None => page0
                   end);
     per_page := Some (match per_page filters with
                       | Some n => n
                       | None => per_page0
                       end);
     criteria := criteria filters |}.

Definition searchPeople (filters : SearchFilters Criteria)
  : M World (ApiResult (list Lead.t)) :=
  try_catch
    (response <- post "/mixed_people/search"%string (SearchBody (search_params filters)) ;;
     ret {| success := true;
            error := None;
            data := match people response with
                    | Some l => l
                    | None => []
                    end |})
    (fun message =>
       ret {| success := false; error := Some message; data := [] |}).

End Module.

End Search.

(** ** [modules/contacts.js]: [createContact] *)
Module Contacts.
Import Async Api.
Local Open Scope async_scope.

Section Module.
Context {Criteria World : Type}.
Variable post : Post Criteria World.

Definition createContact (contactData : Workflow.ContactData.t)
  : M World (ApiResult (option Workflow.Contact)) :=
  try_catch
    (response <- post "/contacts"%string (ContactBody contactData) ;;
     ret {| success := true; error := None; data := contact response |})
    (fun message =>
       ret {| success := false; error := Some message; data := None |}).

End Module.

End Contacts.

(** ** [modules/outreach.js]: [addContactsToSequence] *)
Module Outreach.
Import Async Api.
Local Open Scope async_scope.

(** The [options] argument. *)
Record SequenceOptions : Type := mkSequenceOptions {
  allowNoEmail : option bool;
  allowUnverifiedEmail : option bool;
  allowJobChange : option bool;
  allowActiveInOther : option bool;
  allowFinishedInOther : option bool;
  userId : jsstr
}.

(** [options = {}] *)
Definition no_options : SequenceOptions :=
  {| allowNoEmail := None; allowUnverifiedEmail := None; allowJobChange := None;
     allowActiveInOther := None; allowFinishedInOther := None; userId := None |}.

Definition sequence_params (sequenceId : jsstr) (contactIds : list jsstr)
           (emailAccountId : jsstr) (options : SequenceOptions)
  : SequenceParams :=
  {| emailer_campaign_id := sequenceId;
     contact_ids := contactIds;
     send_email_from_email_account_id := emailAccountId;
     sequence_no_email := flag (allowNoEmail options);
     sequence_unverified_email := flag (allowUnverifiedEmail options);
     sequence_job_change := flag (allowJobChange options);
     sequence_active_in_other_campaigns := flag (allowActiveInOther options);
     sequence_finished_in_other_campaigns := flag (allowFinishedInOther options);
     user_id := if truthy (userId options) then userId options else None |}.

(** [`/emailer_campaigns/${sequenceId}/add_contact_ids`] *)
Definition sequence_endpoint (sequenceId : jsstr) : string :=
  ("/emailer_campaigns/" ++ show sequenceId ++ "/add_contact_ids")%string.

Section Module.
Context {Criteria World : Type}.
Variable post : Post Criteria World.

Definition addContactsToSequence (sequenceId : jsstr) (contactIds : list jsstr)
           (emailAccountId : jsstr) (options : SequenceOptions)
  : M World (ApiResult (option Response)) :=
  try_catch
    (response <- post (sequence_endpoint sequenceId)
                      (SequenceBody (sequence_params sequenceId contactIds
                                                     emailAccountId options)) ;;
     ret {| success := true; error := None; data := Some response |})
    (fun message =>
       ret {| success := false; error := Some message; data := None |}).

End Module.

End Outreach.

(** ** [modules/enrichment.js]: [enrichOrganizationsBulk] *)
Module OrganizationEnrichment.
Import Async Api.
Local Open Scope async_scope.

Section Module.
Context {Criteria World : Type}.
Variable post : Post Criteria World.

Definition enrichOrganizationsBulk (domains : list string)
  : M World (ApiResult (list (option Organization.t))) :=
  try_catch
    ((if 10 <? length domains
      then throw "Bulk enrichment supports maximum 10 organizations per request"%string
      else ret tt) ;;
     response <- post "/organizations/bulk_enrich"%string (DomainsBody domains) ;;
     ret {| success := true;
            error := None;
            data := match organizations response with
                    | Some os => os
                    | None => []
                    end |})
    (fun message =>
       ret {| success := false; error := Some message; data := [] |}).

End Module.

End OrganizationEnrichment.

(** ** The workflow on top of the modules *)
Module Stack.
Import Async Workflow Api.

Section Stack.
Context {Criteria World : Type}.
Variable post : Post Criteria World.

(** [apiClient.post] as [enrichment.enrichPeopleBulk] sees it. *)
Definition bulk_post (endpoint : string) (params : Enrichment.BulkParams)
           (w : World) : World * outcome Enrichment.BulkResponse :=
  let '(w', r) := post endpoint (BulkBody params) w in
  (w', match r with
       | Ret response =>
           Ret (Enrichment.Body
                  match matches response with
                  | Some ms => Enrichment.MatchesArray (map Some ms)
                  | None => Enrichment.NoMatches
                  end)
       | Throw message => Throw message
       end).

(** The four calls of [generateLeads], as it makes them:
    [search.searchPeople({...config.searchFilters, per_page})],
    [enrichment.enrichPeopleBulk(batchData)],
    [contacts.createContact(contactData)] and
    [outreach.addContactsToSequence(sequenceId, contactIds, emailAccountId)];
    [generateLeads] reads [success] and [error] of the last result only. *)
Definition modules : Collaborators (SearchFilters Criteria) World :=
  {| searchPeople := fun params w =>
       let '(w', r) :=
         Search.searchPeople post
           {| page := page (fst params);
              per_page := Some (snd params);
              criteria := criteria (fst params) |} w in
       (w', as_awaited r);
     enrichPeopleBulk := fun batchData w =>
       let '((w', _), r) :=
         Enrichment.enrichPeopleBulk bulk_post batchData false false (w, []) in
       (w', as_awaited r);
     createContact := fun contactData w =>
       let '(w', r) := Contacts.createContact post contactData w in
       (w', as_awaited r);
     addContactsToSequence := fun sequenceId contactIds emailAccountId w =>
       let '(w', r) :=
         Outreach.addContactsToSequence post sequenceId contactIds emailAccountId
                                        Outreach.no_options w in
       (w', match r with
            | Ret res => Ret {| success := success res; error := error res;
                                data := tt |}
            | Throw message => Throw (Error message)
            end) |}.

(** The request behind a call of the workflow. *)
Definition request_of (c : Call (SearchFilters Criteria))
  : string * Body Criteria :=
  match c with
  | CallSearch params _ =>
      ("/mixed_people/search"%string,
       SearchBody {| page := Some (match page (fst params) with
                                   | Some n => n
                                   | None => 1
                                   end);
                     per_page := Some (snd params);
                     criteria := criteria (fst params) |})
  | CallEnrich batchData _ =>
      ("/people/bulk_match"%string,
       BulkBody {| Enrichment.details := batchData;
                   Enrichment.reveal_personal_emails := false;
                   Enrichment.reveal_phone_number := false |})
  | CallCreate contactData _ => ("/contacts"%string, ContactBody contactData)
  | CallSequence sequenceId contactIds emailAccountId _ =>
      (Outreach.sequence_endpoint sequenceId,
       SequenceBody {| emailer_campaign_id := sequenceId;
                       contact_ids := contactIds;
                       send_email_from_email_account_id := emailAccountId;
                       sequence_no_email := false;
                       sequence_unverified_email := false;
                       sequence_job_change := false;
                       sequence_active_in_other_campaigns := false;
                       sequence_finished_in_other_campaigns := false;
                       user_id := None |})
  end.

(** A call that came back with a result object. *)
Definition returned (c : Call (SearchFilters Criteria)) : bool :=
  match c with
  | CallSearch _ r => is_returned r
  | CallEnrich _ r => is_returned r
  | CallCreate _ r => is_returned r
  | CallSequence _ _ _ r => is_returned r
  end.

End Stack.

End Stack.

(** ** [workflows/lead-workflow.js]: [findDecisionMakers] *)
Module QuickWorkflows.
Import Workflow Api.

(** The search criteria [findDecisionMakers] uses. *)
Record PeopleCriteria : Type := mkPeopleCriteria {
  person_titles : list string;
  person_seniorities : list string;
  person_locations : option (list string)
}.

Section Workflows.
Context {World : Type}.
Variable C : Collaborators (SearchFilters PeopleCriteria) World.

(** [findDecisionMakers(location = null, addToLists = ['Decision Makers'],
    maxResults = 25)]; an argument that is left out is [None]. *)
Definition findDecisionMakers (location : jsstr)
           (addToLists : option (list string)) (maxResults : option nat)
           (w : World) : St (SearchFilters PeopleCriteria) World
                         * awaited WorkflowResult :=
  generateLeads C
    {| searchFilters :=
         {| page := None;
            per_page := None;
            criteria :=
              {| person_titles := ["CEO"; "CTO"; "VP"; "Director"]%string;
                 person_seniorities := ["c_suite"; "vp"; "director"]%string;
                 person_locations :=
                   match location with
                   | Some l => if truthy location then Some [l] else None
                   | None => None
                   end |} |};
       enrichData := false;
       Workflow.addToLists :=
         Some (match addToLists with
               | Some lists => lists
               | None => ["Decision Makers"%string]
               end);
       sequenceId := None;
       emailAccountId := None;
       Workflow.maxResults :=
         Some (match maxResults with
               | Some n => n
               | None => 25
               end) |}
    w.

End Workflows.

End QuickWorkflows.

(** *** Transports to run the modules on *)
Module ModulesScenario.
Import Api Workflow WorkflowScenario QuickWorkflows.

(** The world counts the requests.  The people search finds two people,
    every contact is created with the id [c], and every other request fails
    with a server error. *)
Definition scripted_post {Criteria} : Post Criteria nat :=
  fun endpoint body w =>
    (S w,
     if String.eqb endpoint "/mixed_people/search"
     then Ret {| people := Some [ada; alan]; matches := None;
                 organizations := None; contact := None |}
     else if String.eqb endpoint "/contacts"
     then Ret {| people := None; matches := None; organizations := None;
                 contact := Some {| id := Some "c"%string |} |}
     else Throw "Request failed with status code 500"%string).

(** Every request is refused. *)
Definition refusing_post {Criteria} : Post Criteria nat :=
  fun endpoint body w =>
    (S w, Throw "Request failed with status code 401"%string).

Definition first_page : Config (SearchFilters unit) :=
  {| searchFilters := {| page := None; Api.per_page := None; criteria := tt |};
     enrichData := true; addToLists := None;
     sequenceId := Some "seq-1"%string;
     emailAccountId := Some "mailbox-1"%string;
     maxResults := Some 250 |}.

End ModulesScenario.

(** ** The workflow on top of the modules and of the client *)
Module FullStack.
Import Transport Api.

(** An operation that ended as its last physical call did: it returned
    the data of that call, or threw the error of that call. *)
Definition ended_as_last_call {Data} (evs : list (Event Data))
           (res : result Data) : Prop :=
  exists pre attempt,
    match res with
    | Returned d => evs = pre ++ [EvCall attempt (inl d)]
    | Thrown (Some error) => evs = pre ++ [EvCall attempt (inr error)]
    | Thrown None | OutOfFuel => False
    end.

Section Client.
Context {Criteria World : Type}.
Variable env : Env (Body Criteria) Response World.

(** The whole system: the outside world, the client, and the events of the
    operations made so far. *)
Definition System : Type :=
  ((World * APIClient) * list (Event Response))%type.

(** [apiClient.post(endpoint, data)] as the modules see it: it resolves
    with [response.data] or rejects with the error of the last attempt,
    whose [message] the modules read.  With three attempts allowed the loop
    body runs at least once, so that the last two cases do not arise. *)
Definition apiClient_post : Post Criteria System :=
  fun endpoint body sys =>
    let '(st', evs, res) := Transport.post env endpoint (Some body) (fst sys) in
    ((st', snd sys ++ evs),
     match res with
     | Returned response => Ret response
     | Thrown (Some error) => Throw (message error)
     | Thrown None => Throw "undefined"%string
     | OutOfFuel => Throw "undefined"%string
     end).

(** The same, which in addition keeps the value that each operation leaves
    in [lastRequestTime], most recent first. *)
Definition timed_post : Post Criteria (System * list Z) :=
  fun endpoint body sys =>
    let '(sys', r) := apiClient_post endpoint body (fst sys) in
    ((sys', lastRequestTime (snd (fst sys')) :: snd sys), r).

End Client.

End FullStack.

(** *** A server to run the whole system on *)
Module FullStackScenario.
Import Transport Api Workflow WorkflowScenario ModulesScenario.

(** The world: how many physical calls were answered so far, and the clock.
    The server answers every other physical call with a 503, and else as
    [scripted_post] does; a call takes 50 ms and a timer fires on time. *)
Definition flaky_server : Env (Body unit) Response (nat * Z) :=
  {| now := fun w => snd w;
     setTimeout := fun delay w => (fst w, snd w + Qceiling delay)%Z;
     axios := fun config w =>
       ((S (fst w), snd w + 50)%Z,
        if Nat.even (fst w)
        then inr {| status := Some 503%Z;
                    message := "Request failed with status code 503" |}
        else if String.eqb (url _ config) "https://api.apollo.io/v1/mixed_people/search"
        then inl {| people := Some [ada; alan]; matches := None;
                    organizations := None; contact := None |}
        else if String.eqb (url _ config) "https://api.apollo.io/v1/contacts"
        then inl {| people := None; matches := None; organizations := None;
                    contact := Some {| id := Some "c"%string |} |}
        else inr {| status := Some 404%Z;
                    message := "Request failed with status code 404" |});
     truthy_payload := fun _ => true |}.

End FullStackScenario.

(* ===================================================================== *)
(** * Part II: properties                                                  *)
(* ===================================================================== *)

Module BatchFacts.
Import Batch.

Lemma slice_length {A} (l : list A) i :
  i < length l -> length (slice l i (i + size)) <= size /\ 0 < length (slice l i (i + size)).
Proof.
  intros Hi. unfold slice.
  replace (i + size - i) with size by lia.
  rewrite length_firstn, length_skipn. unfold size. lia.
Qed.

Lemma slice_skipn {A} (l : list A) i :
  slice l i (i + size) ++ skipn (i + size) l = skipn i l.
Proof.
  unfold slice. replace (i + size - i) with size by lia.
  rewrite Nat.add_comm, <- skipn_skipn.
  apply firstn_skipn.
Qed.

(** With enough fuel the loop covers the whole tail of the list. *)
Lemma concat_batches_from {A} fuel : forall (l : list A) i,
  length l - i <= fuel ->
  concat (batches_from fuel l i) = skipn i l.
Proof.
  induction fuel as [|fuel IH]; intros l i Hf; simpl.
  - symmetry. apply skipn_all2. lia.
  - destruct (Nat.ltb_spec i (length l)) as [Hi|Hi].
    + simpl. rewrite IH by (unfold size; lia). apply slice_skipn.
    + symmetry. apply skipn_all2. lia.
Qed.

Lemma ceil_div_step n :
  0 < n -> ceil_div n size = S (ceil_div (n - size) size).
Proof.
  unfold ceil_div, size. intros Hn. simpl (10 - 1).
  destruct (Nat.le_gt_cases 10 n) as [Hge|Hlt].
  - replace (n + 9) with (n - 10 + 9 + 1 * 10) by lia.
    rewrite Nat.div_add by lia. lia.
  - replace (n - 10) with 0 by lia.
    replace (n + 9) with (n - 1 + 1 * 10) by lia.
    rewrite Nat.div_add by lia.
    rewrite Nat.div_small by lia. reflexivity.
Qed.

(** The loop produces the slices [i + 10k, i + 10k + 10), one for each
    [k < ceil((L - i) / 10)]. *)
Lemma batches_from_slices {A} fuel : forall (l : list A) i,
  length l - i <= fuel ->
  batches_from fuel l i
  = map (fun k => slice l (i + k * size) (i + k * size + size))
        (seq 0 (ceil_div (length l - i) size)).
Proof.
  induction fuel as [|fuel IH]; intros l i Hf; cbn [batches_from].
  - replace (length l - i) with 0 by lia. reflexivity.
  - destruct (Nat.ltb_spec i (length l)) as [Hi|Hi].
    + rewrite ceil_div_step by lia. simpl seq. simpl map.
      rewrite Nat.add_0_r. f_equal.
      rewrite IH by (unfold size; lia).
      rewrite <- seq_shift, map_map.
      replace (length l - i - size) with (length l - (i + size)) by lia.
      apply map_ext. intros k. f_equal; unfold size; lia.
    + replace (length l - i) with 0 by lia. reflexivity.
Qed.

Lemma Forall_batches_from {A} fuel : forall (l : list A) i,
  Forall (fun c => 0 < length c <= size) (batches_from fuel l i).
Proof.
  induction fuel as [|fuel IH]; intros l i; simpl.
  - constructor.
  - destruct (Nat.ltb_spec i (length l)) as [Hi|Hi].
    + constructor; [|apply IH].
      destruct (slice_length l i Hi). lia.
    + constructor.
Qed.

Example fifteen_candidates :
  map (@length nat) (batches (seq 0 15)) = [10; 5]
  /\ batches (@nil nat) = [].
Proof. split; reflexivity. Qed.

(** C9. Splitting a list of length [L] into batches of 10, as the
    enrichment loop does, yields exactly [ceil(L / 10)] chunks, that is the
    least number [n] with [L <= 10 n]; every chunk has at most 10 items; the
    [k]-th chunk is the contiguous slice [10k, 10k + 10) of the input; and
    concatenating the chunks in order gives back the input list. *)
Theorem batches_partition {A} (l : list A) :
  length (batches l) = ceil_div (length l) 10
  /\ length l <= 10 * length (batches l) < length l + 10
  /\ Forall (fun c => length c <= 10) (batches l)
  /\ batches l
     = map (fun k => slice l (k * 10) (k * 10 + 10))
           (seq 0 (ceil_div (length l) 10))
  /\ concat (batches l) = l.
Proof.
  assert (E : batches l
              = map (fun k => slice l (k * 10) (k * 10 + 10))
                    (seq 0 (ceil_div (length l) 10))).
  { unfold batches. rewrite batches_from_slices by lia.
    rewrite Nat.sub_0_r. reflexivity. }
  assert (L : length (batches l) = ceil_div (length l) 10).
  { rewrite E, length_map, length_seq. reflexivity. }
  repeat split.
  - exact L.
  - rewrite L. unfold ceil_div. simpl (10 - 1).
    pose proof (Nat.div_mod_eq (length l + 9) 10) as Hd.
    pose proof (Nat.mod_upper_bound (length l + 9) 10). lia.
  - rewrite L. unfold ceil_div. simpl (10 - 1).
    pose proof (Nat.div_mod_eq (length l + 9) 10) as Hd.
    pose proof (Nat.mod_upper_bound (length l + 9) 10). lia.
  - eapply Forall_impl; [|apply Forall_batches_from].
    unfold size. simpl. intros c Hc. lia.
  - exact E.
  - unfold batches. now rewrite concat_batches_from by lia.
Qed.

End BatchFacts.

Module RateLimiterFacts.
Import RateLimiter RateLimiterScenario.

Lemma inject_Z_sub a b : (inject_Z (a - b) == inject_Z a - inject_Z b)%Q.
Proof.
  unfold Z.sub. rewrite inject_Z_plus, inject_Z_opp. reflexivity.
Qed.

(** What [check] decides. *)
Lemma check_spec now last R :
  match check now last R with
  | Some delay => (inject_Z now + delay == inject_Z last + minInterval R)%Q
  | None => (minInterval R <= inject_Z (now - last))%Q
  end.
Proof.
  unfold check.
  destruct (Qle_bool (minInterval R) (inject_Z (now - last))) eqn:Hle; simpl.
  - now apply Qle_bool_iff.
  - rewrite inject_Z_sub. ring.
Qed.

Lemma inv_init R clock0 : inv R (init clock0).
Proof. constructor; simpl; auto. Qed.

Lemma spaced_cons R s :
  spaced (minInterval R) (dispatched s) ->
  match dispatched s with
  | t :: _ => lastRequestTime s = t
  | [] => lastRequestTime s = 0%Z
  end ->
  (minInterval R <= inject_Z (clock s - lastRequestTime s))%Q ->
  spaced (minInterval R) (clock s :: dispatched s).
Proof.
  intros Hs Hl Hgap. destruct (dispatched s) as [|t log]; simpl; auto.
  subst t. split; assumption.
Qed.

Lemma inv_step R a s s' :
  inv R s ->
  step R a s = Some s' ->
  (match a with Enter => match waiting s with [] => true | _ => false end
           | _ => true end) = true ->
  (match a with
   | Resume k => match nth_error (waiting s) k with
                 | Some wake => Qle_bool wake (inject_Z (clock s))
                 | None => true
                 end
   | _ => true
   end) = true ->
  inv R s'.
Proof.
  intros [Hs Hl Hw] Hstep Hseq Htimer.
  destruct a as [dt| |k]; simpl in Hstep.
  - destruct (0 <=? dt)%Z; inversion Hstep; subst. constructor; simpl; auto.
  - destruct (waiting s) as [|w ws] eqn:Ew; [|discriminate].
    pose proof (check_spec (clock s) (lastRequestTime s) R) as Hc.
    destruct (check (clock s) (lastRequestTime s) R) as [delay|];
      inversion Hstep; subst; constructor; cbn [dispatched lastRequestTime waiting
                                                record_dispatch app]; auto.
    + rewrite Hc. apply Qle_refl.
    + apply spaced_cons; auto.
  - destruct (waiting s) as [|w [|w' ws]] eqn:Ew; try contradiction.
    { destruct k; discriminate. }
    destruct k as [|k]; simpl in Hstep, Htimer; [|destruct k; discriminate].
    inversion Hstep; subst. rename Htimer into Hwake.
    apply Qle_bool_iff in Hwake.
    constructor; cbn [dispatched lastRequestTime waiting record_dispatch remove_nth];
      auto.
    apply spaced_cons; auto.
    rewrite inject_Z_sub. lra.
Qed.

Lemma inv_run R acts : forall s s',
  inv R s ->
  run R acts s = Some s' ->
  non_overlapping R acts s = true ->
  timers_on_time R acts s = true ->
  inv R s'.
Proof.
  induction acts as [|a acts IH]; intros s s' Hi Hrun Hseq Htimers;
    cbn [run non_overlapping timers_on_time] in *.
  - now inversion Hrun; subst.
  - apply andb_true_iff in Hseq as [Ha Hrest].
    apply andb_true_iff in Htimers as [Ht Htrest].
    destruct (step R a s) as [s1|] eqn:Hstep; [|discriminate].
    apply (IH s1 s'); try assumption.
    exact (inv_step R a s s1 Hi Hstep Ha Ht).
Qed.

Example burst_run :
  option_map dispatched (run 10 burst (init t0))
  = Some [t0 + 6000; t0 + 6000; t0]%Z.
Proof. reflexivity. Qed.

Example one_by_one_run :
  option_map dispatched (run 10 one_by_one (init t0))
  = Some [t0 + 12000; t0 + 6000; t0]%Z
  /\ non_overlapping 10 one_by_one (init t0) = true
  /\ timers_on_time 10 one_by_one (init t0) = true.
Proof. repeat split; reflexivity. Qed.

(** C6 fails on the code. Three requests are started on one client
    without awaiting one another, with [rateLimit = 10], so that dispatches
    are to be 6000 ms apart.  The first passes at once; the other two read
    the same [lastRequestTime] before either has written it, are suspended
    for the same 6000 ms and, with both timers firing exactly on time, are
    dispatched in the same millisecond: [_rateLimit] tests the timestamp
    before its [await] and writes it after. *)
Theorem overlapping_callers_not_spaced :
  exists s,
    run 10 burst (init t0) = Some s
    /\ timers_on_time 10 burst (init t0) = true
    /\ dispatched s = [t0 + 6000; t0 + 6000; t0]%Z
    /\ ~ spaced (minInterval 10) (dispatched s).
Proof.
  eexists. split; [reflexivity|]. split; [reflexivity|]. split; [reflexivity|].
  simpl. intros [H _]. vm_compute in H. apply H. reflexivity.
Qed.

(** What the limiter does achieve, in exact arithmetic: as long as each
    [_rateLimit] call has returned before the next one is made, and no timer
    fires early, any two consecutive dispatches of one instance are at least
    [60000 / R] ms apart, and the time of the latest dispatch is what the
    instance has recorded in [lastRequestTime]. *)
Lemma sequential_dispatches_spaced R clock0 acts s :
  run R acts (init clock0) = Some s ->
  non_overlapping R acts (init clock0) = true ->
  timers_on_time R acts (init clock0) = true ->
  spaced (minInterval R) (dispatched s)
  /\ match dispatched s with
     | t :: _ => lastRequestTime s = t
     | [] => lastRequestTime s = 0%Z
     end.
Proof.
  intros Hrun Hseq Htimers.
  destruct (inv_run R acts _ _ (inv_init R clock0) Hrun Hseq Htimers)
    as [Hs Hl _].
  split; assumption.
Qed.

End RateLimiterFacts.

Module TransportFacts.
Import Transport.

Section Client.
Context {Payload Data World : Type}.
Variable env : Env Payload Data World.

(** With [retries - attempt + 1] iterations allowed, the loop follows one
    of the paths of [run_shape]. *)
Lemma attempts_shape fuel : forall retries config attempt lastError st st' evs res,
  retries - attempt < fuel ->
  attempts env fuel retries config attempt lastError st = (st', evs, res) ->
  run_shape retries attempt lastError evs res.
Proof.
  induction fuel as [|fuel IH]; intros retries config attempt lastError st st' evs res Hf H.
  - lia.
  - cbn [attempts] in H.
    destruct (Nat.ltb_spec attempt retries) as [Ha|Ha].
    2:{ inversion H; subst. now constructor. }
    destruct st as [w c].
    destruct (axios env config w) as [w1 [d|error]].
    { inversion H; subst. now constructor. }
    destruct (is_client_error error) eqn:Hc.
    { inversion H; subst. now constructor. }
    destruct (Nat.ltb_spec attempt (retries - 1)) as [Hr|Hr].
    + destruct (attempts env fuel retries config (attempt + 1) (Some error) _)
        as [[st1 evs1] res1] eqn:Hrec.
      inversion H; subst.
      apply shape_retrying; [lia|assumption|].
      eapply IH; [|exact Hrec]. lia.
    + destruct (attempts env fuel retries config (attempt + 1) (Some error) _)
        as [[st1 evs1] res1] eqn:Hrec.
      apply IH in Hrec; [|lia].
      inversion Hrec; subst; try lia.
      inversion H; subst.
      apply shape_server_failure; [lia|assumption].
Qed.

Lemma request_shape method endpoint data retries st st' evs res :
  request env method endpoint data retries st = (st', evs, res) ->
  exists rest, evs = EvAcquire :: rest /\ run_shape retries 0 None rest res.
Proof.
  unfold request. intros H.
  destruct (attempts env (S retries) retries _ 0 None _) as [[st1 evs1] res1] eqn:Hrec.
  inversion H; subst.
  exists evs1. split; [reflexivity|].
  eapply attempts_shape; [|exact Hrec]. lia.
Qed.

(** One [_rateLimit] call on its own: if timers fire no earlier than asked,
    the timestamp it records is at least one interval after the one it
    found. *)
Lemma rateLimit_waits (w : World) (c : APIClient) :
  (forall delay w0,
     inject_Z (now env w0) + delay <= inject_Z (now env (setTimeout env delay w0)))%Q ->
  (RateLimiter.minInterval (rateLimit c)
   <= inject_Z (lastRequestTime (snd (_rateLimit env (w, c))) - lastRequestTime c))%Q.
Proof.
  intros Htimer. unfold _rateLimit. cbn [snd lastRequestTime].
  pose proof (RateLimiterFacts.check_spec (now env w) (lastRequestTime c) (rateLimit c))
    as Hc.
  destruct (RateLimiter.check (now env w) (lastRequestTime c) (rateLimit c))
    as [delay|].
  - specialize (Htimer delay w).
    rewrite RateLimiterFacts.inject_Z_sub. lra.
  - exact Hc.
Qed.

End Client.

(** Splitting [x :: l] around one of its elements. *)
Lemma cons_eq_app {A} (x y : A) l pre post :
  x :: l = pre ++ y :: post ->
  (pre = [] /\ x = y /\ l = post)
  \/ (exists pre', pre = x :: pre' /\ l = pre' ++ y :: post).
Proof.
  destruct pre as [|z pre]; simpl; intros E; injection E as E1 E2.
  - left. auto.
  - right. subst z. eauto.
Qed.

Ltac split_head E pre' :=
  apply cons_eq_app in E as [(-> & E & ?) | (pre' & -> & E)].

Section Shape.
Context {Data : Type}.
Implicit Types (evs pre post : list (Event Data)) (res : result Data).

Lemma shape_n_calls retries attempt lastError evs res :
  run_shape retries attempt lastError evs res ->
  n_calls evs <= retries - attempt.
Proof.
  unfold n_calls.
  induction 1; simpl in *; lia.
Qed.

Lemma shape_no_acquire retries attempt lastError evs res :
  run_shape retries attempt lastError evs res ->
  n_acquires evs = 0.
Proof.
  unfold n_acquires.
  induction 1; simpl in *; auto.
Qed.

Lemma shape_terminates retries attempt lastError evs res :
  run_shape retries attempt lastError evs res -> res <> OutOfFuel.
Proof. induction 1; congruence. Qed.

(** A call that came back with a 4xx status is the last event, and its
    error is what the operation throws. *)
Lemma shape_client_error_last retries attempt lastError evs res :
  run_shape retries attempt lastError evs res ->
  forall pre e post,
    evs = pre ++ e :: post ->
    is_client_error_call e = true ->
    post = [] /\ exists a error, e = EvCall a (inr error) /\ res = Thrown (Some error).
Proof.
  induction 1 as [a le Ha|a le d Ha|a le error Ha Hc|a le error evs res Ha Hc Hs IH
                 |a le error Ha Hc]; intros pre e post E Hce.
  - now destruct pre.
  - split_head E pre'; [subst; discriminate | now destruct pre'].
  - split_head E pre'; [subst; eauto | now destruct pre'].
  - split_head E pre'; [subst; simpl in Hce; congruence|].
    split_head E pre''; [subst; discriminate|].
    eapply IH; eauto.
  - split_head E pre'; [subst; simpl in Hce; congruence | now destruct pre'].
Qed.

(** Where the physical calls sit: the call of iteration [attempt] opens
    the events, and the call of a later iteration [i] comes right after
    the backoff sleep of [2^(i-1) * 1000] ms. *)
Lemma shape_call_position retries attempt lastError evs res :
  run_shape retries attempt lastError evs res ->
  forall pre i r post,
    evs = pre ++ EvCall i r :: post ->
    (pre = [] /\ i = attempt)
    \/ (attempt < i /\
        exists pre', pre = pre' ++ [EvBackoff (backoff_delay (i - 1))]).
Proof.
  induction 1 as [a le Ha|a le d Ha|a le error Ha Hc|a le error evs res Ha Hc Hs IH
                 |a le error Ha Hc]; intros pre i r post E.
  - now destruct pre.
  - split_head E pre'; [left; split; congruence | now destruct pre'].
  - split_head E pre'; [left; split; congruence | now destruct pre'].
  - split_head E pre'; [left; split; congruence|].
    split_head E pre''; [discriminate|].
    right.
    destruct (IH _ _ _ _ E) as [[-> ->]|[Hi [pre' ->]]].
    + split; [lia|].
      exists [EvCall a (inr error)].
      replace (a + 1 - 1) with a by lia. reflexivity.
    + split; [lia|].
      exists (EvCall a (inr error) :: EvBackoff (backoff_delay a) :: pre').
      reflexivity.
  - split_head E pre'; [left; split; congruence | now destruct pre'].
Qed.

(** Every backoff sleep is the one of some iteration [i], lasts
    [2^i * 1000] ms and is followed at once by the call of iteration
    [i + 1]. *)
Lemma shape_backoff_position retries attempt lastError evs res :
  run_shape retries attempt lastError evs res ->
  forall pre d post,
    evs = pre ++ EvBackoff d :: post ->
    exists i r post',
      attempt <= i /\ d = backoff_delay i
      /\ post = EvCall (i + 1) r :: post'.
Proof.
  induction 1 as [a le Ha|a le d0 Ha|a le error Ha Hc|a le error evs res Ha Hc Hs IH
                 |a le error Ha Hc]; intros pre d post E.
  - now destruct pre.
  - split_head E pre'; [discriminate | now destruct pre'].
  - split_head E pre'; [discriminate | now destruct pre'].
  - split_head E pre'; [discriminate|].
    split_head E pre''.
    + injection E as <-. subst post. exists a.
      inversion Hs; subst; try lia; eauto.
    + destruct (IH _ _ _ E) as (i & r & post' & Hi & -> & ->).
      exists i, r, post'. repeat split; auto. lia.
  - split_head E pre'; [discriminate | now destruct pre'].
Qed.

End Shape.

End TransportFacts.

Module TransportClaims.
Import Transport TransportFacts TransportScenario.

Example flaky_run_events :
  events_of flaky_run
  = [EvAcquire; EvCall 0 (inr server_error); EvBackoff 1000;
     EvCall 1 (inr not_found)]
  /\ result_of flaky_run = Thrown (Some not_found).
Proof. split; reflexivity. Qed.

(** C2, as stated, fails: with the default budget of 3, a server that
    answers 500 and then 404 receives two physical calls, although one of
    them came back with a status in [400, 500). *)
Lemma client_error_after_retry_two_calls :
  ~ (existsb is_client_error_call (events_of flaky_run) = true ->
     n_calls (events_of flaky_run) = 1).
Proof.
  intros H. specialize (H eq_refl). vm_compute in H. discriminate.
Qed.

(** C2, amended. One logical operation with budget [retries] issues at
    most [retries] physical calls and always comes to an end; a physical
    call that returns a status in [400, 500) is the last thing the operation
    does, its error being thrown at once with no backoff and no further
    call; and when it is the first physical call that returns such a status,
    exactly one physical call is issued in total. *)
Theorem request_call_budget {Payload Data World} (env : Env Payload Data World)
        method endpoint data retries st st' evs res :
  request env method endpoint data retries st = (st', evs, res) ->
  n_calls evs <= retries
  /\ res <> OutOfFuel
  /\ (forall pre e post,
        evs = pre ++ e :: post -> is_client_error_call e = true ->
        post = []
        /\ exists a error, e = EvCall a (inr error) /\ res = Thrown (Some error))
  /\ (forall error rest,
        evs = EvAcquire :: EvCall 0 (inr error) :: rest ->
        is_client_error error = true ->
        n_calls evs = 1).
Proof.
  intros H.
  destruct (request_shape env _ _ _ _ _ _ _ _ H) as (rest & -> & Hs).
  assert (Hlast : forall pre e post,
             EvAcquire :: rest = pre ++ e :: post ->
             is_client_error_call e = true ->
             post = []
             /\ exists a error, e = EvCall a (inr error) /\ res = Thrown (Some error)).
  { intros pre e post E He.
    split_head E pre'; [subst; discriminate|].
    eapply shape_client_error_last; eauto. }
  repeat split.
  - pose proof (shape_n_calls _ _ _ _ _ Hs) as Hn.
    unfold n_calls in *. simpl. lia.
  - eapply shape_terminates; eauto.
  - eapply Hlast; eauto.
  - eapply Hlast; eauto.
  - intros error rest' E He.
    destruct (Hlast [EvAcquire] (EvCall 0 (inr error)) rest' E He) as [-> _].
    injection E as ->. reflexivity.
Qed.

Lemma request_call_budget_witness :
  rejected_run
  = ((1, 1700000000050%Z,
      {| baseURL := "https://api.apollo.io/v1"; apiKey := "key";
         rateLimit := 10; lastRequestTime := 1700000000000 |}),
     [EvAcquire; EvCall 0 (inr not_found)], Thrown (Some not_found))
  /\ n_calls [EvAcquire; EvCall 0 (@inr string _ not_found)] = 1.
Proof.
  split; [reflexivity|].
  refine (proj2 (proj2 (proj2
            (request_call_budget (scripted [inr not_found])
               "GET" "/people/match" None 3 (w0, client0) _ _ _ eq_refl)))
            not_found [] eq_refl eq_refl).
Defined.

(** C3, as stated, fails: in the run above the second physical call (the
    retry) follows the backoff sleep, with no acquire since the first
    call. *)
Lemma retry_call_without_acquire :
  acquire_right_before_each_call (events_of flaky_run) = false
  /\ acquire_since_previous_call false (events_of flaky_run) = false.
Proof. split; reflexivity. Qed.

(** C3, amended. Every execution of [request] performs exactly one
    acquire step, as its very first step; the first physical call follows
    it immediately, and every retry call follows immediately the backoff
    sleep of its predecessor, with no acquire in between. *)
Theorem request_acquires_once {Payload Data World} (env : Env Payload Data World)
        method endpoint data retries st st' evs res :
  request env method endpoint data retries st = (st', evs, res) ->
  exists rest,
    evs = EvAcquire :: rest
    /\ n_acquires rest = 0
    /\ (forall pre i r post,
          rest = pre ++ EvCall i r :: post ->
          (pre = [] /\ i = 0)
          \/ (1 <= i /\ exists pre', pre = pre' ++ [EvBackoff (backoff_delay (i - 1))])).
Proof.
  intros H.
  destruct (request_shape env _ _ _ _ _ _ _ _ H) as (rest & -> & Hs).
  exists rest. repeat split.
  - eapply shape_no_acquire; eauto.
  - intros pre i r post E.
    destruct (shape_call_position _ _ _ _ _ Hs _ _ _ _ E) as [?|[? ?]]; auto.
Qed.

Lemma request_acquires_once_witness :
  exists rest,
    events_of flaky_run = EvAcquire :: rest /\ n_acquires rest = 0.
Proof.
  destruct (request_acquires_once (scripted [inr server_error; inr not_found])
              "GET" "/people/match" None 3 (w0, client0) _ _ _ eq_refl)
    as (rest & E & Hn & _).
  exists rest. split; assumption.
Defined.

(** C4, as stated, fails: the sleep before physical attempt 1 lasts
    1000 ms, not [2^1 * 1000]. *)
Lemma first_backoff_is_one_second :
  ~ (forall pre i d r post,
       events_of flaky_run = pre ++ EvBackoff d :: EvCall i r :: post ->
       1 <= i -> d = (2 ^ Z.of_nat i * 1000)%Z).
Proof.
  intros H.
  specialize (H [EvAcquire; EvCall 0 (inr server_error)] 1 1000%Z
                (inr not_found) [] eq_refl (le_n 1)).
  discriminate.
Qed.

(** C4, amended. In every retry sequence the physical attempt [i >= 1]
    (0-indexed) is immediately preceded by a backoff sleep of
    [2^(i-1) * 1000] ms, that is [2^a * 1000] ms for the index [a = i - 1]
    of the attempt that failed; and every backoff sleep is one of these.
    The delay depends on the attempt index alone. *)
Theorem backoff_before_attempt {Payload Data World} (env : Env Payload Data World)
        method endpoint data retries st st' evs res :
  request env method endpoint data retries st = (st', evs, res) ->
  (forall pre i r post,
     evs = pre ++ EvCall i r :: post -> 1 <= i ->
     exists pre', pre = pre' ++ [EvBackoff (2 ^ (Z.of_nat i - 1) * 1000)])
  /\ (forall pre d post,
        evs = pre ++ EvBackoff d :: post ->
        exists a r post',
          d = (2 ^ Z.of_nat a * 1000)%Z /\ post = EvCall (a + 1) r :: post').
Proof.
  intros H.
  destruct (request_shape env _ _ _ _ _ _ _ _ H) as (rest & -> & Hs).
  split.
  - intros pre i r post E Hi.
    split_head E pre'; [discriminate|].
    destruct (shape_call_position _ _ _ _ _ Hs _ _ _ _ E) as [[_ ->]|[_ [pre'' ->]]];
      [lia|].
    exists (EvAcquire :: pre''). simpl. unfold backoff_delay.
    replace (Z.of_nat (i - 1)) with (Z.of_nat i - 1)%Z by lia.
    reflexivity.
  - intros pre d post E.
    split_head E pre'; [discriminate|].
    destruct (shape_backoff_position _ _ _ _ _ Hs _ _ _ E)
      as (a & r & post' & _ & -> & ->).
    exists a, r, post'. split; reflexivity.
Qed.

Lemma backoff_before_attempt_witness :
  exists pre',
    [EvAcquire; EvCall 0 (@inr string _ server_error); EvBackoff 1000]
    = pre' ++ [EvBackoff (2 ^ (Z.of_nat 1 - 1) * 1000)].
Proof.
  refine (proj1 (backoff_before_attempt
                   (scripted [inr server_error; inr not_found])
                   "GET" "/people/match" None 3 (w0, client0) _ _ _ eq_refl)
                [EvAcquire; EvCall 0 (inr server_error); EvBackoff 1000]
                1 (inr not_found) [] eq_refl (le_n 1)).
Defined.

End TransportClaims.

Module WorkflowFacts.
Import Async Workflow.

Ltac map_obs evs :=
  let IH := fresh "IH" in
  induction evs as [|[? ?] evs IH];
  [reflexivity
  |unfold enrich_calls, create_calls, sequence_calls, errors_of_calls in *;
   simpl in *; first [assumption | rewrite IH; reflexivity]].

(** *** Observations on composed logs *)
Section Logs.
Context {Filters : Type}.
Implicit Types (log : list (Call Filters)).

Lemma enrich_calls_app log1 log2 :
  enrich_calls (log1 ++ log2) = enrich_calls log1 ++ enrich_calls log2.
Proof. apply flat_map_app. Qed.

Lemma create_calls_app log1 log2 :
  create_calls (log1 ++ log2) = create_calls log1 ++ create_calls log2.
Proof. apply flat_map_app. Qed.

Lemma sequence_calls_app log1 log2 :
  sequence_calls (log1 ++ log2) = sequence_calls log1 ++ sequence_calls log2.
Proof. apply flat_map_app. Qed.

Lemma errors_of_calls_app log1 log2 :
  errors_of_calls (log1 ++ log2) = errors_of_calls log1 ++ errors_of_calls log2.
Proof. apply flat_map_app. Qed.

Lemma enrich_calls_search p r log :
  enrich_calls (CallSearch p r :: log) = enrich_calls log.
Proof. reflexivity. Qed.

Lemma create_calls_search p r log :
  create_calls (CallSearch p r :: log) = create_calls log.
Proof. reflexivity. Qed.

Lemma sequence_calls_search p r log :
  sequence_calls (CallSearch p r :: log) = sequence_calls log.
Proof. reflexivity. Qed.

Lemma errors_of_calls_search p r log :
  errors_of_calls (CallSearch p r :: log) = errors_of_calls log.
Proof. reflexivity. Qed.

Lemma enrich_calls_enrich evs :
  enrich_calls (map (@enrich_entry Filters) evs) = evs.
Proof. map_obs evs. Qed.

Lemma enrich_calls_create evs :
  enrich_calls (map (@create_entry Filters) evs) = [].
Proof. map_obs evs. Qed.

Lemma create_calls_enrich evs :
  create_calls (map (@enrich_entry Filters) evs) = [].
Proof. map_obs evs. Qed.

Lemma create_calls_create evs :
  create_calls (map (@create_entry Filters) evs) = evs.
Proof. map_obs evs. Qed.

Lemma sequence_calls_enrich evs :
  sequence_calls (map (@enrich_entry Filters) evs) = [].
Proof. map_obs evs. Qed.

Lemma sequence_calls_create evs :
  sequence_calls (map (@create_entry Filters) evs) = [].
Proof. map_obs evs. Qed.

Lemma errors_of_calls_enrich evs :
  errors_of_calls (map (@enrich_entry Filters) evs) = [].
Proof. map_obs evs. Qed.

Lemma errors_of_calls_create evs :
  errors_of_calls (map (@create_entry Filters) evs) = creation_errors evs.
Proof. unfold creation_errors. map_obs evs. Qed.


Lemma count_app {A} (p : A -> bool) l1 l2 :
  count p (l1 ++ l2) = count p l1 + count p l2.
Proof. unfold count. now rewrite filter_app, length_app. Qed.



Lemma length_created_contacts (evs : list CreateEvent) :
  length (created_contacts evs) = n_created evs.
Proof.
  unfold n_created, count.
  induction evs as [|[d r] evs IH]; [reflexivity|].
  destruct r as [res|m]; simpl; [|exact IH].
  destruct (acknowledged res); simpl; auto.
Qed.

(** When every creation call returned, each one either produced a
    contact or an error entry naming its lead. *)
Lemma created_plus_failures (evs : list CreateEvent) :
  all_returned evs = true ->
  n_created evs + count is_lead_error (creation_errors evs) = length evs.
Proof.
  unfold n_created, count, creation_errors, all_returned.
  induction evs as [|[d r] evs IH]; [reflexivity|].
  destruct r as [res|m]; simpl; [|discriminate].
  intros H. specialize (IH H).
  destruct (acknowledged res); simpl; lia.
Qed.

Lemma created_plus_failures_le (evs : list CreateEvent) :
  n_created evs + count is_lead_error (creation_errors evs) <= length evs.
Proof.
  unfold n_created, count, creation_errors.
  induction evs as [|[d r] evs IH]; [simpl; lia|].
  destruct r as [res|m]; simpl; [|lia].
  destruct (acknowledged res); simpl; lia.
Qed.

Lemma creation_errors_are_lead_errors (evs : list CreateEvent) :
  count is_sequence_error (creation_errors evs) = 0.
Proof.
  unfold count, creation_errors.
  induction evs as [|[d r] evs IH]; [reflexivity|].
  destruct r as [res|m]; simpl; [|exact IH].
  destruct (acknowledged res); simpl; auto.
Qed.

End Logs.

Create Rewrite HintDb obs.
#[export] Hint Rewrite
  @enrich_calls_search @create_calls_search @sequence_calls_search
  @errors_of_calls_search
  @enrich_calls_app @create_calls_app @sequence_calls_app @errors_of_calls_app
  @enrich_calls_enrich @enrich_calls_create @create_calls_enrich
  @create_calls_create @sequence_calls_enrich @sequence_calls_create
  @errors_of_calls_enrich @errors_of_calls_create @app_nil_r @app_nil_l : obs.

Ltac obs := autorewrite with obs; cbn [enrich_calls create_calls sequence_calls
                                       errors_of_calls flat_map app].

(** *** The two loops *)
Section Loops.
Context {Filters World : Type}.
Variable C : Collaborators Filters World.
Variable config : Config Filters.

Lemma after_creates_nil r : after_creates r [] = r.
Proof.
  destruct r. unfold after_creates, n_created, count, creation_errors. simpl.
  now rewrite Nat.add_0_r, app_nil_r.
Qed.

Lemma after_creates_created r d res contact evsC :
  acknowledged res = Some contact ->
  after_creates {| searched := searched r; enriched := enriched r;
                   created := created r + 1;
                   addedToSequence := addedToSequence r;
                   errors := errors r |} evsC
  = after_creates r ((d, Ret res) :: evsC).
Proof.
  intros Hack.
  unfold after_creates, n_created, count, creation_errors, creation_error.
  simpl. rewrite Hack. simpl. f_equal. lia.
Qed.

Lemma after_creates_failed r d res evsC :
  acknowledged res = None ->
  after_creates {| searched := searched r; enriched := enriched r;
                   created := created r;
                   addedToSequence := addedToSequence r;
                   errors := errors r ++
                     [LeadError (display_name (ContactData.first_name d)
                                              (ContactData.last_name d))
                                (error res)] |} evsC
  = after_creates r ((d, Ret res) :: evsC).
Proof.
  intros Hack.
  unfold after_creates, n_created, count, creation_errors, creation_error.
  simpl. rewrite Hack. simpl. f_equal. now rewrite <- app_assoc.
Qed.

Lemma createLoop_spec : forall leads acc (st : St Filters World),
  match createLoop C config leads acc st with
  | (st', Ret createdContacts) =>
      exists evsC,
        calls st' = calls st ++ map create_entry evsC
        /\ results st' = after_creates (results st) evsC
        /\ all_returned evsC = true
        /\ map fst evsC = map (contactData_of config) leads
        /\ createdContacts = acc ++ created_contacts evsC
  | (st', Throw message) =>
      exists evsC contactData,
        calls st' = calls st ++ map create_entry (evsC ++ [(contactData, Throw message)])
        /\ results st' = after_creates (results st) evsC
        /\ all_returned evsC = true
        /\ map fst (evsC ++ [(contactData, Throw message)])
           = map (contactData_of config) (firstn (S (length evsC)) leads)
        /\ length evsC < length leads
  end.
Proof.
  induction leads as [|lead rest IH]; intros acc st.
  - simpl. exists []. simpl.
    now rewrite !app_nil_r, after_creates_nil.
  - cbn [createLoop]. unfold bind at 1. unfold call at 1.
    destruct (createContact C (contactData_of config lead) (world st))
      as [w1 [res|message]] eqn:Hcall.
    2:{ exists [], (contactData_of config lead). simpl.
        rewrite after_creates_nil. repeat split; auto. lia. }
    destruct (acknowledged res) as [contact|] eqn:Hack;
      unfold bind at 1, update at 1, modify at 1;
      match goal with |- context [createLoop C config rest ?a ?s] =>
        specialize (IH a s); destruct (createLoop C config rest a s) as [st' [cs|m]]
      end.
    + destruct IH as (evsC & Hc & Hr & Ha & Hm & Hcs).
      exists ((contactData_of config lead, Ret res) :: evsC).
      cbn [calls results] in Hc, Hr. rewrite Hc, Hr, Hcs.
      repeat split.
      * now rewrite <- app_assoc.
      * eapply after_creates_created; eauto.
      * exact Ha.
      * cbn. now rewrite Hm.
      * cbn. rewrite Hack. now rewrite <- app_assoc.
    + destruct IH as (evsC & d & Hc & Hr & Ha & Hm & Hl).
      exists ((contactData_of config lead, Ret res) :: evsC), d.
      cbn [calls results] in Hc, Hr. rewrite Hc, Hr.
      repeat split.
      * now rewrite <- app_assoc.
      * eapply after_creates_created; eauto.
      * exact Ha.
      * cbn [app map fst length firstn]. now rewrite Hm.
      * cbn. lia.
    + destruct IH as (evsC & Hc & Hr & Ha & Hm & Hcs).
      exists ((contactData_of config lead, Ret res) :: evsC).
      cbn [calls results] in Hc, Hr. rewrite Hc, Hr, Hcs.
      repeat split.
      * now rewrite <- app_assoc.
      * apply (after_creates_failed _ (contactData_of config lead)); auto.
      * exact Ha.
      * cbn. now rewrite Hm.
      * cbn. now rewrite Hack.
    + destruct IH as (evsC & d & Hc & Hr & Ha & Hm & Hl).
      exists ((contactData_of config lead, Ret res) :: evsC), d.
      cbn [calls results] in Hc, Hr. rewrite Hc, Hr.
      repeat split.
      * now rewrite <- app_assoc.
      * apply (after_creates_failed _ (contactData_of config lead)); auto.
      * exact Ha.
      * cbn [app map fst length firstn]. now rewrite Hm.
      * cbn. lia.
Qed.

Lemma enrichLoop_spec : forall fuel leads i acc
                               (st : St Filters World),
  match enrichLoop C fuel leads i acc st with
  | (st', Ret enrichedLeads) =>
      exists evsE,
        calls st' = calls st ++ map enrich_entry evsE
        /\ results st' = results st
        /\ all_returned evsE = true
        /\ map fst evsE
           = map (map batchData_of) (Batch.batches_from fuel leads i)
        /\ enrichedLeads = acc ++ enriched_leads evsE
  | (st', Throw message) =>
      exists evsE batchData,
        calls st' = calls st ++ map enrich_entry (evsE ++ [(batchData, Throw message)])
        /\ results st' = results st
        /\ all_returned evsE = true
  end.
Proof.
  induction fuel as [|fuel IH]; intros leads i acc st.
  - simpl. exists []. simpl. now rewrite !app_nil_r.
  - cbn [enrichLoop Batch.batches_from].
    destruct (i <? length leads).
    2:{ simpl. exists []. simpl. now rewrite !app_nil_r. }
    unfold bind at 1. unfold call at 1.
    set (batchData := map batchData_of (slice leads i (i + 10))).
    destruct (enrichPeopleBulk C batchData (world st)) as [w1 [res|message]].
    2:{ exists [], batchData. simpl. auto. }
    match goal with |- context [enrichLoop C fuel leads ?j ?a ?s] =>
      specialize (IH leads j a s);
      destruct (enrichLoop C fuel leads j a s) as [st' [out|m]]
    end.
    + destruct IH as (evsE & Hc & Hr & Ha & Hm & Hout).
      exists ((batchData, Ret res) :: evsE).
      cbn [calls results] in Hc, Hr. rewrite Hc, Hr, Hout.
      repeat split.
      * now rewrite <- app_assoc.
      * exact Ha.
      * cbn [map fst]. unfold Batch.size. now rewrite Hm.
      * unfold enriched_leads. cbn [flat_map contribution snd].
        destruct (success res); [now rewrite <- app_assoc | reflexivity].
    + destruct IH as (evsE & b & Hc & Hr & Ha).
      exists ((batchData, Ret res) :: evsE), b.
      cbn [calls results] in Hc, Hr. rewrite Hc, Hr.
      repeat split.
      * now rewrite <- app_assoc.
      * exact Ha.
Qed.

(** *** Taking a run apart *)

Lemma bind_inv {A B} (m : M_of thrown (St Filters World) A)
      (k : A -> M_of thrown (St Filters World) B) st st' o :
  bind m k st = (st', o) ->
  (exists st1 a, m st = (st1, Ret a) /\ k a st1 = (st', o))
  \/ (exists error, m st = (st', Throw error) /\ o = Throw error).
Proof.
  unfold bind. destruct (m st) as [st1 [a|message]]; intros H.
  - left. eauto.
  - right. inversion H; subst. eauto.
Qed.

Lemma call_inv {A} (f : World -> World * awaited A) entry
      (st st' : St Filters World) o :
  call f entry st = (st', o) ->
  results st' = results st /\ calls st' = calls st ++ [entry o].
Proof.
  unfold call. destruct (f (world st)) as [w r]. intros H.
  inversion H; subst. auto.
Qed.

Lemma update_inv f (st st' : St Filters World) o :
  update f st = (st', o) ->
  o = Ret tt /\ results st' = f (results st) /\ calls st' = calls st.
Proof. unfold update, modify. intros H. inversion H; subst. auto. Qed.

(** [update f ;; k]. *)
Lemma update_then_inv {B} f (k : M_of thrown (St Filters World) B) st st' o :
  bind (update f) (fun _ => k) st = (st', o) ->
  exists st1, results st1 = f (results st) /\ calls st1 = calls st
              /\ k st1 = (st', o).
Proof.
  intros H. apply bind_inv in H as [(st1 & a & H1 & H)|(m & H1 & _)];
    apply update_inv in H1 as (Ho & Hr & Hc); [eauto|discriminate].
Qed.

(** Step 2. *)
Lemma enrich_stage_run leads (st st' : St Filters World) o :
  (if enrichData config then
     bind (enrichLoop C (length leads) leads 0 [])
          (fun enrichedLeads =>
             bind (update (fun r =>
                             {| searched := searched r;
                                enriched := length enrichedLeads;
                                created := created r;
                                addedToSequence := addedToSequence r;
                                errors := errors r |}))
                  (fun _ => ret enrichedLeads))
   else ret leads) st = (st', o) ->
  enriched (results st) = 0 ->
  match o with
  | Ret leadsToProcess =>
      exists evsE n,
        Enriched config leads evsE leadsToProcess n
        /\ calls st' = calls st ++ map enrich_entry evsE
        /\ results st'
           = {| searched := searched (results st); enriched := n;
                created := created (results st);
                addedToSequence := addedToSequence (results st);
                errors := errors (results st) |}
  | Throw message =>
      enrichData config = true
      /\ exists evsE batchData,
           calls st' = calls st ++ map enrich_entry (evsE ++ [(batchData, Throw message)])
           /\ results st' = results st
           /\ all_returned evsE = true
  end.
Proof.
  intros H H0.
  destruct (enrichData config) eqn:He.
  - apply bind_inv in H as [(st1 & out & H1 & H)|(m & H1 & ->)];
      pose proof (enrichLoop_spec (length leads) leads 0 [] st) as Hs;
      rewrite H1 in Hs.
    + destruct Hs as (evsE & Hc & Hr & Ha & Hm & ->).
      apply update_then_inv in H as (st2 & Hr2 & Hc2 & H).
      unfold ret in H. inversion H; subst.
      exists evsE, (length (enriched_leads evsE)). repeat split.
      * now apply enrichment_done.
      * now rewrite Hc2.
      * rewrite Hr2, Hr. reflexivity.
    + split; [reflexivity|]. destruct Hs as (evsE & b & Hc & Hr & Ha). eauto.
  - unfold ret in H. inversion H; subst.
    exists [], 0. repeat split.
    + now apply enrichment_skipped.
    + simpl. now rewrite app_nil_r.
    + destruct (results st'); simpl in *. now subst.
Qed.

(** Step 4. *)
Lemma enroll_stage_run createdContacts
      (st st' : St Filters World) o :
  (if truthy (sequenceId config) && truthy (emailAccountId config)
      && (0 <? length createdContacts) then
     let contactIds := map id createdContacts in
     bind (call (addContactsToSequence C (sequenceId config) contactIds
                                       (emailAccountId config))
                (CallSequence (sequenceId config) contactIds
                              (emailAccountId config)))
          (fun sequenceResult =>
             if success sequenceResult then
               update (fun r =>
                         {| searched := searched r; enriched := enriched r;
                            created := created r;
                            addedToSequence := length contactIds;
                            errors := errors r |})
             else
               update (fun r =>
                         {| searched := searched r; enriched := enriched r;
                            created := created r;
                            addedToSequence := addedToSequence r;
                            errors := errors r ++
                              [StepError "sequence" (error sequenceResult)] |}))
   else ret tt) st = (st', o) ->
  addedToSequence (results st) = 0 ->
  match o with
  | Throw ((Undefined | Null | Unprintable _ _) as error) =>
      exists c, calls st' = calls st ++ [c] /\ thrown_by c = Some error
  | _ =>
      exists seqs added seq_errors top,
        Enrolled config createdContacts seqs added seq_errors top
        /\ calls st' = calls st ++ seqs
        /\ results st'
           = {| searched := searched (results st);
                enriched := enriched (results st);
                created := created (results st);
                addedToSequence := added;
                errors := errors (results st) ++ seq_errors |}
        /\ match o with
           | Throw (Value message) => top = Some message
           | _ => top = None
           end
  end.
Proof.
  intros H H0.
  destruct (truthy (sequenceId config) && truthy (emailAccountId config)
            && (0 <? length createdContacts)) eqn:Hw.
  - cbv zeta in H.
    apply bind_inv in H as [(st1 & res & H1 & H)|(m & H1 & ->)];
      apply call_inv in H1 as [Hr1 Hc1].
    + destruct (success res) eqn:Hs;
        apply update_inv in H as (-> & Hr & Hc).
      * exists [CallSequence (sequenceId config) (map id createdContacts)
                             (emailAccountId config) (Ret res)],
               (length (map id createdContacts)), [], None.
        repeat split.
        -- now apply enrollment_succeeded.
        -- now rewrite Hc, Hc1.
        -- rewrite Hr, Hr1, app_nil_r. reflexivity.
      * exists [CallSequence (sequenceId config) (map id createdContacts)
                             (emailAccountId config) (Ret res)],
               0, [StepError "sequence" (error res)], None.
        repeat split.
        -- now apply enrollment_failed.
        -- now rewrite Hc, Hc1.
        -- rewrite Hr, Hr1, H0. reflexivity.
    + destruct m as [| |message|message type_error];
        [eexists; split; [exact Hc1|reflexivity]..| |
         eexists; split; [exact Hc1|reflexivity]].
      exists [CallSequence (sequenceId config) (map id createdContacts)
                           (emailAccountId config) (Throw (Value message))],
             0, [], (Some message).
      repeat split.
      * now apply enrollment_threw.
      * exact Hc1.
      * rewrite Hr1, app_nil_r. destruct (results st); simpl in *. now subst.
  - unfold ret in H. inversion H; subst.
    exists [], 0, [], None. repeat split.
    + now apply enrollment_skipped.
    + now rewrite app_nil_r.
    + rewrite app_nil_r. destruct (results st'); simpl in *. now subst.
Qed.

(** A log that ends with a call that threw a value that the [catch] block
    does not get through. *)
Lemma rejected_snoc (log : list (Call Filters)) c error type_error :
  thrown_by c = Some error ->
  caught error = Throw type_error ->
  Rejected (log ++ [c]) type_error.
Proof. intros H1 H2. exists log, c, error. auto. Qed.

Lemma body_run w st o :
  body C config (initial w) = (st, o) ->
  match o with
  | Ret r => counters r = results st /\ Run config (per_page config) (calls st) r
  | Throw error =>
      match caught error with
      | Ret message =>
          Run config (per_page config) (calls st)
              {| counters := results st; top_error := Some message |}
      | Throw type_error => Rejected (calls st) type_error
      end
  end.
Proof.
  unfold body. intros H.
  apply bind_inv in H as [(st1 & sr & H1 & H)|(m & H1 & ->)].
  2:{ apply call_inv in H1 as [Hr Hc]. rewrite Hr, Hc.
      destruct m as [| |message|message type_error];
        cbn [caught Logger.error message_of];
        try (eapply (rejected_snoc []); reflexivity).
      apply run_search_threw. }
  apply call_inv in H1 as [Hr1 Hc1]. cbn [initial results calls app] in Hr1, Hc1.
  destruct (negb (success sr) || (length (data sr) =? 0)) eqn:Hsr.
  { unfold bind, gets, ret in H. inversion H; subst. split; [reflexivity|].
    rewrite Hr1, Hc1. now apply run_no_leads. }
  apply update_then_inv in H as (st2 & Hr2 & Hc2 & H).
  rewrite Hr1 in Hr2. cbn in Hr2. rewrite Hc1 in Hc2.
  (* step 2 *)
  apply bind_inv in H as [(st3 & leadsToProcess & H3 & H)|(m & H3 & ->)];
    apply enrich_stage_run in H3; try (now rewrite Hr2).
  2:{ destruct H3 as (He & evsE & b & Hc3 & Hr3 & Ha).
      rewrite Hc3, Hr3, Hc2, Hr2.
      destruct m as [| |message|message type_error];
        cbn [caught Logger.error message_of];
        try (rewrite map_app, app_assoc; eapply rejected_snoc; reflexivity).
      now apply run_enrich_threw. }
  destruct H3 as (evsE & n & HE & Hc3 & Hr3).
  rewrite Hr2 in Hr3. cbn in Hr3. rewrite Hc2 in Hc3.
  (* step 3 *)
  apply bind_inv in H as [(st4 & createdContacts & H4 & H)|(m & H4 & ->)];
    pose proof (createLoop_spec leadsToProcess [] st3) as Hs;
    rewrite H4 in Hs.
  2:{ destruct Hs as (evsC & d & Hc4 & Hr4 & Ha & Hm & Hl).
      rewrite Hc4, Hr4, Hc3, Hr3. unfold after_creates.
      destruct m as [| |message|message type_error];
        cbn [caught Logger.error message_of];
        try (rewrite map_app, !app_assoc; eapply rejected_snoc; reflexivity).
      cbn.
      now apply (run_create_threw config (per_page config) sr evsE leadsToProcess). }
  destruct Hs as (evsC & Hc4 & Hr4 & Ha & Hm & Hcs).
  rewrite Hr3 in Hr4. unfold after_creates in Hr4. cbn in Hr4.
  rewrite Hc3 in Hc4. cbn in Hcs. subst createdContacts.
  (* step 4 *)
  apply bind_inv in H as [(st5 & [] & H5 & H)|(m & H5 & ->)];
    apply enroll_stage_run in H5; try (now rewrite Hr4).
  - destruct H5 as (seqs & added & seq_errors & top & Hen & Hc5 & Hr5 & Htop);
      rewrite Hr4 in Hr5; cbn in Hr5; rewrite Hc4 in Hc5.
    unfold bind, gets, ret in H. inversion H; subst. split; [reflexivity|].
    rewrite Hr5, Hc5. cbn. rewrite <- app_assoc.
    now apply (run_created config (per_page config) sr evsE leadsToProcess).
  - destruct m as [| |message|message type_error];
      cbn [caught Logger.error message_of];
      try (destruct H5 as (c & Hc5 & Hth); rewrite Hc5;
           eapply rejected_snoc; [exact Hth | reflexivity]).
    destruct H5 as (seqs & added & seq_errors & top & Hen & Hc5 & Hr5 & Htop);
      rewrite Hr4 in Hr5; cbn in Hr5; rewrite Hc4 in Hc5.
    subst top. rewrite Hr5, Hc5. cbn. rewrite <- app_assoc.
    now apply (run_created config (per_page config) sr evsE leadsToProcess).
Qed.

(** What [generateLeads] does.  It resolves, with the [results] object as
    it stands at that moment, along one of the paths of [Run], or it
    rejects, with a TypeError, after a call that threw a value that the
    [catch] block does not get through. *)
Lemma generateLeads_outcome w st o :
  generateLeads C config w = (st, o) ->
  match o with
  | Ret r => counters r = results st /\ Run config (per_page config) (calls st) r
  | Throw error =>
      exists type_error,
        error = Error type_error /\ Rejected (calls st) type_error
  end.
Proof.
  unfold generateLeads, try_catch. intros H.
  destruct (body C config (initial w)) as [st1 [r|m]] eqn:Hb;
    apply body_run in Hb.
  - inversion H; subst. exact Hb.
  - unfold handler in H.
    destruct (caught m) as [message|type_error].
    + unfold bind, gets, ret in H. inversion H; subst. split; [reflexivity|].
      exact Hb.
    + unfold throw in H. inversion H; subst. eauto.
Qed.

(** A run that resolves follows one of the paths of [Run]. *)
Lemma generateLeads_run w st r :
  generateLeads C config w = (st, Ret r) ->
  counters r = results st /\ Run config (per_page config) (calls st) r.
Proof. intros H. exact (generateLeads_outcome w st _ H). Qed.

End Loops.

End WorkflowFacts.

Module EnrichmentClaims.
Import Async Enrichment WorkflowScenario.

(** Within the cap, exactly one request goes to the transport. *)
Lemma bulk_within_cap_posts_once {World}
      (post : string -> BulkParams -> World -> World * outcome BulkResponse)
      peopleData e p (st : St World) :
  length peopleData <= 10 ->
  snd (fst (enrichPeopleBulk post peopleData e p st))
  = snd st ++ [("/people/bulk_match"%string,
                {| details := peopleData; reveal_personal_emails := e;
                   reveal_phone_number := p |})].
Proof.
  intros Hl. unfold enrichPeopleBulk, try_catch, bind, apiClient_post, ret, lift.
  destruct (Nat.ltb_spec 10 (length peopleData)) as [H|H]; [lia|].
  destruct st as [w log].
  destruct (post _ _ w) as [w' [response|message]]; [|reflexivity].
  destruct response as [|ms]; cbn [matches]; [reflexivity|].
  destruct (successCount ms); reflexivity.
Qed.

(** C8. For every input list of more than 10 records, [enrichPeopleBulk]
    rejects the batch before anything is sent: the world behind the
    transport and the list of transport calls are left as they were, and
    the function returns [{success: false, error, data: []}] with the
    message of its own cap check. *)
Theorem bulk_cap_checked_before_dispatch {World}
        (post : string -> BulkParams -> World -> World * outcome BulkResponse)
        peopleData revealPersonalEmails revealPhoneNumber (st : St World) :
  10 < length peopleData ->
  enrichPeopleBulk post peopleData revealPersonalEmails revealPhoneNumber st
  = (st, Ret {| success := false;
                error := Some "Bulk enrichment supports maximum 10 people per request"%string;
                data := [] |}).
Proof.
  intros Hl. unfold enrichPeopleBulk, try_catch, bind, throw, ret.
  destruct (Nat.ltb_spec 10 (length peopleData)) as [H|H]; [reflexivity|lia].
Qed.

Lemma bulk_cap_checked_before_dispatch_witness :
  enrichPeopleBulk counting_post eleven false false (0, [])
  = ((0, []),
     Ret {| success := false;
            error := Some "Bulk enrichment supports maximum 10 people per request"%string;
            data := [] |}).
Proof.
  apply (bulk_cap_checked_before_dispatch counting_post eleven false false (0, [])).
  unfold eleven. rewrite length_map, length_seq. lia.
Defined.

End EnrichmentClaims.

Module WorkflowClaims.
Import Async Workflow WorkflowFacts WorkflowScenario.

(** *** Pure facts about the events of a run *)

Lemma count_returned_all {E A B} (evs : list (A * outcome_of E B)) :
  all_returned evs = true ->
  count (fun e => is_returned (snd e)) evs = length evs.
Proof.
  unfold all_returned, count.
  induction evs as [|[a r] evs IH]; [reflexivity|].
  destruct r; simpl; [|discriminate]. intros H. now rewrite IH.
Qed.

Lemma enrolled_no_lead_error {Filters} (config : Config Filters)
      cs seqs added seq_errors top :
  Enrolled config cs seqs added seq_errors top ->
  count is_lead_error seq_errors = 0
  /\ errors_of_calls seqs = seq_errors
  /\ create_calls seqs = []
  /\ enrich_calls seqs = []
  /\ added <= length cs.
Proof.
  intros H. inversion H; subst; cbn; rewrite ?length_map; repeat split; auto; try lia.
  - now rewrite H1.
  - now rewrite H1.
Qed.

(** The persons kept from enrichment are those of the responses that
    came back with [success: true]. *)
Lemma enriched_leads_successful evsE :
  enriched_leads evsE
  = flat_map (fun res => persons (data res)) (successful_responses evsE).
Proof.
  unfold enriched_leads, successful_responses.
  induction evsE as [|[b r] evsE IH]; [reflexivity|].
  cbn [flat_map snd]. rewrite flat_map_app, IH.
  destruct r as [res|m]; simpl; [|reflexivity].
  destruct (success res); simpl; [now rewrite app_nil_r | reflexivity].
Qed.

Lemma enriched_leads_bounded evsE :
  answers_within_batch evsE ->
  length (enriched_leads evsE) <= length (concat (map fst evsE)).
Proof.
  unfold enriched_leads.
  induction 1 as [|[b r] evsE Hb _ IH]; [reflexivity|].
  cbn [flat_map map concat fst snd] in *. rewrite !length_app. lia.
Qed.

Lemma enriched_within_search {Filters} (config : Config Filters)
      leads evsE leadsToProcess n :
  Enriched config leads evsE leadsToProcess n ->
  answers_within_batch evsE ->
  n <= length leads.
Proof.
  intros H Hb. inversion H; subst; [lia|].
  apply enriched_leads_bounded in Hb.
  rewrite H1, <- concat_map, length_map in Hb.
  unfold Batch.batches in Hb.
  rewrite BatchFacts.concat_batches_from in Hb by lia.
  exact Hb.
Qed.

Lemma length_creation_errors (evs : list CreateEvent) :
  length (creation_errors evs) = count (fun e => is_creation_failure (snd e)) evs.
Proof.
  unfold creation_errors, creation_error, count.
  induction evs as [|[d r] evs IH]; [reflexivity|].
  destruct r as [res|m]; simpl; [|exact IH].
  destruct (acknowledged res); simpl; auto.
Qed.

Lemma enrolled_sequence_calls {Filters} (config : Config Filters)
      cs seqs added seq_errors top :
  Enrolled config cs seqs added seq_errors top ->
  length seq_errors = count is_failure (sequence_calls seqs)
  /\ count is_sequence_error seq_errors = count is_failure (sequence_calls seqs)
  /\ length (sequence_calls seqs) <= 1.
Proof.
  intros H. inversion H; subst; cbn; auto.
  - now rewrite H1.
  - now rewrite H1.
Qed.

Ltac run_cases HR :=
  inversion HR as
    [ m
    | sr Hsr
    | sr evsE b m Hsr He Ha
    | sr evsE leadsToProcess n evsC d m Hsr HE Ha Hm Hl
    | sr evsE leadsToProcess n evsC seqs added seq_errors top Hsr HE Ha Hm Hen ];
  subst; cbn [counters searched enriched created addedToSequence errors top_error];
  try (let Hnl := fresh "Hnl" in
       let Hse := fresh "Hse" in
       let Hsc := fresh "Hsc" in
       let Hsn := fresh "Hsn" in
       let Hadd := fresh "Hadd" in
       destruct (enrolled_no_lead_error _ _ _ _ _ _ Hen)
         as (Hnl & Hse & Hsc & Hsn & Hadd);
       autorewrite with obs; rewrite ?Hse, ?Hsc, ?Hsn);
  autorewrite with obs.


Section Claims.
Context {Filters World : Type}.
Variable C : Collaborators Filters World.
Variable config : Config Filters.



(** C5, amended. For every run of [generateLeads] that resolves and every
    behaviour of the collaborators, where the candidates submitted to the
    create stage are [leadsToProcess]: the people gathered from the
    enrichment responses when enrichment is on, and the people found by the
    search when it is off.  [addedToSequence <= created]; [created] plus the
    number of per-candidate creation-failure entries equals the number of
    creation calls that returned; the creation calls are made for the
    candidates, in order, one call each, from the first one on; the
    candidates are as many as the counter says, [enriched] or [searched],
    whenever a creation call was made or the run ended without a top-level
    error; whenever the run ends without a top-level error, every candidate
    got its creation call and [created] plus the number of creation-failure
    entries equals the number of candidates; and [searched >= enriched]
    provided no bulk-enrichment response holds more matched persons than
    the chunk it answers. *)
Theorem result_invariants (w : World) st r :
  generateLeads C config w = (st, Ret r) ->
  let candidates := if enrichData config
                    then enriched (counters r)
                    else searched (counters r) in
  let leadsToProcess := if enrichData config
                        then enriched_leads (enrich_calls (calls st))
                        else found_leads (calls st) in
  let submitted := map fst (create_calls (calls st)) in
  addedToSequence (counters r) <= created (counters r)
  /\ created (counters r) + count is_lead_error (errors (counters r))
     = count (fun e => is_returned (snd e)) (create_calls (calls st))
  /\ submitted
     = map (contactData_of config) (firstn (length submitted) leadsToProcess)
  /\ length submitted <= candidates
  /\ (submitted <> [] \/ top_error r = None ->
      length leadsToProcess = candidates)
  /\ (top_error r = None ->
      submitted = map (contactData_of config) leadsToProcess
      /\ created (counters r) + count is_lead_error (errors (counters r))
         = candidates)
  /\ (answers_within_batch (enrich_calls (calls st)) ->
      enriched (counters r) <= searched (counters r)).
Proof.
  intros H.
  destruct (generateLeads_run C config w st _ H) as (_ & HR).
  assert (Hcand : forall sr evsE leadsToProcess n,
             negb (success sr) || (length (data sr) =? 0) = false ->
             Enriched config (data sr) evsE leadsToProcess n ->
             leadsToProcess
             = (if enrichData config then enriched_leads evsE
                else if success sr then data sr else [])
             /\ length leadsToProcess
                = (if enrichData config then n else length (data sr))).
  { intros sr evsE leads n Hsr HE.
    apply orb_false_iff in Hsr as [Hs _]. apply negb_false_iff in Hs.
    inversion HE as [Hoff|evs Hon]; subst.
    - now rewrite Hoff, Hs.
    - now rewrite Hon. }
  run_cases HR; cbv zeta; cbn [found_leads]; rewrite ?length_map.
  - cbn. destruct (enrichData config); repeat split; auto; try lia; discriminate.
  - assert (E : (if enrichData config
                 then @nil Lead.t
                 else if success sr then data sr else []) = []).
    { destruct (enrichData config); [reflexivity|].
      destruct (success sr); [|reflexivity].
      cbn in Hsr. destruct (data sr); [reflexivity | discriminate]. }
    cbn [enrich_calls create_calls enriched_leads flat_map map firstn length].
    rewrite E. cbn.
    destruct (enrichData config); repeat split; auto.
  - rewrite He. cbn.
    split; [lia|]. split; [reflexivity|]. split; [reflexivity|].
    split; [lia|]. split; [intros [E|E]; [now elim E | discriminate]|].
    split; [discriminate|]. intros _. lia.
  - pose proof (created_plus_failures evsC Ha) as Hp.
    destruct (Hcand _ _ _ _ Hsr HE) as (Hleads & Hlen).
    rewrite <- Hleads.
    rewrite count_app, (count_returned_all evsC Ha).
    rewrite length_app. cbn [length]. rewrite Nat.add_1_r.
    split; [lia|]. split; [cbn; lia|].
    split; [exact Hm|].
    split; [lia|]. split; [intros _; exact Hlen|].
    split; [discriminate|].
    intros Hb. eapply enriched_within_search; eauto.
  - pose proof (created_plus_failures evsC Ha) as Hp.
    destruct (Hcand _ _ _ _ Hsr HE) as (Hleads & Hlen).
    rewrite <- Hleads.
    assert (Hl : length evsC = length leadsToProcess).
    { rewrite <- (length_map fst evsC), Hm. apply length_map. }
    rewrite count_app, Hnl, (count_returned_all evsC Ha).
    rewrite length_created_contacts in Hadd.
    split; [exact Hadd|]. split; [lia|].
    split; [rewrite Hl, firstn_all; exact Hm|].
    split; [lia|]. split; [intros _; exact Hlen|].
    split; [intros _; split; [exact Hm | lia]|].
    intros Hb. eapply enriched_within_search; eauto.
Qed.

(** C7. For every run in which the sequence-enrollment call returns
    failure (so that contact creation had succeeded for at least one
    candidate), the result has [created] equal to the number of
    acknowledged creations, [addedToSequence = 0], no top-level error,
    and exactly one error entry with subject ["sequence"]: the last entry
    of [errors], carrying the error of the enrollment result, after the
    per-candidate creation failures. *)
Theorem enrollment_failure_recorded (w : World) st r res :
  generateLeads C config w = (st, Ret r) ->
  In (Ret res) (sequence_calls (calls st)) ->
  success res = false ->
  created (counters r) = n_created (create_calls (calls st))
  /\ 1 <= created (counters r)
  /\ addedToSequence (counters r) = 0
  /\ count is_sequence_error (errors (counters r)) = 1
  /\ errors (counters r)
     = creation_errors (create_calls (calls st))
       ++ [StepError "sequence" (error res)]
  /\ top_error r = None.
Proof.
  intros H Hin Hres.
  destruct (generateLeads_run C config w st _ H) as (_ & HR).
  set (log := calls st) in *. clearbody log.
  run_cases HR; autorewrite with obs in Hin; try contradiction.
  assert (Hw : wants_sequence config (created_contacts evsC) = true
               -> 1 <= n_created evsC).
  { unfold wants_sequence. intros Hw.
    apply andb_true_iff in Hw as [_ Hw]. apply Nat.ltb_lt in Hw.
    now rewrite length_created_contacts in Hw. }
  inversion Hen as [Hc|m Hc|res' Hc Hs|res' Hc Hs]; subst;
    cbn in Hin; try contradiction;
    destruct Hin as [Hin|[]]; try discriminate;
    injection Hin as ->; try congruence.
  rewrite count_app, creation_errors_are_lead_errors.
  repeat split; auto.
Qed.

(** C10. For every run with enrichment enabled: the error entries of
    the result are exactly those of the failed creations and of a failed
    enrollment, so that a bulk-enrichment call that returns
    [{success: false}] adds none; the candidates handed to the create
    stage are, in order, the persons returned by the chunks that came back
    with [success: true] (all of them when the run ends without a
    top-level error), so that nobody of a failed chunk is among them; and
    [enriched] counts exactly these persons, unless the run was cut short
    before the count was taken. *)
Theorem failed_chunk_dropped_silently (w : World) st r :
  generateLeads C config w = (st, Ret r) ->
  enrichData config = true ->
  length (errors (counters r))
  = count (fun e => is_creation_failure (snd e)) (create_calls (calls st))
    + count is_failure (sequence_calls (calls st))
  /\ (exists rest,
        map (contactData_of config)
            (flat_map (fun res => persons (data res))
                      (successful_responses (enrich_calls (calls st))))
        = map fst (create_calls (calls st)) ++ rest
        /\ (top_error r = None -> rest = []))
  /\ (enriched (counters r)
      = length (flat_map (fun res => persons (data res))
                         (successful_responses (enrich_calls (calls st))))
      \/ (enriched (counters r) = 0 /\ top_error r <> None)).
Proof.
  intros H Henabled.
  destruct (generateLeads_run C config w st _ H) as (_ & HR).
  run_cases HR; rewrite <- ?enriched_leads_successful.
  - split; [reflexivity|]. split; [exists []; auto | left; reflexivity].
  - split; [reflexivity|]. split; [exists []; auto | left; reflexivity].
  - split; [reflexivity|]. split.
    + eexists. split; [reflexivity|discriminate].
    + right. split; [reflexivity|discriminate].
  - inversion HE; subst; [congruence|].
    rewrite length_creation_errors, count_app. split; [cbn; lia|]. split.
    + exists (map (contactData_of config)
                  (skipn (S (length evsC)) (enriched_leads evsE))).
      split; [|discriminate].
      rewrite Hm, <- map_app. now rewrite firstn_skipn.
    + now left.
  - inversion HE; subst; [congruence|].
    destruct (enrolled_sequence_calls _ _ _ _ _ _ Hen) as (Hlen & _ & _).
    rewrite length_app, length_creation_errors, Hlen. split; [reflexivity|].
    split.
    + exists []. rewrite app_nil_r. split; [now rewrite Hm | reflexivity].
    + now left.
Qed.

(** The chunks sent to the enrichment collaborator in a run that gets
    through step 2 are the batches of the search result, in order. *)
Lemma enrichment_calls_are_batches (w : World) st r :
  generateLeads C config w = (st, Ret r) ->
  enrichData config = true ->
  top_error r = None ->
  searched (counters r) <> 0 ->
  exists sr rest,
    calls st = CallSearch (searchFilters config, per_page config) (Ret sr) :: rest
    /\ map fst (enrich_calls (calls st))
       = map (map batchData_of) (Batch.batches (data sr)).
Proof.
  intros H Henabled Htop Hn.
  destruct (generateLeads_run C config w st _ H) as (_ & HR).
  run_cases HR; try discriminate; try (now cbn in Hn).
  inversion HE; subst; [congruence|].
  eexists _, _. split; [reflexivity|].
  autorewrite with obs. rewrite ?Hsn. autorewrite with obs. assumption.
Qed.

End Claims.

(** *** The claims on concrete runs *)

Lemma generous_run_eq :
  generous_run = (fst generous_run, Ret generous_result).
Proof. vm_compute. reflexivity. Qed.

Lemma over_enriched_run_eq :
  over_enriched_run = (fst over_enriched_run, Ret over_enriched_result).
Proof. vm_compute. reflexivity. Qed.



(** C5, as stated, fails, on two counts.  First run: the search finds two
    candidates, the one enrichment call answers with three matched persons
    and every creation is acknowledged; the run ends without any error and
    with [enriched = 3 > searched = 2].  Second run: the same, except that
    the first creation is acknowledged and the second one throws; three
    candidates were submitted to the create stage, two creation calls were
    made, and the run ends with [created = 1] and no creation failure
    recorded. *)
Lemma generous_runs_break_invariants :
  (snd over_enriched_run = Ret over_enriched_result
   /\ top_error over_enriched_result = None
   /\ length (enrich_calls (calls (fst over_enriched_run))) = 1
   /\ ~ (searched (counters over_enriched_result)
         >= enriched (counters over_enriched_result)))
  /\ (snd generous_run = Ret generous_result
      /\ enrichData with_enrichment = true
      /\ enriched_leads (enrich_calls (calls (fst generous_run)))
         = [ada; alan; grace]
      /\ length (create_calls (calls (fst generous_run))) = 2
      /\ created (counters generous_result)
         + count is_lead_error (errors (counters generous_result))
         = 1).
Proof.
  assert (E1 : length (enrich_calls (calls (fst over_enriched_run))) = 1)
    by (vm_compute; reflexivity).
  assert (E2 : length (create_calls (calls (fst generous_run))) = 2)
    by (vm_compute; reflexivity).
  assert (E3 : enriched_leads (enrich_calls (calls (fst generous_run)))
               = [ada; alan; grace])
    by (vm_compute; reflexivity).
  split.
  - split; [now rewrite over_enriched_run_eq|].
    split; [reflexivity|]. split; [exact E1|]. cbn. lia.
  - split; [now rewrite generous_run_eq|].
    split; [reflexivity|]. split; [exact E3|].
    split; [exact E2|]. reflexivity.
Qed.

Lemma result_invariants_witness :
  generateLeads second_creation_refused without_enrichment 0
  = (fst second_creation_refused_run, Ret second_creation_refused_result)
  /\ map fst (create_calls (calls (fst second_creation_refused_run)))
     = map (contactData_of without_enrichment) [ada; alan]
  /\ created (counters second_creation_refused_result)
     + count is_lead_error (errors (counters second_creation_refused_result))
     = searched (counters second_creation_refused_result).
Proof.
  assert (H : generateLeads second_creation_refused without_enrichment 0
              = (fst second_creation_refused_run,
                 Ret second_creation_refused_result))
    by (vm_compute; reflexivity).
  split; [exact H|].
  pose proof (result_invariants second_creation_refused without_enrichment 0 _ _ H)
    as (_ & _ & _ & _ & _ & H6 & _).
  exact (H6 eq_refl).
Defined.

Lemma enrollment_failure_recorded_witness :
  generateLeads sequence_refused with_sequence 0
  = (fst sequence_refused_run, Ret sequence_refused_result)
  /\ addedToSequence (counters sequence_refused_result) = 0
  /\ count is_sequence_error (errors (counters sequence_refused_result)) = 1.
Proof.
  assert (H : generateLeads sequence_refused with_sequence 0
              = (fst sequence_refused_run, Ret sequence_refused_result))
    by (vm_compute; reflexivity).
  split; [exact H|].
  assert (Hin : In (Ret {| success := false;
                           error := Some "Sequence not found"%string;
                           data := tt |})
                   (sequence_calls (calls (fst sequence_refused_run))))
    by (vm_compute; left; reflexivity).
  pose proof (enrollment_failure_recorded sequence_refused with_sequence 0 _ _ _
                H Hin eq_refl) as (_ & _ & H3 & H4 & _).
  split; [exact H3 | exact H4].
Defined.

Lemma failed_chunk_dropped_silently_witness :
  generateLeads enrichment_down with_enrichment 0
  = (fst enrichment_down_run, Ret enrichment_down_result)
  /\ length (errors (counters enrichment_down_result))
     = count (fun e => is_creation_failure (snd e))
             (create_calls (calls (fst enrichment_down_run)))
       + count is_failure (sequence_calls (calls (fst enrichment_down_run))).
Proof.
  assert (H : generateLeads enrichment_down with_enrichment 0
              = (fst enrichment_down_run, Ret enrichment_down_result))
    by (vm_compute; reflexivity).
  split; [exact H|].
  exact (proj1 (failed_chunk_dropped_silently enrichment_down with_enrichment 0 _ _
                  H eq_refl)).
Defined.

End WorkflowClaims.

(* ===================================================================== *)
(** * Part III: further properties of the same code                        *)
(* ===================================================================== *)

Module BatchMore.
Import Batch BatchFacts.

Lemma batches_slices {A} (l : list A) :
  batches l
  = map (fun k => slice l (k * 10) (k * 10 + 10)) (seq 0 (ceil_div (length l) 10)).
Proof.
  unfold batches. rewrite batches_from_slices by lia.
  rewrite Nat.sub_0_r. reflexivity.
Qed.

Lemma ceil_div_bounds n : n <= 10 * ceil_div n 10 < n + 10.
Proof.
  unfold ceil_div. simpl (10 - 1).
  pose proof (Nat.div_mod_eq (n + 9) 10).
  pose proof (Nat.mod_upper_bound (n + 9) 10). lia.
Qed.

Lemma length_slice10 {A} (l : list A) i :
  length (slice l i (i + 10)) = Nat.min 10 (length l - i).
Proof.
  unfold slice. replace (i + 10 - i) with 10 by lia.
  now rewrite length_firstn, length_skipn.
Qed.

(** X1. Chunk sizes. An empty list gives no chunk at all; every chunk holds
    between 1 and 10 items; every chunk but the last holds exactly 10, and
    the last one holds what is left, [L - 10 k]. *)
Theorem batches_full_but_last {A} (l : list A) :
  (batches l = [] <-> l = [])
  /\ forall k c,
       nth_error (batches l) k = Some c ->
       1 <= length c <= 10
       /\ (S k < length (batches l) -> length c = 10)
       /\ (S k = length (batches l) -> length c = length l - 10 * k).
Proof.
  pose proof (ceil_div_bounds (length l)) as Hb.
  assert (Hn : length (batches l) = ceil_div (length l) 10).
  { rewrite batches_slices, length_map, length_seq. reflexivity. }
  split.
  - split; intros H.
    + rewrite H in Hn. cbn [length] in Hn. rewrite <- Hn in Hb.
      destruct l; [reflexivity | cbn [length] in Hb; lia].
    + subst l. reflexivity.
  - intros k c Hk.
    assert (Hlt : k < length (batches l)).
    { apply nth_error_Some. congruence. }
    rewrite batches_slices in Hk.
    rewrite nth_error_map in Hk.
    rewrite nth_error_seq in Hk.
    rewrite Hn in Hlt.
    destruct (Nat.ltb_spec k (ceil_div (length l) 10)) as [_|]; [|lia].
    simpl in Hk. injection Hk as <-.
    rewrite length_slice10, Hn. lia.
Qed.

Lemma batches_full_but_last_witness :
  1 <= length [21; 22; 23; 24; 25] <= 10
  /\ (S 2 = length (batches (seq 1 25)) -> length [21; 22; 23; 24; 25] = 25 - 10 * 2).
Proof.
  destruct (proj2 (batches_full_but_last (seq 1 25)) 2 [21; 22; 23; 24; 25] eq_refl)
    as (H1 & _ & H3).
  split; [exact H1 | exact H3].
Defined.

End BatchMore.

Module RateLimiterMore.
Import RateLimiter RateLimiterScenario RateLimiterFacts.

Lemma minInterval_pos R : (1 <= R)%Z -> (0 < minInterval R)%Q.
Proof.
  intros HR. unfold minInterval.
  apply Qlt_shift_div_l.
  - change 0%Q with (inject_Z 0). rewrite <- Zlt_Qlt. lia.
  - rewrite Qmult_0_l. change 0%Q with (inject_Z 0). rewrite <- Zlt_Qlt. lia.
Qed.

(** When the rate limit divides 60000 the interval is a whole number of
    milliseconds. *)
Lemma minInterval_whole R :
  (1 <= R)%Z -> (60000 mod R = 0)%Z ->
  (minInterval R == inject_Z (60000 / R))%Q.
Proof.
  intros HR Hdiv. unfold minInterval.
  assert (E : (60 * 1000 = R * (60000 / R))%Z).
  { change (60 * 1000)%Z with 60000%Z.
    pose proof (Z.div_mod 60000 R ltac:(lia)) as Hdm.
    rewrite Hdiv, Z.add_0_r in Hdm. exact Hdm. }
  rewrite E, inject_Z_mult. field.
  intros H. unfold Qeq in H. simpl in H. lia.
Qed.

(** X2. How long [_rateLimit] sleeps, for a rate limit [R >= 1] that
    divides 60000, as the default of 10 does, and for timestamps as
    [Date.now()] gives them: there the interval and all the numbers computed
    are whole numbers that JavaScript holds exactly.  When [_rateLimit]
    sleeps, the delay is a positive whole number of milliseconds and ends
    exactly one interval after the recorded timestamp, so it is at most one
    interval unless the clock went back behind that timestamp; when it does
    not sleep, a full interval has already elapsed. *)
Theorem check_delay_bounds now last R :
  (1 <= R)%Z ->
  (60000 mod R = 0)%Z ->
  (0 <= last < 2 ^ 53)%Z ->
  (0 <= now < 2 ^ 53)%Z ->
  match check now last R with
  | Some delay =>
      (0 < delay)%Q
      /\ (delay == inject_Z (last + 60000 / R - now))%Q
      /\ (inject_Z now + delay == inject_Z last + inject_Z 60000 / inject_Z R)%Q
      /\ ((last <= now)%Z -> (delay <= inject_Z 60000 / inject_Z R)%Q)
  | None =>
      (inject_Z 60000 / inject_Z R <= inject_Z (now - last))%Q
      /\ (last < now)%Z
  end.
Proof.
  intros HR Hdiv _ _. pose proof (minInterval_pos R HR) as Hpos.
  pose proof (minInterval_whole R HR Hdiv) as Hwhole.
  change (inject_Z 60000 / inject_Z R)%Q with (minInterval R).
  unfold check.
  destruct (Qle_bool (minInterval R) (inject_Z (now - last))) eqn:Hle; simpl.
  - apply Qle_bool_iff in Hle. split; [exact Hle|].
    assert (H : (0 < inject_Z (now - last))%Q) by (eapply Qlt_le_trans; eauto).
    change 0%Q with (inject_Z 0) in H. rewrite <- Zlt_Qlt in H. lia.
  - assert (Hlt : (inject_Z (now - last) < minInterval R)%Q).
    { apply Qnot_le_lt. intros H. apply Qle_bool_iff in H. congruence. }
    rewrite inject_Z_sub in *. split; [lra|]. split; [|split].
    + rewrite Hwhole, inject_Z_sub, inject_Z_plus. ring.
    + ring.
    + intros Hn. rewrite Zle_Qle in Hn. lra.
Qed.

Lemma check_delay_bounds_witness :
  match check 1700000002500 1700000000000 10 with
  | Some delay =>
      (0 < delay)%Q
      /\ (delay == inject_Z (1700000000000 + 60000 / 10 - 1700000002500))%Q
      /\ (inject_Z 1700000002500 + delay
          == inject_Z 1700000000000 + inject_Z 60000 / inject_Z 10)%Q
      /\ ((1700000000000 <= 1700000002500)%Z
          -> (delay <= inject_Z 60000 / inject_Z 10)%Q)
  | None =>
      (inject_Z 60000 / inject_Z 10 <= inject_Z (1700000002500 - 1700000000000))%Q
      /\ (1700000000000 < 1700000002500)%Z
  end.
Proof.
  apply (check_delay_bounds 1700000002500 1700000000000 10);
    [lia | reflexivity | lia | lia].
Defined.

End RateLimiterMore.

Module TransportMore.
Import Transport TransportTrace TransportFacts TransportScenario.

Section Shape.
Context {Data : Type}.
Implicit Types (evs pre : list (Event Data)) (res : result Data).

Lemma n_calls_app evs1 evs2 : n_calls (evs1 ++ evs2) = n_calls evs1 + n_calls evs2.
Proof. unfold n_calls. now rewrite filter_app, length_app. Qed.

Lemma total_backoff_app evs1 evs2 :
  total_backoff (evs1 ++ evs2) = (total_backoff evs1 + total_backoff evs2)%Z.
Proof.
  induction evs1 as [|e evs1 IH]; simpl; [reflexivity|].
  destruct e; rewrite IH; lia.
Qed.

(** Where the loop ends: either it never ran, or its last event is the
    call of some iteration [f], before which all calls failed and could be
    retried. *)
Lemma shape_outcome retries a lastError evs res :
  run_shape retries a lastError evs res ->
  (retries <= a /\ evs = [] /\ res = Thrown lastError)
  \/ (exists f r pre,
        a <= f < retries
        /\ evs = pre ++ [EvCall f r]
        /\ n_calls evs + a = S f
        /\ total_backoff evs = ((2 ^ Z.of_nat f - 2 ^ Z.of_nat a) * 1000)%Z
        /\ forallb is_retryable_failure (filter is_call pre) = true
        /\ match r with
           | inl d => res = Returned d
           | inr error =>
               res = Thrown (Some error)
               /\ (is_client_error error = false -> S f = retries)
           end).
Proof.
  induction 1 as [a le Ha|a le d Ha|a le error Ha Hc|a le error evs res Ha Hc Hs IH
                 |a le error Ha Hc].
  - left. auto.
  - right. exists a, (inl d), []. cbn. repeat split; auto; lia.
  - right. exists a, (inr error), []. cbn. repeat split; auto; try lia. congruence.
  - right. destruct IH as [(Hle & _)|(f & r & pre & Hf & -> & Hn & Ht & Hp & Hr)];
      [lia|].
    exists f, r, (EvCall a (inr error) :: EvBackoff (backoff_delay a) :: pre).
    repeat split; try lia.
    + unfold n_calls in *. cbn. lia.
    + cbn [total_backoff]. rewrite Ht. unfold backoff_delay.
      replace (Z.of_nat (a + 1)) with (Z.of_nat a + 1)%Z by lia.
      rewrite Z.pow_add_r by lia. lia.
    + cbn. rewrite Hc. exact Hp.
    + exact Hr.
  - right. exists a, (inr error), []. cbn. repeat split; auto; lia.
Qed.

End Shape.

Section Client.
Context {Payload Data World : Type}.
Variable env : Env Payload Data World.

(** X4. Returning. When [request] returns data, it is the data of the first
    physical call that succeeded, which is also the last call made: of the
    [a + 1] calls issued, the first [a] failed in a way that allows a retry,
    and the operation slept [(2^a - 1) * 1000] ms in backoff in total. *)
Theorem request_returns_first_success method endpoint data retries st st' evs d :
  request env method endpoint data retries st = (st', evs, Returned d) ->
  exists a pre,
    a < retries
    /\ evs = EvAcquire :: pre ++ [EvCall a (inl d)]
    /\ n_calls evs = S a
    /\ forallb is_retryable_failure (filter is_call pre) = true
    /\ total_backoff evs = ((2 ^ Z.of_nat a - 1) * 1000)%Z.
Proof.
  intros H.
  destruct (request_shape env _ _ _ _ _ _ _ _ H) as (rest & -> & Hs).
  destruct (shape_outcome _ _ _ _ _ Hs)
    as [(_ & _ & E)|(f & r & pre & Hf & -> & Hn & Ht & Hp & Hr)]; [discriminate|].
  destruct r as [d'|error]; [|destruct Hr; discriminate].
  injection Hr as <-.
  exists f, pre.
  split; [lia|]. split; [reflexivity|].
  split; [unfold n_calls in *; cbn; lia|]. split; [exact Hp|].
  cbn [total_backoff]. rewrite Ht.
  replace (2 ^ Z.of_nat 0)%Z with 1%Z by reflexivity. reflexivity.
Qed.

(** X5. Giving up. When [request] throws an error that is not a client error,
    the whole budget was spent: exactly [retries] physical calls were made,
    all of them failed in a way that allows a retry, the error thrown is
    that of the last call, and the operation slept
    [(2^(retries-1) - 1) * 1000] ms in backoff in total (3000 ms with the
    default budget of 3). *)
Theorem request_gives_up_after_budget method endpoint data retries st st' evs error :
  request env method endpoint data retries st = (st', evs, Thrown (Some error)) ->
  is_client_error error = false ->
  n_calls evs = retries
  /\ (exists pre, evs = pre ++ [EvCall (retries - 1) (inr error)])
  /\ forallb is_retryable_failure (filter is_call evs) = true
  /\ total_backoff evs = ((2 ^ Z.of_nat (retries - 1) - 1) * 1000)%Z.
Proof.
  intros H Hc.
  destruct (request_shape env _ _ _ _ _ _ _ _ H) as (rest & -> & Hs).
  destruct (shape_outcome _ _ _ _ _ Hs)
    as [(_ & _ & E)|(f & r & pre & Hf & -> & Hn & Ht & Hp & Hr)]; [discriminate|].
  destruct r as [d'|error']; [discriminate|].
  destruct Hr as [E Hlast]. injection E as <-. specialize (Hlast Hc).
  replace (retries - 1) with f by lia.
  split; [unfold n_calls in *; cbn; lia|].
  split; [exists (EvAcquire :: pre); reflexivity|].
  split.
  - cbn. rewrite filter_app, forallb_app, Hp. cbn. now rewrite Hc.
  - cbn [total_backoff]. rewrite Ht.
    replace (2 ^ Z.of_nat 0)%Z with 1%Z by reflexivity. reflexivity.
Qed.

(** X6. No budget. [request] throws [undefined] exactly when [retries] is 0;
    it then makes no physical call at all, although it has gone through the
    rate limiter, whose timestamp it has moved. *)
Theorem request_without_budget method endpoint data retries st st' evs res :
  request env method endpoint data retries st = (st', evs, res) ->
  (res = Thrown None <-> retries = 0)
  /\ (retries = 0 -> evs = [EvAcquire] /\ st' = _rateLimit env st).
Proof.
  intros H.
  destruct (request_shape env _ _ _ _ _ _ _ _ H) as (rest & -> & Hs).
  split; [split|].
  - intros ->.
    destruct (shape_outcome _ _ _ _ _ Hs)
      as [(Hle & _)|(f & r & pre & Hf & _ & _ & _ & _ & Hr)]; [lia|].
    destruct r; [discriminate | destruct Hr; discriminate].
  - intros ->. inversion Hs; subst; try lia. reflexivity.
  - intros ->. unfold request in H. cbn in H. now inversion H.
Qed.

(** The retry loop never touches the client object. *)
Lemma attempts_client fuel : forall retries config attempt lastError st st' evs res,
  attempts env fuel retries config attempt lastError st = (st', evs, res) ->
  snd st' = snd st.
Proof.
  induction fuel as [|fuel IH]; intros retries config attempt lastError st st' evs res H;
    cbn [attempts] in H.
  - now inversion H.
  - destruct (attempt <? retries); [|now inversion H].
    destruct st as [w c].
    destruct (axios env config w) as [w1 [d|error]]; [now inversion H|].
    destruct (is_client_error error); [now inversion H|].
    destruct (attempt <? retries - 1);
      match type of H with
      | context [attempts env fuel ?r ?cfg ?a ?le ?s] =>
          destruct (attempts env fuel r cfg a le s) as [[st1 evs1] res1] eqn:Hrec
      end;
      apply IH in Hrec; inversion H; subst; exact Hrec.
Qed.

(** X7. What [request] leaves in the client. The base URL, the key and the
    rate limit are never changed, and [lastRequestTime] is the time at which
    the rate limiter let the operation through: the physical calls and the
    backoff sleeps that followed do not move it. *)
Theorem request_keeps_client method endpoint data retries st st' evs res :
  request env method endpoint data retries st = (st', evs, res) ->
  baseURL (snd st') = baseURL (snd st)
  /\ apiKey (snd st') = apiKey (snd st)
  /\ rateLimit (snd st') = rateLimit (snd st)
  /\ lastRequestTime (snd st') = now env (fst (_rateLimit env st)).
Proof.
  unfold request. intros H.
  match type of H with
  | context [attempts env ?f ?r ?cfg ?a ?le ?s] =>
      destruct (attempts env f r cfg a le s) as [[st1 evs1] res1] eqn:Hrec
  end.
  apply attempts_client in Hrec. inversion H; subst. rewrite Hrec.
  destruct st as [w c]. cbn. auto.
Qed.

End Client.

Lemma request_returns_first_success_witness :
  exists a pre,
    a < 3
    /\ [EvAcquire; EvCall 0 (inr server_error); EvBackoff 1000;
        EvCall 1 (@inl string _ "ok"%string)]
       = EvAcquire :: pre ++ [EvCall a (inl "ok"%string)].
Proof.
  destruct (request_returns_first_success
              (scripted [inr server_error; inl "ok"%string])
              "GET" "/people/match" None 3 (w0, client0) _ _ "ok"%string eq_refl)
    as (a & pre & Ha & E & _).
  exists a, pre. split; [exact Ha | exact E].
Defined.

Lemma request_gives_up_after_budget_witness :
  n_calls [EvAcquire; EvCall 0 (@inr string _ server_error); EvBackoff 1000;
           EvCall 1 (inr server_error); EvBackoff 2000;
           EvCall 2 (inr server_error)] = 3
  /\ total_backoff [EvAcquire; EvCall 0 (@inr string _ server_error);
                    EvBackoff 1000; EvCall 1 (inr server_error);
                    EvBackoff 2000; EvCall 2 (inr server_error)]
     = ((2 ^ Z.of_nat (3 - 1) - 1) * 1000)%Z.
Proof.
  destruct (request_gives_up_after_budget
              (scripted [inr server_error; inr server_error; inr server_error])
              "GET" "/people/match" None 3 (w0, client0) _ _ server_error
              eq_refl eq_refl)
    as (H1 & _ & _ & H4).
  split; [exact H1 | exact H4].
Defined.

Lemma request_without_budget_witness :
  @Thrown string None = Thrown None <-> 0 = 0.
Proof.
  exact (proj1 (request_without_budget (scripted [inl "ok"%string])
                  "GET" "/people/match" None 0 (w0, client0) _ _ _ eq_refl)).
Defined.

Lemma request_keeps_client_witness :
  lastRequestTime
    {| baseURL := "https://api.apollo.io/v1"; apiKey := "key";
       rateLimit := 10; lastRequestTime := 1700000000000 |}
  = now (scripted [inr server_error; inr not_found])
        (fst (_rateLimit (scripted [inr server_error; inr not_found]) (w0, client0))).
Proof.
  exact (proj2 (proj2 (proj2
           (request_keeps_client (scripted [inr server_error; inr not_found])
              "GET" "/people/match" None 3 (w0, client0) _ _ _ eq_refl)))).
Defined.

End TransportMore.

Module TransportConfig.
Import Transport TransportTrace TransportScenario.

Section Client.
Context {Payload Data World : Type}.
Variable env : Env Payload Data World.

Lemma repeat_snoc {A} (x : A) n : repeat x n ++ [x] = x :: repeat x n.
Proof. induction n as [|n IH]; simpl; [reflexivity | now rewrite IH]. Qed.

(** Keeping the [config] objects does not change the course of the loop,
    and every call of the loop is handed the same object. *)
Lemma attempts_recording fuel : forall retries config attempt lastError w sent c,
  attempts (recording env) fuel retries config attempt lastError ((w, sent), c)
  = let '((w', c'), evs, res) :=
      attempts env fuel retries config attempt lastError (w, c) in
    (((w', sent ++ repeat config (n_calls evs)), c'), evs, res).
Proof.
  induction fuel as [|fuel IH]; intros retries config attempt lastError w sent c;
    cbn [attempts].
  - cbn. now rewrite app_nil_r.
  - destruct (attempt <? retries); [|cbn; now rewrite app_nil_r].
    cbn [recording axios fst snd].
    destruct (axios env config w) as [w1 [d|error]]; [reflexivity|].
    destruct (is_client_error error); [reflexivity|].
    destruct (attempt <? retries - 1); cbn [recording setTimeout fst snd];
      rewrite IH;
      match goal with
      | |- context [attempts env fuel ?r ?cfg ?a ?le ?s] =>
          destruct (attempts env fuel r cfg a le s) as [[[w2 c2] evs2] res2]
      end;
      unfold n_calls; cbn; rewrite <- app_assoc; reflexivity.
Qed.

(** X8. What goes out. All the physical calls of one operation are handed one
    and the same request: the URL is the base URL followed by the endpoint,
    the key is the client's, and a truthy payload travels as query
    parameters for a GET, without any body, and as the body for every other
    method; a payload that is missing or falsy is not sent at all.  Keeping
    track of what is sent changes nothing in what the operation does. *)
Theorem request_sends_one_config method endpoint data retries w sent c :
  request (recording env) method endpoint data retries ((w, sent), c)
  = let '((w', c'), evs, res) := request env method endpoint data retries (w, c) in
    (((w', sent ++ repeat (config_of c method endpoint (payload_sent env data))
                          (n_calls evs)), c'),
     evs, res).
Proof.
  unfold request, _rateLimit. cbn [recording now setTimeout fst snd].
  change (payload_sent (recording env) data) with (payload_sent env data).
  destruct (RateLimiter.check (now env w) (lastRequestTime c) (rateLimit c));
    cbn [fst snd baseURL apiKey]; rewrite attempts_recording;
    match goal with
    | |- context [attempts env ?f ?r ?cfg ?a ?le ?s] =>
        destruct (attempts env f r cfg a le s) as [[[w2 c2] evs2] res2]
    end; reflexivity.
Qed.

End Client.

Example flaky_run_configs :
  snd (fst (fst (fst
    (request (recording (scripted [inr server_error; inr not_found]))
             "GET" "/people/match" (Some tt) 3 ((w0, []), client0)))))
  = [ {| method := "GET"; url := "https://api.apollo.io/v1/people/match";
         x_api_key := "key"; params := Some tt; data := None |};
      {| method := "GET"; url := "https://api.apollo.io/v1/people/match";
         x_api_key := "key"; params := Some tt; data := None |} ].
Proof. reflexivity. Qed.

(** A POST of the empty string goes out without a body, a POST of any
    other string with it. *)
Example falsy_payload_left_out :
  snd (fst (fst (fst
    (request (recording (scripted_text [inl "ok"%string]))
             "POST" "/contacts" (Some ""%string) 3 ((w0, []), client0)))))
  = [ {| method := "POST"; url := "https://api.apollo.io/v1/contacts";
         x_api_key := "key"; params := None; data := None |} ]
  /\ snd (fst (fst (fst
       (request (recording (scripted_text [inl "ok"%string]))
                "POST" "/contacts" (Some "{}"%string) 3 ((w0, []), client0)))))
     = [ {| method := "POST"; url := "https://api.apollo.io/v1/contacts";
            x_api_key := "key"; params := None; data := Some "{}"%string |} ].
Proof. split; reflexivity. Qed.

End TransportConfig.

Module EnrichmentMore.
Import Async Enrichment WorkflowScenario.

(** X10. Within the cap. For 0 to 10 records, the empty list included,
    [enrichPeopleBulk] makes exactly one request, a POST to
    [/people/bulk_match] that carries the records as they are and the two
    flags.  It never throws.  When the transport answers with a body
    without [matches], the result is [{success: true, data: []}]; with an
    array of matches, none of them [null], it is [{success: true, data}]
    with that array; with a body that is [null], with an array that holds a
    [null], or with [matches] that is not an array, the read of [matches]
    or the count of the matched persons throws inside the [try] and the
    result is [{success: false, error, data: []}] with the message of that
    TypeError.  When the transport throws, the result is
    [{success: false, error, data: []}] with the transport's message. *)
Theorem bulk_within_cap_one_post {World}
        (post : string -> BulkParams -> World -> World * outcome BulkResponse)
        peopleData revealPersonalEmails revealPhoneNumber (w : World) log :
  length peopleData <= 10 ->
  enrichPeopleBulk post peopleData revealPersonalEmails revealPhoneNumber (w, log)
  = let params := {| details := peopleData;
                     reveal_personal_emails := revealPersonalEmails;
                     reveal_phone_number := revealPhoneNumber |} in
    let '(w', r) := post "/people/bulk_match"%string params w in
    ((w', log ++ [("/people/bulk_match"%string, params)]),
     Ret match r with
         | Ret NullBody =>
             {| success := false;
                error := Some "Cannot read properties of null (reading 'matches')"%string;
                data := [] |}
         | Ret (Body NoMatches) =>
             {| success := true; error := None; data := [] |}
         | Ret (Body (MatchesArray entries)) =>
             if forallb is_object entries
             then {| success := true; error := None;
                     data := objects entries |}
             else {| success := false;
                     error := Some "Cannot read properties of null (reading 'person')"%string;
                     data := [] |}
         | Ret (Body NotAnArray) =>
             {| success := false;
                error := Some "response.matches?.filter is not a function"%string;
                data := [] |}
         | Throw message =>
             {| success := false; error := Some message; data := [] |}
         end).
Proof.
  intros Hl. unfold enrichPeopleBulk, try_catch, bind, apiClient_post, ret, lift.
  destruct (Nat.ltb_spec 10 (length peopleData)) as [H|H]; [lia|].
  cbv zeta.
  destruct (post _ _ w) as [w' [response|message]]; [|reflexivity].
  destruct response as [|[|entries|]]; cbn [matches successCount];
    try reflexivity.
  destruct (forallb is_object entries); reflexivity.
Qed.

Lemma bulk_within_cap_one_post_witness :
  enrichPeopleBulk null_entry_post [query 0] false false (0, [])
  = ((1, [("/people/bulk_match"%string,
           {| details := [query 0]; reveal_personal_emails := false;
              reveal_phone_number := false |})]),
     Ret {| success := false;
            error := Some "Cannot read properties of null (reading 'person')"%string;
            data := [] |}).
Proof.
  exact (bulk_within_cap_one_post null_entry_post [query 0] false false 0 []
           ltac:(cbn; lia)).
Defined.

End EnrichmentMore.

Module WorkflowMore.
Import Async Workflow WorkflowFacts WorkflowScenario.

(** X12. The page size of the search. For a [maxResults] that is missing
    or a natural number, [generateLeads] asks for between 1 and 100
    results: [maxResults] itself when it is between 1 and 100, 100 when it
    is larger, and 25 when it is missing or 0.  [maxResults] is not checked
    to be one, though: on any finite number, given as the rational it is,
    the page size is at most 100, it is [maxResults] itself for every
    number other than 0 that is at most 100, a negative or a fractional one
    included, and so it is at least 1 exactly when [maxResults] is missing,
    0, or at least 1. *)
Theorem per_page_bounds {Filters} (config : Config Filters) :
  (1 <= per_page config <= 100
   /\ match maxResults config with
      | None | Some 0 => per_page config = 25
      | Some n => per_page config = Nat.min n 100
      end
   /\ (inject_Z (Z.of_nat (per_page config))
       == page_size (option_map (fun n => inject_Z (Z.of_nat n))
                                (maxResults config)))%Q)
  /\ forall maxResults : option Q,
       (page_size maxResults <= 100)%Q
       /\ match maxResults with
          | None => (page_size maxResults == 25)%Q
          | Some q =>
              if Qeq_bool q 0 then (page_size maxResults == 25)%Q
              else ((q <= 100)%Q -> (page_size maxResults == q)%Q)
                   /\ ((100 <= q)%Q -> (page_size maxResults == 100)%Q)
          end
       /\ ((1 <= page_size maxResults)%Q
           <-> match maxResults with
               | None => True
               | Some q => (q == 0)%Q \/ (1 <= q)%Q
               end).
Proof.
  split; [split; [|split]|].
  - unfold per_page. destruct (maxResults config) as [[|n]|]; simpl Nat.min; lia.
  - unfold per_page. destruct (maxResults config) as [[|n]|]; simpl Nat.min; lia.
  - unfold per_page, page_size.
    destruct (maxResults config) as [[|n]|]; cbn [option_map];
      try reflexivity.
    assert (Hq : Qeq_bool (inject_Z (Z.of_nat (S n))) 0 = false).
    { apply not_true_is_false. intros H. apply Qeq_bool_iff in H.
      unfold Qeq in H. simpl in H. lia. }
    rewrite Hq.
    destruct (Qle_bool (inject_Z (Z.of_nat (S n))) 100) eqn:Hle.
    + apply Qle_bool_iff in Hle.
      change 100%Q with (inject_Z 100) in Hle. rewrite <- Zle_Qle in Hle.
      rewrite Nat.min_l by lia. reflexivity.
    + assert (Hlt : ~ (inject_Z (Z.of_nat (S n)) <= 100)%Q).
      { intros H. apply Qle_bool_iff in H. congruence. }
      change 100%Q with (inject_Z 100) in Hlt. rewrite <- Zle_Qle in Hlt.
      rewrite Nat.min_r by lia. reflexivity.
  - intros m. unfold page_size.
    destruct m as [q|].
    + destruct (Qeq_bool q 0) eqn:Hz.
      * apply Qeq_bool_iff in Hz. cbn.
        split; [lra|]. split; [reflexivity|]. split; [auto | intros _; lra].
      * assert (Hnz : ~ (q == 0)%Q).
        { intros H. apply Qeq_bool_iff in H. congruence. }
        destruct (Qle_bool q 100) eqn:Hle.
        -- apply Qle_bool_iff in Hle.
           split; [exact Hle|]. split; [split; [reflexivity | lra]|].
           split; [auto | intros [H|H]; [contradiction | exact H]].
        -- assert (Hgt : (100 < q)%Q).
           { apply Qnot_le_lt. intros H. apply Qle_bool_iff in H. congruence. }
           split; [lra|]. split; [split; [lra | reflexivity]|].
           split; [intros _; right; lra | intros _; lra].
    + cbn. split; [lra|]. split; [reflexivity|]. split; [auto | intros _; lra].
Qed.

Lemma enrolled_shape {Filters} (config : Config Filters) cs seqs added seq_errors top :
  Enrolled config cs seqs added seq_errors top ->
  (seqs = [] /\ added = 0
   \/ exists o, seqs = [CallSequence (sequenceId config) (map id cs)
                                     (emailAccountId config) o]
                /\ wants_sequence config cs = true
                /\ (added = 0 \/ added = length cs)
                /\ (added <> 0 -> exists res, o = Ret res /\ success res = true)
                /\ (forall res, o = Ret res -> success res = true ->
                    added = length cs)).
Proof.
  intros H. inversion H; subst; [left; auto| | |]; right; eexists;
    (split; [reflexivity|]); (split; [assumption|]); rewrite ?length_map.
  - split; [now left|]. split; [congruence|]. intros res E. discriminate.
  - split; [now right|]. split; [eauto|]. auto.
  - split; [now left|]. split; [congruence|]. intros res' E Hs.
    injection E as <-. congruence.
Qed.

(** The contacts submitted in a run are built from leads. *)
Lemma run_create_inputs {Filters} (config : Config Filters) pp log r :
  Run config pp log r ->
  exists leads,
    map fst (create_calls log) = map (contactData_of config) leads.
Proof.
  intros HR.
  inversion HR as
      [ m
      | sr Hsr
      | sr evsE b m Hsr He Ha
      | sr evsE leadsToProcess n evsC d m Hsr HE Ha Hm Hl
      | sr evsE leadsToProcess n evsC seqs added seq_errors top Hsr HE Ha Hm Hen ];
    subst; autorewrite with obs; try (now exists []).
  - eauto.
  - destruct (WorkflowClaims.enrolled_no_lead_error _ _ _ _ _ _ Hen)
      as (_ & _ & Hsc & _).
    rewrite Hsc. autorewrite with obs. eauto.
Qed.

Lemma labels_of_inputs {Filters} (config : Config Filters) :
  forall (evs : list CreateEvent) leads,
    map fst evs = map (contactData_of config) leads ->
    Forall (fun e => ContactData.label_names (fst e) = addToLists config) evs.
Proof.
  induction evs as [|e evs IH]; intros [|lead leads] Hm; try discriminate;
    constructor.
  - simpl in Hm. injection Hm as -> _. reflexivity.
  - simpl in Hm. injection Hm as _ Hm. eauto.
Qed.

Section Runs.
Context {Filters World : Type}.
Variable C : Collaborators Filters World.
Variable config : Config Filters.

(** X13. The order of the stages. The calls of a run that resolves are, in
    this order: one search, with the configured filters and the page size above; the
    enrichment calls, none when enrichment is off; the creation calls; and at
    most one enrollment call, which carries the configured sequence and
    mailbox and the ids of the contacts created, in creation order.  A stage
    starts only when every call of the stages before has returned: nothing
    follows the search unless it returned a success with at least one
    person, no creation call is made unless every enrichment call returned,
    and no enrollment call unless every creation call returned too. *)
Theorem stages_in_order (w : World) st r :
  generateLeads C config w = (st, Ret r) ->
  exists sr evsE evsC seqs,
    calls st
    = CallSearch (searchFilters config, per_page config) sr
      :: map enrich_entry evsE ++ map create_entry evsC ++ seqs
    /\ (seqs = []
        \/ exists o,
             seqs = [CallSequence (sequenceId config)
                                  (map id (created_contacts evsC))
                                  (emailAccountId config) o])
    /\ (enrichData config = false -> evsE = [])
    /\ (evsE <> [] \/ evsC <> [] \/ seqs <> [] ->
        exists found,
          sr = Ret found /\ success found = true /\ data found <> [])
    /\ (evsC <> [] -> all_returned evsE = true)
    /\ (seqs <> [] -> all_returned evsE = true /\ all_returned evsC = true).
Proof.
  intros H.
  destruct (generateLeads_run C config w st _ H) as (_ & HR).
  assert (Hfound : forall sr : ApiResult (list Lead.t),
             negb (success sr) || (length (data sr) =? 0) = false ->
             exists found : ApiResult (list Lead.t),
               (Ret sr : awaited _) = Ret found
               /\ success found = true /\ data found <> []).
  { intros sr Hsr. exists sr. apply orb_false_iff in Hsr as [Hs Hd].
    apply negb_false_iff in Hs. apply Nat.eqb_neq in Hd.
    split; [reflexivity|]. split; [exact Hs|].
    intros E. rewrite E in Hd. now apply Hd. }
  inversion HR as
      [ m
      | sr Hsr
      | sr evsE b m Hsr He Ha
      | sr evsE leadsToProcess n evsC d m Hsr HE Ha Hm Hl
      | sr evsE leadsToProcess n evsC seqs added seq_errors top Hsr HE Ha Hm Hen ];
    subst.
  - exists (Throw (Value m)), [], [], []. cbn.
    repeat split; auto; try congruence. intros [E|[E|E]]; now elim E.
  - exists (Ret sr), [], [], []. cbn.
    repeat split; auto; try congruence. intros [E|[E|E]]; now elim E.
  - exists (Ret sr), (evsE ++ [(b, Throw (Value m))]), [], []. cbn.
    rewrite app_nil_r. repeat split; auto; congruence.
  - exists (Ret sr), evsE, (evsC ++ [(d, Throw (Value m))]), [].
    rewrite app_nil_r. split; [reflexivity|]. split; [now left|].
    assert (HaE : all_returned evsE = true) by (inversion HE; subst; auto).
    split; [intros He; inversion HE; subst; [reflexivity | congruence]|].
    split; [auto|]. split; [auto | congruence].
  - exists (Ret sr), evsE, evsC, seqs.
    assert (HaE : all_returned evsE = true) by (inversion HE; subst; auto).
    split; [reflexivity|]. split.
    + destruct (enrolled_shape _ _ _ _ _ _ Hen) as [[-> _]|(o & -> & _)]; eauto.
    + split; [intros He; inversion HE; subst; [reflexivity | congruence]|].
      split; [auto|]. split; auto.
Qed.

(** X14. Nothing found, nothing done. When the search returns a failure or an
    empty list, the run stops there: no other call is made and the result
    has all counters at 0, no error entry and no top-level error, so that a
    failed search cannot be told from an empty one.  Otherwise [searched] is
    the number of people found. *)
Theorem nothing_found_nothing_done (w : World) st r p sr rest :
  generateLeads C config w = (st, Ret r) ->
  calls st = CallSearch p (Ret sr) :: rest ->
  if negb (success sr) || (length (data sr) =? 0)
  then rest = [] /\ r = {| counters := zero; top_error := None |}
  else searched (counters r) = length (data sr).
Proof.
  intros H Hlog.
  destruct (generateLeads_run C config w st _ H) as (_ & HR). rewrite Hlog in HR.
  inversion HR; subst;
    match goal with
    | Hs : negb (success sr) || _ = _ |- _ => rewrite Hs
    end; auto.
Qed.

(** X15. Enrichment off. With [enrichData] false no enrichment call is ever
    made, [enriched] stays 0, and the create stage is fed the people found
    by the search, in the order of the search result: all of them when the
    run ends without a top-level error. *)
Theorem enrichment_off_costs_nothing (w : World) st r :
  generateLeads C config w = (st, Ret r) ->
  enrichData config = false ->
  enrich_calls (calls st) = []
  /\ enriched (counters r) = 0
  /\ forall p sr rest,
       calls st = CallSearch p (Ret sr) :: rest ->
       negb (success sr) || (length (data sr) =? 0) = false ->
       exists tail,
         map (contactData_of config) (data sr)
         = map fst (create_calls (calls st)) ++ tail
         /\ (top_error r = None -> tail = []).
Proof.
  intros H Hoff.
  destruct (generateLeads_run C config w st _ H) as (_ & HR).
  set (log := calls st) in *. clearbody log.
  inversion HR as
      [ m
      | sr Hsr
      | sr evsE b m Hsr He Ha
      | sr evsE leadsToProcess n evsC d m Hsr HE Ha Hm Hl
      | sr evsE leadsToProcess n evsC seqs added seq_errors top Hsr HE Ha Hm Hen ];
    subst; try congruence;
    cbn [counters enriched top_error].
  - repeat split; auto. intros p sr rest E. discriminate.
  - repeat split; auto. intros p sr' rest E Hs. injection E as _ <- _. congruence.
  - inversion HE; subst; [|congruence].
    autorewrite with obs. repeat split; auto.
    intros p sr' rest E _. injection E as _ <- _.
    exists (map (contactData_of config) (skipn (S (length evsC)) (data sr))).
    split; [|discriminate].
    rewrite Hm, <- map_app. now rewrite firstn_skipn.
  - inversion HE; subst; [|congruence].
    destruct (WorkflowClaims.enrolled_no_lead_error _ _ _ _ _ _ Hen)
      as (_ & _ & Hsc & Hsn & _).
    autorewrite with obs. rewrite Hsc, Hsn. autorewrite with obs.
    repeat split; auto.
    intros p sr' rest E _. injection E as _ <- _.
    exists []. rewrite app_nil_r. split; [now rewrite Hm | reflexivity].
Qed.

(** X16. The enrollment gate. A run makes at most one enrollment call, and
    only with a non-empty sequence id, a non-empty mailbox id and at least
    one contact created; a run that ends without a top-level error makes it
    whenever these three hold.  [addedToSequence] is all or nothing: it is
    [created] when the enrollment call returned [success: true], and 0 in
    every other case. *)
Theorem enrollment_gate (w : World) st r :
  generateLeads C config w = (st, Ret r) ->
  length (sequence_calls (calls st)) <= 1
  /\ (sequence_calls (calls st) <> [] ->
      truthy (sequenceId config) = true
      /\ truthy (emailAccountId config) = true
      /\ 1 <= created (counters r))
  /\ (top_error r = None ->
      truthy (sequenceId config) = true ->
      truthy (emailAccountId config) = true ->
      1 <= created (counters r) ->
      sequence_calls (calls st) <> [])
  /\ ((exists res, sequence_calls (calls st) = [Ret res] /\ success res = true)
      /\ addedToSequence (counters r) = created (counters r)
      \/ (forall res, In (Ret res) (sequence_calls (calls st)) -> success res = false)
         /\ addedToSequence (counters r) = 0).
Proof.
  intros H.
  destruct (generateLeads_run C config w st _ H) as (_ & HR).
  set (log := calls st) in *. clearbody log.
  inversion HR as
      [ m
      | sr Hsr
      | sr evsE b m Hsr He Ha
      | sr evsE leadsToProcess n evsC d m Hsr HE Ha Hm Hl
      | sr evsE leadsToProcess n evsC seqs added seq_errors top Hsr HE Ha Hm Hen ];
    subst; cbn [counters created addedToSequence top_error];
    autorewrite with obs.
  1-4: cbn; repeat split; try lia; try congruence;
       try (right; split; [intros res []|reflexivity]).
  assert (Hw : wants_sequence config (created_contacts evsC) = true <->
               truthy (sequenceId config) = true
               /\ truthy (emailAccountId config) = true
               /\ 1 <= n_created evsC).
  { unfold wants_sequence. rewrite !andb_true_iff, Nat.ltb_lt,
      length_created_contacts. tauto. }
  inversion Hen as [Hc|m Hc|res Hc Hs|res Hc Hs]; subst;
    cbn [sequence_calls flat_map app length In]; rewrite ?length_map,
      ?length_created_contacts.
  - repeat split; try lia; try congruence.
    + intros _ H1 H2 H3. assert (Hf : wants_sequence config (created_contacts evsC) = true)
        by (apply Hw; auto). congruence.
    + right. split; [intros res []|reflexivity].
  - apply Hw in Hc. repeat split; try lia; try tauto; try discriminate.
    right. split; [|reflexivity]. intros res [E|[]]. discriminate.
  - apply Hw in Hc. repeat split; try lia; try tauto; try discriminate.
    left. split; [eauto | reflexivity].
  - apply Hw in Hc. repeat split; try lia; try tauto; try discriminate.
    right. split; [|reflexivity]. intros res' [E|[]]. injection E as <-. exact Hs.
Qed.

(** X17. Tagging. Every contact handed to [createContact] carries exactly the
    configured lists as [label_names], or no [label_names] when none is
    configured. *)
Theorem contacts_carry_configured_lists (w : World) st r :
  generateLeads C config w = (st, Ret r) ->
  Forall (fun e => ContactData.label_names (fst e) = addToLists config)
         (create_calls (calls st)).
Proof.
  intros H.
  destruct (generateLeads_run C config w st _ H) as (_ & HR).
  destruct (run_create_inputs _ _ _ _ HR) as (leads & Hm).
  eapply labels_of_inputs; eauto.
Qed.

End Runs.

Lemma sequence_refused_run_eq :
  generateLeads sequence_refused with_sequence 0
  = (fst sequence_refused_run, Ret sequence_refused_result).
Proof. vm_compute. reflexivity. Qed.

Lemma stages_in_order_witness :
  exists sr evsE evsC seqs,
    calls (fst sequence_refused_run)
    = CallSearch (tt, 25) sr
      :: map enrich_entry evsE ++ map create_entry evsC ++ seqs
    /\ (seqs = []
        \/ exists o,
             seqs = [CallSequence (Some "seq-1"%string)
                                  (map id (created_contacts evsC))
                                  (Some "mailbox-1"%string) o]).
Proof.
  destruct (stages_in_order sequence_refused with_sequence 0 _ _
              sequence_refused_run_eq) as (sr & evsE & evsC & seqs & H1 & H2 & _).
  exists sr, evsE, evsC, seqs. split; [exact H1 | exact H2].
Defined.

Lemma nothing_found_nothing_done_witness :
  generateLeads search_down with_sequence 0
  = (fst search_down_run, Ret {| counters := zero; top_error := None |})
  /\ (@nil (Call unit) = []
      /\ {| counters := zero; top_error := None |}
         = {| counters := zero; top_error := None |}).
Proof.
  assert (H : generateLeads search_down with_sequence 0
              = (fst search_down_run, Ret {| counters := zero; top_error := None |}))
    by (vm_compute; reflexivity).
  split; [exact H|].
  exact (nothing_found_nothing_done search_down with_sequence 0 _ _ (tt, 25)
           {| success := false;
              error := Some "Request failed with status code 401"%string;
              data := [] |} [] H eq_refl).
Defined.

Lemma enrichment_off_costs_nothing_witness :
  enrich_calls (calls (fst sequence_refused_run)) = []
  /\ enriched (counters sequence_refused_result) = 0.
Proof.
  destruct (enrichment_off_costs_nothing sequence_refused with_sequence 0 _ _
              sequence_refused_run_eq eq_refl) as (H1 & H2 & _).
  split; [exact H1 | exact H2].
Defined.

Lemma enrollment_gate_witness :
  length (sequence_calls (calls (fst sequence_refused_run))) <= 1
  /\ (sequence_calls (calls (fst sequence_refused_run)) <> [] ->
      truthy (Some "seq-1"%string) = true
      /\ truthy (Some "mailbox-1"%string) = true
      /\ 1 <= created (counters sequence_refused_result)).
Proof.
  destruct (enrollment_gate sequence_refused with_sequence 0 _ _
              sequence_refused_run_eq) as (H1 & H2 & _).
  split; [exact H1 | exact H2].
Defined.

Lemma contacts_carry_configured_lists_witness :
  Forall (fun e => ContactData.label_names (fst e) = Some ["Tech Leads"%string])
         (create_calls (calls (fst over_enriched_run))).
Proof.
  assert (H : generateLeads sequence_refused with_enrichment 0
              = (fst over_enriched_run, Ret over_enriched_result))
    by (vm_compute; reflexivity).
  exact (contacts_carry_configured_lists sequence_refused with_enrichment 0 _ _ H).
Defined.

End WorkflowMore.

Module WorkflowWalk.
Import Async Workflow WorkflowFacts.

Section Invariant.
Context {Filters World : Type}.
Variable C : Collaborators Filters World.
Variable config : Config Filters.

(** A property of the world and of the calls made so far that every call
    [generateLeads] can make preserves. *)
Variable Inv : World -> list (Call Filters) -> Prop.

Hypothesis search_step : forall w log,
  Inv w log ->
  let params := (searchFilters config, per_page config) in
  Inv (fst (searchPeople C params w))
    (log ++ [CallSearch params (snd (searchPeople C params w))]).

Hypothesis enrich_step : forall w log batch,
  Inv w log ->
  1 <= length batch <= 10 ->
  let batchData := map batchData_of batch in
  Inv (fst (enrichPeopleBulk C batchData w))
    (log ++ [CallEnrich batchData (snd (enrichPeopleBulk C batchData w))]).

Hypothesis create_step : forall w log lead,
  Inv w log ->
  let contactData := contactData_of config lead in
  Inv (fst (createContact C contactData w))
    (log ++ [CallCreate contactData (snd (createContact C contactData w))]).

Hypothesis sequence_step : forall w log contactIds,
  Inv w log ->
  contactIds <> [] ->
  let f := addContactsToSequence C (sequenceId config) contactIds
                                 (emailAccountId config) in
  Inv (fst (f w))
    (log ++ [CallSequence (sequenceId config) contactIds
                          (emailAccountId config) (snd (f w))]).

Local Abbreviation holds st := (Inv (world st) (calls st)).

Lemma call_world {A} (f : World -> World * awaited A) entry
      (st st' : St Filters World) o :
  call f entry st = (st', o) ->
  world st' = fst (f (world st))
  /\ calls st' = calls st ++ [entry (snd (f (world st)))].
Proof.
  unfold call. destruct (f (world st)) as [w r]. intros H.
  inversion H; subst. auto.
Qed.

Lemma update_then_world {B} f (k : M_of thrown (St Filters World) B) st st' o :
  bind (update f) (fun _ => k) st = (st', o) ->
  exists st1, world st1 = world st /\ calls st1 = calls st
              /\ k st1 = (st', o).
Proof.
  unfold bind, update, modify. intros H. eexists. split; [|split; [|exact H]];
    reflexivity.
Qed.

Lemma update_holds f (st st' : St Filters World) o :
  update f st = (st', o) -> holds st -> holds st'.
Proof. unfold update, modify. intros H. inversion H; subst. auto. Qed.

Lemma ret_holds {A} (a : A) (st st' : St Filters World)
      (o : awaited A) :
  ret a st = (st', o) -> holds st -> holds st'.
Proof. unfold ret. intros H. inversion H; subst. auto. Qed.

Lemma createLoop_holds : forall leads acc (st st' : St Filters World) o,
  createLoop C config leads acc st = (st', o) -> holds st -> holds st'.
Proof.
  induction leads as [|lead rest IH]; intros acc st st' o H Hst;
    cbn [createLoop] in H.
  - eapply ret_holds; eauto.
  - apply bind_inv in H as [(st1 & res & Hc & H)|(m & Hc & _)];
      apply call_world in Hc as (Hw & Hl);
      pose proof (create_step _ _ lead Hst) as Hstep; cbv zeta in Hstep;
      rewrite <- Hw, <- Hl in Hstep; [|exact Hstep].
    destruct (acknowledged res);
      apply update_then_world in H as (st2 & Hw2 & Hl2 & H);
      (eapply IH; [exact H|]); now rewrite Hw2, Hl2.
Qed.

Lemma enrichLoop_holds : forall fuel leads i acc (st st' : St Filters World) o,
  enrichLoop C fuel leads i acc st = (st', o) -> holds st -> holds st'.
Proof.
  induction fuel as [|fuel IH]; intros leads i acc st st' o H Hst;
    cbn [enrichLoop] in H.
  - eapply ret_holds; eauto.
  - destruct (Nat.ltb_spec i (length leads)) as [Hi|Hi];
      [|eapply ret_holds; eauto].
    cbv zeta in H.
    assert (Hb : 1 <= length (slice leads i (i + 10)) <= 10)
      by (rewrite BatchMore.length_slice10; lia).
    apply bind_inv in H as [(st1 & res & Hc & H)|(m & Hc & _)];
      apply call_world in Hc as (Hw & Hl);
      pose proof (enrich_step _ _ _ Hst Hb) as Hstep; cbv zeta in Hstep;
      rewrite <- Hw, <- Hl in Hstep; [|exact Hstep].
    eapply IH; [exact H | exact Hstep].
Qed.

Lemma body_holds (st st' : St Filters World) o :
  body C config st = (st', o) -> holds st -> holds st'.
Proof.
  unfold body. intros H Hst.
  apply bind_inv in H as [(st1 & sr & Hc & H)|(m & Hc & _)];
    apply call_world in Hc as (Hw & Hl);
    pose proof (search_step _ _ Hst) as Hstep; cbv zeta in Hstep;
    rewrite <- Hw, <- Hl in Hstep; [|exact Hstep].
  destruct (negb (success sr) || (length (data sr) =? 0)).
  { unfold bind, gets, ret in H. inversion H; subst. exact Hstep. }
  apply update_then_world in H as (st2 & Hw2 & Hl2 & H).
  assert (H2 : holds st2) by (now rewrite Hw2, Hl2).
  clear Hw Hl Hw2 Hl2 Hstep Hst.
  apply bind_inv in H as [(st3 & leadsToProcess & Hen & H)|(m & Hen & _)].
  2: { destruct (enrichData config); [|discriminate].
       apply bind_inv in Hen as [(st3 & e & Hen & H)|(m' & Hen & _)].
       - apply update_then_world in H as (st4 & _ & _ & H). discriminate.
       - eapply enrichLoop_holds; eauto. }
  assert (H3 : holds st3).
  { destruct (enrichData config).
    - apply bind_inv in Hen as [(st3' & e & Hen & Hu)|(m' & Hen & _)].
      + apply update_then_world in Hu as (st4 & Hw4 & Hl4 & Hu).
        eapply ret_holds; [exact Hu|]. rewrite Hw4, Hl4.
        eapply enrichLoop_holds; eauto.
      + eapply enrichLoop_holds; eauto.
    - eapply ret_holds; eauto. }
  clear Hen H2.
  apply bind_inv in H as [(st4 & createdContacts & Hcr & H)|(m & Hcr & _)];
    [|eapply createLoop_holds; eauto].
  assert (H4 : holds st4) by (eapply createLoop_holds; eauto).
  clear Hcr H3.
  apply bind_inv in H as [(st5 & u & Hsq & H)|(m & Hsq & _)].
  - unfold bind, gets, ret in H. inversion H; subst st'. clear H.
    destruct (truthy (sequenceId config) && truthy (emailAccountId config)
              && (0 <? length createdContacts)) eqn:Hg;
      [|eapply ret_holds; eauto].
    apply andb_true_iff in Hg as (_ & Hg). apply Nat.ltb_lt in Hg.
    assert (Hids : map id createdContacts <> []).
    { destruct createdContacts; [simpl in Hg; lia | discriminate]. }
    cbv zeta in Hsq.
    apply bind_inv in Hsq as [(st6 & res & Hc & Hu)|(m & Hc & E)]; [|discriminate].
    apply call_world in Hc as (Hw & Hl).
    pose proof (sequence_step _ _ _ H4 Hids) as Hstep; cbv zeta in Hstep.
    rewrite <- Hw, <- Hl in Hstep.
    destruct (success res); eapply update_holds; eauto.
  - destruct (truthy (sequenceId config) && truthy (emailAccountId config)
              && (0 <? length createdContacts)) eqn:Hg; [|discriminate].
    apply andb_true_iff in Hg as (_ & Hg). apply Nat.ltb_lt in Hg.
    assert (Hids : map id createdContacts <> []).
    { destruct createdContacts; [simpl in Hg; lia | discriminate]. }
    cbv zeta in Hsq.
    apply bind_inv in Hsq as [(st6 & res & Hc & Hu)|(m' & Hc & E)].
    + destruct (success res); apply update_inv in Hu as (Hu & _); discriminate.
    + apply call_world in Hc as (Hw & Hl).
      pose proof (sequence_step _ _ _ H4 Hids) as Hstep; cbv zeta in Hstep.
      now rewrite <- Hw, <- Hl in Hstep.
Qed.

Lemma generateLeads_holds (w : World) st o :
  generateLeads C config w = (st, o) -> Inv w [] -> holds st.
Proof.
  unfold generateLeads, try_catch. intros H H0.
  destruct (body C config (initial w)) as [st1 [r|m]] eqn:Hb.
  - inversion H; subst. eapply body_holds; eauto.
  - unfold handler in H. destruct (caught m);
      unfold bind, gets, ret, throw in H; inversion H; subst;
      eapply body_holds; eauto.
Qed.

End Invariant.

Section Properties.
Context {Filters World : Type}.
Variable C : Collaborators Filters World.
Variable config : Config Filters.

(** X19. Chunk sizes on the wire. In every run of [generateLeads], also one
    that is cut short by a throw, every call to [enrichPeopleBulk] carries
    between 1 and 10 records, so the collaborator's cap of 10 is never hit
    and no empty chunk is ever sent; and every enrollment call carries at
    least one contact id. *)
Theorem chunks_on_the_wire (w : World) :
  Forall (fun c =>
            match c with
            | CallEnrich batchData _ => 1 <= length batchData <= 10
            | CallSequence _ contactIds _ _ => contactIds <> []
            | _ => True
            end) (calls (fst (generateLeads C config w))).
Proof.
  destruct (generateLeads C config w) as [st o] eqn:H. cbn [fst].
  apply (generateLeads_holds C config
           (fun _ log =>
              Forall (fun c =>
                        match c with
                        | CallEnrich batchData _ => 1 <= length batchData <= 10
                        | CallSequence _ contactIds _ _ => contactIds <> []
                        | _ => True
                        end) log))
    with (w := w) (st := st) (o := o); try exact H; try constructor;
    intros; cbv zeta; apply Forall_app; (split; [assumption|]);
    (constructor; [|constructor]); try exact I; try assumption.
  subst batchData. rewrite length_map. assumption.
Qed.

End Properties.

End WorkflowWalk.

Module ModulesFacts.
Import Async Workflow Api WorkflowFacts WorkflowScenario ModulesScenario.

Section Modules.
Context {Criteria World : Type}.
Variable post : Post Criteria World.

Lemma searchPeople_eq filters (w : World) :
  Search.searchPeople post filters w
  = let '(w', r) :=
      post "/mixed_people/search"%string
           (SearchBody (Search.search_params filters)) w in
    (w', Ret match r with
             | Ret response =>
                 {| success := true; error := None;
                    data := match people response with
                            | Some l => l
                            | None => []
                            end |}
             | Throw message =>
                 {| success := false; error := Some message; data := [] |}
             end).
Proof.
  unfold Search.searchPeople, try_catch, bind, ret.
  destruct (post _ _ w) as [w' [response|message]]; reflexivity.
Qed.

Lemma createContact_eq contactData (w : World) :
  Contacts.createContact post contactData w
  = let '(w', r) := post "/contacts"%string (ContactBody contactData) w in
    (w', Ret match r with
             | Ret response =>
                 {| success := true; error := None; data := contact response |}
             | Throw message =>
                 {| success := false; error := Some message; data := None |}
             end).
Proof.
  unfold Contacts.createContact, try_catch, bind, ret.
  destruct (post _ _ w) as [w' [response|message]]; reflexivity.
Qed.

Lemma addContactsToSequence_eq sequenceId contactIds emailAccountId options
      (w : World) :
  Outreach.addContactsToSequence post sequenceId contactIds emailAccountId
                                 options w
  = let '(w', r) :=
      post (Outreach.sequence_endpoint sequenceId)
           (SequenceBody (Outreach.sequence_params sequenceId contactIds
                                                   emailAccountId options)) w in
    (w', Ret match r with
             | Ret response =>
                 {| success := true; error := None; data := Some response |}
             | Throw message =>
                 {| success := false; error := Some message; data := None |}
             end).
Proof.
  unfold Outreach.addContactsToSequence, try_catch, bind, ret.
  destruct (post _ _ w) as [w' [response|message]]; reflexivity.
Qed.

Lemma enrichPeopleBulk_returns batchData (w : World) :
  is_returned (snd (enrichPeopleBulk (Stack.modules post) batchData w)) = true.
Proof.
  cbn [Stack.modules enrichPeopleBulk].
  unfold Enrichment.enrichPeopleBulk, try_catch, bind, throw, ret, lift,
    Enrichment.apiClient_post, Stack.bulk_post.
  destruct (10 <? length batchData); [reflexivity|].
  destruct (post _ _ w) as [w' [response|message]]; [|reflexivity].
  cbn [Enrichment.matches].
  match goal with
  | |- context [Enrichment.successCount ?ms] =>
      destruct (Enrichment.successCount ms)
  end; reflexivity.
Qed.

(** Every module call made by the workflow comes back with a result
    object. *)
Lemma modules_return (c : Call (SearchFilters Criteria)) (w : World) :
  match c with
  | CallSearch params _ =>
      is_returned (snd (searchPeople (Stack.modules post) params w))
  | CallEnrich batchData _ =>
      is_returned (snd (enrichPeopleBulk (Stack.modules post) batchData w))
  | CallCreate contactData _ =>
      is_returned (snd (createContact (Stack.modules post) contactData w))
  | CallSequence sequenceId contactIds emailAccountId _ =>
      is_returned (snd (addContactsToSequence (Stack.modules post) sequenceId
                                              contactIds emailAccountId w))
  end = true.
Proof.
  destruct c as [params r|batchData r|contactData r|sid ids acct r].
  - cbn [Stack.modules searchPeople]. rewrite searchPeople_eq.
    destruct (post _ _ w) as [w' [response|message]]; reflexivity.
  - apply enrichPeopleBulk_returns.
  - cbn [Stack.modules createContact]. rewrite createContact_eq.
    destruct (post _ _ w) as [w' [response|message]]; reflexivity.
  - cbn [Stack.modules addContactsToSequence]. rewrite addContactsToSequence_eq.
    destruct (post _ _ w) as [w' [response|message]]; reflexivity.
Qed.

(** The body of the search as the workflow makes it. *)
Lemma search_params_of_workflow (filters : SearchFilters Criteria) n :
  Search.search_params {| page := page filters; Api.per_page := Some n;
                          criteria := criteria filters |}
  = {| page := Some (match page filters with
                     | Some m => m
                     | None => 1
                     end);
       Api.per_page := Some n;
       criteria := criteria filters |}.
Proof.
  unfold Search.search_params. cbn [page Api.per_page criteria].
  destruct (page filters); reflexivity.
Qed.

(** X22. Why a creation fails. On top of the real [createContact], a
    candidate is counted as created exactly when the transport returns a
    response that holds a contact; when the transport throws, the error
    entry of the candidate carries the transport's message; when the
    response holds no contact, the candidate gets an error entry without any
    message. *)
Theorem creation_failures_explained contactData (w : World) :
  let r := snd (createContact (Stack.modules post) contactData w) in
  let name := display_name (ContactData.first_name contactData)
                           (ContactData.last_name contactData) in
  creation_error contactData r
  = match snd (post "/contacts"%string (ContactBody contactData) w) with
    | Ret response =>
        match contact response with
        | Some _ => []
        | None => [LeadError name None]
        end
    | Throw message => [LeadError name (Some message)]
    end
  /\ is_created r
     = match snd (post "/contacts"%string (ContactBody contactData) w) with
       | Ret response =>
           match contact response with
           | Some _ => true
           | None => false
           end
       | Throw _ => false
       end.
Proof.
  cbn [Stack.modules createContact]. rewrite createContact_eq.
  destruct (post _ _ w) as [w' [response|message]]; cbn.
  - unfold acknowledged. cbn. destruct (contact response); split; reflexivity.
  - split; reflexivity.
Qed.

Section Runs.
Variable config : Config (SearchFilters Criteria).

(** On top of the real modules no call throws, so a run either stops
    after the search or goes through all its stages. *)
Lemma modules_run (w : World) st o :
  generateLeads (Stack.modules post) config w = (st, o) ->
  exists r,
    o = Ret r
    /\ top_error r = None
    /\ forallb Stack.returned (calls st) = true
    /\ Run config (Workflow.per_page config) (calls st) r.
Proof.
  intros H.
  assert (Hall : forallb Stack.returned (calls st) = true).
  { apply (WorkflowWalk.generateLeads_holds (Stack.modules post) config
             (fun _ log => forallb Stack.returned log = true))
      with (w := w) (st := st) (o := o); try exact H; try reflexivity;
      intros; cbv zeta; rewrite forallb_app; cbn [forallb Stack.returned];
      rewrite andb_true_r; (apply andb_true_iff; split; [assumption|]).
    - exact (modules_return (CallSearch (searchFilters config, Workflow.per_page config)
                                        (Throw Undefined)) w0).
    - exact (modules_return (CallEnrich (map batchData_of batch) (Throw Undefined)) w0).
    - exact (modules_return (CallCreate (contactData_of config lead) (Throw Undefined)) w0).
    - exact (modules_return (CallSequence (sequenceId config) contactIds
                                          (emailAccountId config) (Throw Undefined)) w0). }
  pose proof (generateLeads_outcome _ _ _ _ _ H) as Ho.
  destruct o as [r|error].
  2:{ destruct Ho as (type_error & _ & (log' & c & thrown & Hlog & Hc & _)).
      rewrite Hlog, forallb_app in Hall. cbn [forallb] in Hall.
      apply andb_true_iff in Hall as (_ & Hall).
      rewrite andb_true_r in Hall.
      destruct c as [p [a|t]|b [a|t]|d [a|t]|sid ids acct [a|t]];
        discriminate. }
  destruct Ho as (_ & HR).
  exists r. split; [reflexivity|]. split; [|split; [exact Hall | exact HR]].
  set (log := calls st) in *. clearbody log.
  inversion HR as
      [ m
      | sr Hsr
      | sr evsE b m Hsr He Ha
      | sr evsE leadsToProcess n evsC d m Hsr HE Ha Hm Hl
      | sr evsE leadsToProcess n evsC seqs added seq_errors top Hsr HE Ha Hm Hen ];
    subst; cbn [top_error]; try reflexivity;
    cbn [forallb] in Hall; rewrite ?map_app, ?forallb_app in Hall;
    cbn [map forallb enrich_entry create_entry fst snd Stack.returned
         is_returned] in Hall;
    rewrite ?andb_false_r in Hall; try discriminate.
  inversion Hen; subst; try reflexivity.
  cbn [forallb Stack.returned is_returned] in Hall.
  rewrite ?andb_false_r in Hall. discriminate.
Qed.

(** X23. The catch block is never reached. On top of the real modules, and
    of a transport that returns response bodies that follow the schema of
    the API (JSON objects in which [people] and [matches] are missing or
    arrays of objects) or throws [Error] objects, as [apiClient] does, every
    run of [generateLeads] resolves with a result that has no top-level
    error, and every call it made came back with a result object: each
    module turns a failure of the transport into [{success: false}]. *)
Theorem workflow_over_modules_has_no_top_error (w : World) :
  exists r,
    snd (generateLeads (Stack.modules post) config w) = Ret r
    /\ top_error r = None
    /\ forallb Stack.returned
               (calls (fst (generateLeads (Stack.modules post) config w)))
       = true.
Proof.
  destruct (generateLeads (Stack.modules post) config w) as [st o] eqn:H.
  destruct (modules_run w st o H) as (r & -> & Htop & Hall & _).
  exists r. auto.
Qed.

(** X24. Every candidate is accounted for. On top of the real modules, and
    of a transport that returns response bodies that follow the schema of
    the API (JSON objects in which [people] and [matches] are missing or
    arrays of objects) or throws [Error] objects, as [apiClient] does, each
    candidate handed to the create stage ends up either counted in
    [created] or with an entry of its own in [errors], and the candidates
    are all the people enriched when enrichment is on, and all the people
    found when it is off. *)
Theorem every_candidate_accounted_for (w : World) :
  exists r,
    snd (generateLeads (Stack.modules post) config w) = Ret r
    /\ created (counters r) + count is_lead_error (errors (counters r))
       = length (create_calls
                   (calls (fst (generateLeads (Stack.modules post) config w))))
    /\ length (create_calls
                 (calls (fst (generateLeads (Stack.modules post) config w))))
       = if enrichData config
         then enriched (counters r)
         else searched (counters r).
Proof.
  destruct (generateLeads (Stack.modules post) config w) as [st o] eqn:H.
  destruct (modules_run w st o H) as (r & -> & Htop & _ & HR).
  exists r. split; [reflexivity|]. cbn [fst].
  set (log := calls st) in *. clearbody log.
  inversion HR as
      [ m
      | sr Hsr
      | sr evsE b m Hsr He Ha
      | sr evsE leadsToProcess n evsC d m Hsr HE Ha Hm Hl
      | sr evsE leadsToProcess n evsC seqs added seq_errors top Hsr HE Ha Hm Hen ];
    subst; cbn [top_error] in Htop; try discriminate;
    cbn [counters searched enriched created errors].
  - cbn. destruct (enrichData config); auto.
  - destruct (WorkflowClaims.enrolled_no_lead_error _ _ _ _ _ _ Hen)
      as (Hnl & _ & Hsc & _).
    autorewrite with obs. rewrite Hsc. autorewrite with obs.
    rewrite count_app, Hnl, Nat.add_0_r.
    split; [now apply created_plus_failures|].
    assert (Hlen : length evsC = length leadsToProcess).
    { rewrite <- (length_map fst evsC), Hm. apply length_map. }
    rewrite Hlen.
    inversion HE as [Hoff|evs Hon]; subst; [rewrite Hoff | rewrite Hon];
      reflexivity.
Qed.

(** X25. A failed search leaves no trace. When the transport throws on the
    search request, [generateLeads] still resolves normally: it has made
    that one call, all counters are 0 and neither [errors] nor [error]
    holds the message of the failure. *)
Theorem transport_failure_on_search_is_silent (w : World) message :
  let body := SearchBody {| page := Some (match page (searchFilters config) with
                                          | Some n => n
                                          | None => 1
                                          end);
                            Api.per_page := Some (Workflow.per_page config);
                            criteria := criteria (searchFilters config) |} in
  snd (post "/mixed_people/search"%string body w) = Throw message ->
  generateLeads (Stack.modules post) config w
  = ({| world := fst (post "/mixed_people/search"%string body w);
        results := zero;
        calls := [CallSearch (searchFilters config, Workflow.per_page config)
                             (Ret {| success := false; error := Some message;
                                     data := [] |})] |},
     Ret {| counters := zero; top_error := None |}).
Proof.
  intros body Hthrow.
  unfold generateLeads, try_catch, Workflow.body, bind, call.
  cbn [Stack.modules searchPeople initial world results calls fst snd].
  rewrite searchPeople_eq, search_params_of_workflow. fold body.
  destruct (post "/mixed_people/search"%string body w) as [w' r].
  cbn [snd] in Hthrow. subst r. reflexivity.
Qed.

End Runs.

End Modules.

Section Requests.
Context {Criteria World : Type}.
Variable post : Post Criteria World.
Variable config : Config (SearchFilters Criteria).

(** X26. One request per call. On top of the real modules, every call of a
    run of [generateLeads] is exactly one [apiClient.post], in the order of
    the calls: the search goes to [/mixed_people/search] with the configured
    criteria, page 1 unless the filters name a page, and the page size of
    the workflow; each chunk goes to [/people/bulk_match] with both reveal
    flags off; each candidate goes to [/contacts]; the enrollment goes to
    [/emailer_campaigns/<sequenceId>/add_contact_ids] with every option
    off.  No chunk is stopped by the cap of the bulk enrichment. *)
Theorem one_post_per_call (w : World) sent :
  let st := fst (generateLeads (Stack.modules (logged post)) config (w, sent)) in
  snd (world st) = sent ++ map Stack.request_of (calls st).
Proof.
  destruct (generateLeads (Stack.modules (logged post)) config (w, sent))
    as [st o] eqn:H.
  cbn [fst].
  apply (WorkflowWalk.generateLeads_holds (Stack.modules (logged post)) config
           (fun w' log => snd w' = sent ++ map Stack.request_of log))
    with (w := (w, sent)) (st := st) (o := o); try exact H;
    try (cbn; now rewrite app_nil_r);
    intros [w1 sent1] log; intros;
    repeat match goal with x := _ |- _ => subst x end;
    cbn [snd] in *; subst sent1;
    rewrite map_app, app_assoc; cbn [map Stack.request_of].
  - cbn [Stack.modules searchPeople]. rewrite searchPeople_eq.
    rewrite search_params_of_workflow.
    unfold logged at 1. cbn [fst snd].
    destruct (post _ _ w1) as [w' r]. reflexivity.
  - cbn [Stack.modules enrichPeopleBulk].
    unfold Enrichment.enrichPeopleBulk, try_catch, bind, throw, ret, lift,
      Enrichment.apiClient_post, Stack.bulk_post.
    rewrite length_map.
    destruct (Nat.ltb_spec 10 (length batch)) as [Hb|Hb]; [lia|].
    unfold logged at 1. cbn [fst snd].
    destruct (post _ _ w1) as [w' [response|message]]; [|reflexivity].
    cbn [Enrichment.matches].
    match goal with
    | |- context [Enrichment.successCount ?ms] =>
        destruct (Enrichment.successCount ms)
    end; reflexivity.
  - cbn [Stack.modules createContact]. rewrite createContact_eq.
    unfold logged at 1. cbn [fst snd].
    destruct (post _ _ w1) as [w' r]. reflexivity.
  - cbn [Stack.modules addContactsToSequence].
    rewrite addContactsToSequence_eq.
    unfold logged at 1. cbn [fst snd].
    destruct (post _ _ w1) as [w' [response|message]]; reflexivity.
Qed.

(** X11. The cap on organizations. [enrichOrganizationsBulk] makes no request
    at all for more than 10 domains and answers with a failure that says
    so; for 0 to 10 domains it makes exactly one request, a POST of the
    domains to [/organizations/bulk_enrich].  It never throws, and a
    response without [organizations] gives an empty list. *)
Theorem organizations_bulk_cap domains (w : World) sent :
  OrganizationEnrichment.enrichOrganizationsBulk (logged post) domains (w, sent)
  = if 10 <? length domains
    then ((w, sent),
          Ret {| success := false;
                 error := Some "Bulk enrichment supports maximum 10 organizations per request"%string;
                 data := [] |})
    else
      let '(w', r) :=
        post "/organizations/bulk_enrich"%string (DomainsBody domains) w in
      ((w', sent ++ [("/organizations/bulk_enrich"%string, DomainsBody domains)]),
       Ret match r with
           | Ret response =>
               {| success := true; error := None;
                  data := match organizations response with
                          | Some os => os
                          | None => []
                          end |}
           | Throw message =>
               {| success := false; error := Some message; data := [] |}
           end).
Proof.
  unfold OrganizationEnrichment.enrichOrganizationsBulk, try_catch, bind,
    throw, ret.
  destruct (10 <? length domains); [reflexivity|].
  unfold logged. cbn [fst snd].
  destruct (post _ _ w) as [w' [response|message]]; reflexivity.
Qed.

End Requests.

Lemma transport_failure_on_search_is_silent_witness :
  generateLeads (Stack.modules refusing_post) first_page 0
  = ({| world := 1;
        results := zero;
        calls := [CallSearch (searchFilters first_page, 100)
                             (Ret {| success := false;
                                     error := Some "Request failed with status code 401"%string;
                                     data := [] |})] |},
     Ret {| counters := zero; top_error := None |}).
Proof.
  exact (transport_failure_on_search_is_silent refusing_post first_page 0
           "Request failed with status code 401" eq_refl).
Defined.

End ModulesFacts.

Module QuickWorkflowsFacts.
Import Async Workflow Api WorkflowFacts QuickWorkflows ModulesScenario.

(** A run without enrichment and without a sequence. *)
Lemma frugal_run {Filters} (config : Config Filters) pp log r :
  Run config pp log r ->
  enrichData config = false ->
  truthy (sequenceId config) = false ->
  enrich_calls log = []
  /\ sequence_calls log = []
  /\ enriched (counters r) = 0
  /\ addedToSequence (counters r) = 0
  /\ exists sr rest,
       log = CallSearch (searchFilters config, pp) sr :: map create_entry rest.
Proof.
  intros HR Hoff Hseq.
  inversion HR as
      [ m
      | sr Hsr
      | sr evsE b m Hsr He Ha
      | sr evsE leadsToProcess n evsC d m Hsr HE Ha Hm Hl
      | sr evsE leadsToProcess n evsC seqs added seq_errors top Hsr HE Ha Hm Hen ];
    subst; cbn [counters enriched addedToSequence]; unfold search_params.
  - repeat split; auto. exists (Throw (Value m)), []. reflexivity.
  - repeat split; auto. exists (Ret sr), []. reflexivity.
  - congruence.
  - inversion HE; subst; [|congruence].
    autorewrite with obs. repeat split; auto. eexists _, _. reflexivity.
  - inversion HE; subst; [|congruence].
    inversion Hen as [Hw|m Hw|res Hw Hs|res Hw Hs]; subst;
      try (unfold wants_sequence in Hw; rewrite Hseq in Hw; discriminate).
    autorewrite with obs. repeat split; auto. eexists _, _. reflexivity.
Qed.

Section Workflows.
Context {World : Type}.
Variable C : Collaborators (SearchFilters PeopleCriteria) World.

(** X20. The quick workflow saves credits. Whatever the collaborators answer,
    [findDecisionMakers] makes no enrichment call and no enrollment call:
    its calls are one search, for [min(maxResults || 25, 100)] results and
    without a page, followed by the creations, and [enriched] and
    [addedToSequence] are 0 in its result.  Every contact it submits carries
    the given lists, or the list [Decision Makers] when none is given. *)
Theorem findDecisionMakers_saves_credits location lists maxResults (w : World) st r :
  findDecisionMakers C location lists maxResults w = (st, Ret r) ->
  enrich_calls (calls st) = []
  /\ sequence_calls (calls st) = []
  /\ enriched (counters r) = 0
  /\ addedToSequence (counters r) = 0
  /\ (exists filters sr rest,
        calls st = CallSearch (filters, Nat.min (num_or maxResults 25) 100) sr
                   :: map create_entry rest
        /\ page filters = None)
  /\ Forall (fun e => ContactData.label_names (fst e)
                      = Some (match lists with
                              | Some l => l
                              | None => ["Decision Makers"%string]
                              end))
            (create_calls (calls st)).
Proof.
  unfold findDecisionMakers. intros H.
  destruct (generateLeads_run _ _ _ _ _ H) as (_ & HR).
  destruct (frugal_run _ _ _ _ HR eq_refl eq_refl)
    as (H1 & H2 & H3 & H4 & sr & rest & H5).
  split; [exact H1|]. split; [exact H2|]. split; [exact H3|].
  split; [exact H4|]. split.
  - eexists _, sr, rest. rewrite H5. cbn [searchFilters].
    split.
    + apply (f_equal (fun p => CallSearch p sr :: map create_entry rest)).
      apply f_equal.
      unfold Workflow.per_page. cbn [Workflow.maxResults].
      destruct maxResults as [[|n]|]; reflexivity.
    + reflexivity.
  - destruct (WorkflowMore.run_create_inputs _ _ _ _ HR) as (leads & Hm).
    exact (WorkflowMore.labels_of_inputs _ _ _ Hm).
Qed.

End Workflows.

Lemma findDecisionMakers_saves_credits_witness :
  enrich_calls
    (calls (fst (findDecisionMakers (Stack.modules scripted_post)
                                    (Some "Berlin"%string) None None 0))) = []
  /\ Forall (fun e => ContactData.label_names (fst e)
                      = Some ["Decision Makers"%string])
            (create_calls
               (calls (fst (findDecisionMakers (Stack.modules scripted_post)
                                               (Some "Berlin"%string) None None 0)))).
Proof.
  assert (H : findDecisionMakers (Stack.modules scripted_post)
                                 (Some "Berlin"%string) None None 0
              = (fst (findDecisionMakers (Stack.modules scripted_post)
                                         (Some "Berlin"%string) None None 0),
                 Ret {| counters := {| searched := 2; enriched := 0; created := 2;
                                       addedToSequence := 0; errors := [] |};
                        top_error := None |}))
    by (vm_compute; reflexivity).
  destruct (findDecisionMakers_saves_credits _ _ _ _ _ _ _ H)
    as (H1 & _ & _ & _ & _ & H6).
  split; [exact H1 | exact H6].
Defined.

End QuickWorkflowsFacts.

Module FullStackFacts.
Import Transport TransportTrace TransportFacts Api Workflow FullStack.

Section Wrappers.
Context {Payload Data World : Type}.
Variable env : Env Payload Data World.

(** One operation with three attempts allowed. *)
Lemma three_attempts method endpoint data (st : World * APIClient) :
  let x := request env method endpoint data 3 st in
  ended_as_last_call (events_of x) (result_of x)
  /\ n_acquires (events_of x) = 1
  /\ 1 <= n_calls (events_of x) <= 3
  /\ (total_backoff (events_of x) = 0
      \/ total_backoff (events_of x) = 1000
      \/ total_backoff (events_of x) = 3000)%Z.
Proof.
  destruct (request env method endpoint data 3 st) as [[st' evs] res] eqn:H.
  cbv zeta. unfold result_of, events_of. cbn [fst snd].
  destruct (request_shape env _ _ _ _ _ _ _ _ H) as (rest & -> & Hs).
  pose proof (shape_no_acquire _ _ _ _ _ Hs) as Hna.
  destruct (TransportMore.shape_outcome _ _ _ _ _ Hs)
    as [(Hle & _)|(f & r & pre & Hf & Hevs & Hn & Ht & _ & Hr)]; [lia|].
  unfold n_acquires, n_calls in *. cbn [filter is_acquire is_call length total_backoff].
  split.
  { exists (EvAcquire :: pre), f. rewrite Hevs.
    destruct r as [d|error]; [now rewrite Hr | now destruct Hr as (-> & _)]. }
  split; [lia|]. split; [lia|].
  rewrite Ht.
  assert (Hf3 : f = 0 \/ f = 1 \/ f = 2) by lia.
  destruct Hf3 as [-> | [-> | ->]]; cbn; lia.
Qed.

(** X9. The three wrappers. With their three attempts, [get], [post] and
    [put] go through the rate limiter once, make one, two or three physical
    calls, sleep 0, 1 or 3 seconds of backoff in all, and end as their last
    physical call does: they return the response data of that call, or
    throw the error of that call, never [undefined]. *)
Theorem wrappers_settle endpoint payload (st : World * APIClient) :
  let ok (x : (World * APIClient) * list (Event Data) * result Data) :=
    ended_as_last_call (events_of x) (result_of x)
    /\ n_acquires (events_of x) = 1
    /\ 1 <= n_calls (events_of x) <= 3
    /\ (total_backoff (events_of x) = 0
        \/ total_backoff (events_of x) = 1000
        \/ total_backoff (events_of x) = 3000)%Z in
  ok (get env endpoint payload st)
  /\ ok (post env endpoint payload st)
  /\ ok (put env endpoint payload st).
Proof.
  cbv zeta. unfold get, post, put.
  split; [|split]; apply three_attempts.
Qed.

End Wrappers.

Section Stack.
Context {Criteria World : Type}.
Variable post : Post Criteria World.
Variable config : Config (SearchFilters Criteria).

(** On top of the real modules, each call of a run is one trip through
    [apiClient.post]: what a trip preserves, the run preserves. *)
Lemma modules_preserve (P : World -> nat -> Prop) (w : World) :
  (forall endpoint body w n,
      P w n -> P (fst (post endpoint body w)) (S n)) ->
  P w 0 ->
  let st := fst (generateLeads (Stack.modules post) config w) in
  P (world st) (length (calls st)).
Proof.
  intros Hstep H0.
  destruct (generateLeads (Stack.modules post) config w) as [st o] eqn:H.
  cbn [fst].
  apply (WorkflowWalk.generateLeads_holds (Stack.modules post) config
           (fun w' log => P w' (length log)))
    with (w := w) (st := st) (o := o); try exact H; try exact H0;
    intros w1 log; intros;
    repeat match goal with x := _ |- _ => subst x end;
    rewrite length_app, Nat.add_1_r; cbn [length].
  - cbn [Stack.modules searchPeople]. rewrite ModulesFacts.searchPeople_eq.
    match goal with
    | |- context [post ?e ?b w1] =>
        specialize (Hstep e b w1 _ ltac:(eassumption));
        destruct (post e b w1) as [w' r]
    end. exact Hstep.
  - cbn [Stack.modules enrichPeopleBulk].
    unfold Enrichment.enrichPeopleBulk, Async.try_catch, Async.bind,
      Async.throw, Async.ret, Async.lift, Enrichment.apiClient_post,
      Stack.bulk_post.
    rewrite length_map.
    destruct (Nat.ltb_spec 10 (length batch)) as [Hb|Hb]; [lia|].
    match goal with
    | |- context [post ?e ?b w1] =>
        specialize (Hstep e b w1 _ ltac:(eassumption));
        destruct (post e b w1) as [w' [response|message]]
    end; [|exact Hstep].
    cbn [Enrichment.matches].
    match goal with
    | |- context [Enrichment.successCount ?ms] =>
        destruct (Enrichment.successCount ms)
    end; exact Hstep.
  - cbn [Stack.modules createContact]. rewrite ModulesFacts.createContact_eq.
    match goal with
    | |- context [post ?e ?b w1] =>
        specialize (Hstep e b w1 _ ltac:(eassumption));
        destruct (post e b w1) as [w' r]
    end. exact Hstep.
  - cbn [Stack.modules addContactsToSequence].
    rewrite ModulesFacts.addContactsToSequence_eq.
    match goal with
    | |- context [post ?e ?b w1] =>
        specialize (Hstep e b w1 _ ltac:(eassumption));
        destruct (post e b w1) as [w' [response|message]]
    end; exact Hstep.
Qed.

End Stack.

Section System.
Context {Criteria World : Type}.
Variable env : Env (Body Criteria) Response World.
Variable config : Config (SearchFilters Criteria).

(** X27. The traffic of a run. On top of the real modules and the real
    client, a run of [generateLeads] that makes [n] calls to the modules
    goes through the rate limiter exactly [n] times, makes between [n] and
    [3 n] physical calls, and sleeps at most [3 n] seconds of backoff. *)
Theorem traffic_of_a_run (w : World) (c : APIClient) :
  let st := fst (generateLeads (Stack.modules (apiClient_post env)) config
                               ((w, c), [])) in
  let evs := snd (world st) in
  let n := length (calls st) in
  n_acquires evs = n
  /\ n <= n_calls evs <= 3 * n
  /\ (0 <= total_backoff evs <= 3000 * Z.of_nat n)%Z.
Proof.
  cbv zeta.
  apply (modules_preserve (apiClient_post env) config
           (fun sys n =>
              n_acquires (snd sys) = n
              /\ n <= n_calls (snd sys) <= 3 * n
              /\ (0 <= total_backoff (snd sys) <= 3000 * Z.of_nat n)%Z)).
  - intros endpoint body [st evs] n (Ha & Hc & Hb).
    unfold apiClient_post. cbn [fst snd] in *.
    pose proof (three_attempts env "POST" endpoint (Some body) st) as Hx.
    cbv zeta in Hx. unfold Transport.post.
    destruct (request env "POST" endpoint (Some body) 3 st) as [[st' evs'] res].
    unfold result_of, events_of in Hx. cbn [fst snd] in *.
    destruct Hx as (_ & Ha' & Hc' & Hb').
    rewrite TransportMore.n_calls_app, TransportMore.total_backoff_app.
    unfold n_acquires in *. rewrite filter_app, length_app.
    split; [lia|]. split; [lia|]. lia.
  - cbn. lia.
Qed.

End System.

Section Pacing.
Context {Criteria World : Type}.
Variable env : Env (Body Criteria) Response World.
Variable config : Config (SearchFilters Criteria).

(** The client an operation leaves behind is the one the rate limiter
    left. *)
Lemma request_client method endpoint data retries (st : World * APIClient) :
  snd (fst (fst (request env method endpoint data retries st)))
  = snd (_rateLimit env st).
Proof.
  unfold request.
  match goal with
  | |- context [attempts env ?f ?r ?cfg ?a ?le ?s] =>
      destruct (attempts env f r cfg a le s) as [[st1 evs1] res1] eqn:Hrec
  end.
  apply TransportMore.attempts_client in Hrec. exact Hrec.
Qed.

Lemma spaced_push gap t' times t0 :
  (gap <= inject_Z (t' - hd t0 times))%Q ->
  RateLimiter.spaced gap (times ++ [t0]) ->
  RateLimiter.spaced gap ((t' :: times) ++ [t0]).
Proof.
  destruct times as [|t rest]; cbn [app hd]; intros Hgap Hs.
  - cbn. auto.
  - cbn [RateLimiter.spaced]. destruct (rest ++ [t0]) eqn:E; auto.
Qed.

(** X28. The pace of a run. On top of the real modules and the real
    client, with a rate limit [R >= 1] and timers that fire no earlier than
    asked, the operations of a run of [generateLeads] are let through by the
    rate limiter at least [60000 / R] ms apart from one another, and the
    first one at least that long after the time found in [lastRequestTime];
    there is one such time for every call of the run. *)
Theorem pace_of_a_run (w : World) (c : APIClient) :
  (1 <= rateLimit c)%Z ->
  (forall delay w0,
     inject_Z (now env w0) + delay <= inject_Z (now env (setTimeout env delay w0)))%Q ->
  let st := fst (generateLeads (Stack.modules (timed_post env)) config
                               (((w, c), []), [])) in
  let times := snd (world st) in
  length times = length (calls st)
  /\ RateLimiter.spaced (RateLimiter.minInterval (rateLimit c))
                        (times ++ [lastRequestTime c]).
Proof.
  intros _ Htimer. cbv zeta.
  pose proof (modules_preserve (timed_post env) config
                (fun sys n =>
                   length (snd sys) = n
                   /\ rateLimit (snd (fst (fst sys))) = rateLimit c
                   /\ lastRequestTime (snd (fst (fst sys)))
                      = hd (lastRequestTime c) (snd sys)
                   /\ RateLimiter.spaced (RateLimiter.minInterval (rateLimit c))
                                         (snd sys ++ [lastRequestTime c]))
                (((w, c), []), [])) as Hp.
  cbv zeta in Hp.
  destruct Hp as (Hl & _ & _ & Hs); [| |split; assumption].
  - intros endpoint body [[[w1 c1] evs] times] n (Hl & HR & Hlast & Hs).
    cbn [fst snd] in *.
    unfold timed_post, apiClient_post. cbn [fst snd]. unfold Transport.post.
    pose proof (request_client "POST" endpoint (Some body) 3 (w1, c1)) as Hc.
    pose proof (rateLimit_waits env w1 c1 Htimer) as Hw.
    destruct (request env "POST" endpoint (Some body) 3 (w1, c1))
      as [[[w2 c2] evs'] res].
    cbn [fst snd] in *. subst c2.
    split; [cbn; lia|].
    split; [unfold _rateLimit; cbn; exact HR|].
    split; [reflexivity|].
    apply spaced_push; [|exact Hs].
    rewrite <- Hlast, <- HR. exact Hw.
  - cbn. auto.
Qed.

End Pacing.

Lemma flaky_server_timer (delay : Q) (w0 : nat * Z) :
  (inject_Z (now FullStackScenario.flaky_server w0) + delay
   <= inject_Z (now FullStackScenario.flaky_server
                    (setTimeout FullStackScenario.flaky_server delay w0)))%Q.
Proof.
  cbn. rewrite inject_Z_plus.
  pose proof (Qle_ceiling delay). lra.
Qed.

Lemma pace_of_a_run_witness :
  let st := fst (generateLeads
                   (Stack.modules (timed_post FullStackScenario.flaky_server))
                   ModulesScenario.first_page
                   (((TransportScenario.w0, TransportScenario.client0), []), [])) in
  let times := snd (world st) in
  length times = length (calls st)
  /\ RateLimiter.spaced (RateLimiter.minInterval 10) (times ++ [0%Z]).
Proof.
  exact (pace_of_a_run FullStackScenario.flaky_server ModulesScenario.first_page
           TransportScenario.w0 TransportScenario.client0
           ltac:(cbn; lia) flaky_server_timer).
Defined.

(** A run against a server that fails every other physical call: the
    search succeeds at its second attempt, the one enrichment call is
    retried once and then rejected, and nothing is created. *)
Example flaky_server_traffic :
  let run := generateLeads (Stack.modules (apiClient_post FullStackScenario.flaky_server))
                           ModulesScenario.first_page
                           ((TransportScenario.w0, TransportScenario.client0), []) in
  let evs := snd (world (fst run)) in
  length (calls (fst run)) = 2
  /\ n_acquires evs = 2
  /\ n_calls evs = 4
  /\ total_backoff evs = 2000%Z
  /\ snd run = Ret {| counters := {| searched := 2; enriched := 0; created := 0;
                                     addedToSequence := 0; errors := [] |};
                      top_error := None |}.
Proof. vm_compute. repeat split; reflexivity. Qed.

End FullStackFacts.
